(** * Sketches: CPC serialization, the HLL register array, KLL merge

    A shallow embedding of the parts of the sketch library that its
    specification makes statements about:

    - [Cpc]: [cpc_sketch::serialize], [cpc_sketch::deserialize],
      [get_preamble_ints], [get_estimate] and [validate] (cpc_sketch.hpp);
    - [Hll]: [HllArray] with [couponUpdate], [hipAndKxQIncrementalUpdate],
      [isEmpty], [getLowerBound] and [getCompositeEstimate] (HllArray.cpp);
    - [Kll]: the merge scenarios of kll_sketch_test.cpp;

    and, beside them:

    - [CpcBuffer]: [cpc_sketch::serialize(header_size_bytes)];
    - [HllRegisters] and [HllSums]: the registers of an [HllArray] and the
      sums that [hipAndKxQIncrementalUpdate] keeps in [kxq0] and [kxq1];
    - [HllImage]: [HllArray::serialize], [HllArray::newHll(std::istream&)]
      and the functions of HllSketchImpl.cpp;
    - [KllItems]: [serialize_items] and [deserialize_items] for strings
      (kll_sketch_test.cpp).

    Integers of a fixed width are carried as [Z] with the conversion
    written out where the source converts; a byte is a [Z] in [0, 256).
    The host is taken to be little-endian, as the serialized format is. *)

From Stdlib Require Import ZArith QArith Lia Bool Floats Uint63.
From stdpp Require Import base list.

Set Warnings "-inexact-float,-abstract-large-number".

Local Open Scope Z_scope.

(** ** Little-endian images of fixed-width values *)

Module Bytes.

(** [le_bytes n v]: the [n] bytes that [os.write((char* )&v, n)] emits for
    an unsigned value; a wider [v] is truncated as the C++ conversion to
    the [n]-byte type does. *)
Fixpoint le_bytes (n : nat) (v : Z) : list Z :=
  match n with
  | O => []
  | S n' => (v mod 256) :: le_bytes n' (v / 256)
  end.

(** [le_value bs]: the unsigned value whose image is [bs]. *)
Fixpoint le_value (bs : list Z) : Z :=
  match bs with
  | [] => 0
  | b :: bs' => b + 256 * le_value bs'
  end.

(** [int] is 32 bits, two's complement: [to_int z] is the [int] that an
    arithmetic result [z] is stored as. *)
Definition to_int (z : Z) : Z := (z + 2 ^ 31) mod 2 ^ 32 - 2 ^ 31.

(** An input stream is the list of bytes not yet consumed.  [read n]
    is [is.read(dst, n)]: when fewer than [n] bytes are left the source
    leaves [dst] unspecified (the stream variant) or reads outside the
    buffer (the memory variant); the model reports this as [None]. *)
Definition read (n : nat) (s : list Z) : option (list Z * list Z) :=
  if decide (n <= length s)%nat then Some (take n s, drop n s) else None.

Definition read_uint (n : nat) (s : list Z) : option (Z * list Z) :=
  match read n s with
  | Some (bs, s') => Some (le_value bs, s')
  | None => None
  end.

(** [read_words n]: [n] consecutive [uint32_t] array elements. *)
Fixpoint read_words (n : nat) (s : list Z) : option (list Z * list Z) :=
  match n with
  | O => Some ([], s)
  | S n' =>
      match read_uint 4 s with
      | Some (w, s') =>
          match read_words n' s' with
          | Some (ws, s'') => Some (w :: ws, s'')
          | None => None
          end
      | None => None
      end
  end.

(** [write_words ws]: the image of a [uint32_t] array. *)
Definition write_words (ws : list Z) : list Z :=
  concat (map (le_bytes 4) ws).

End Bytes.

(** ** CPC sketch: the wrapper class of cpc_sketch.hpp *)

Module Cpc.
Import Bytes.

(** A [double] is moved through serialization as its 8-byte image only, so
    the CPC part carries it as its IEEE-754 binary64 bit pattern. *)
Definition double := Z.

(** The binary64 image of an [int] (exact: every [int] has at most 31
    significant bits). *)
Definition double_of_int (v : Z) : double :=
  if v =? 0 then 0
  else
    let a := Z.abs v in
    let e := Z.log2 a in
    (if v <? 0 then 2 ^ 63 else 0) + (1023 + e) * 2 ^ 52 + (a - 2 ^ e) * 2 ^ (52 - e).

(** The [FM85] state of fm85.h, with the fields that cpc_sketch.hpp reads and
    writes.  A pointer field is [None] for [nullptr]. *)
Record FM85 := {
  lgK : Z;
  isCompressed : bool;
  mergeFlag : bool;
  numCoupons : Z;
  slidingWindow : option (list Z);
  surprisingValueTable : option (list Z);
  windowOffset : Z;
  firstInterestingColumn : Z;
  kxp : double;
  hipEstAccum : double;
  hipErrAccum : double;
  numCompressedSurprisingValues : Z;
  compressedSurprisingValues : option (list Z);
  csvLength : Z;
  compressedWindow : option (list Z);
  cwLength : Z
}.

(** The functions of the C core (fm85.c, fm85Compression.c, iconEstimator.c,
    fm85Util.c) and of cpc_common.hpp that the wrapper calls and whose code
    is not part of the wrapper. *)
Class Fm85Lib := {
  fm85Compress : FM85 -> FM85;
  fm85Uncompress : FM85 -> FM85;
  determineCorrectOffset : Z -> Z -> Z;
  getIconEstimate : Z -> Z -> double;
  bitMatrixOfSketch : FM85 -> list Z;
  compute_seed_hash : Z -> Z
}.

(** Modelled from the spec: [getHIPEstimate] (fm85.c is missing) returns the
    HIP accumulator [hipEstAccum] of the state. *)
Definition getHIPEstimate (s : FM85) : double := hipEstAccum s.

(** Modelled from the spec: [countBitsSetInMatrix] (fm85Util.c is missing) is
    the population count of the first [n] 64-bit rows of a bit matrix. *)
Definition popcount64 (w : Z) : Z :=
  fold_right (fun i acc => (if Z.testbit w (Z.of_nat i) then 1 else 0) + acc) 0 (seq 0 64).

Definition countBitsSetInMatrix (m : list Z) (n : Z) : Z :=
  fold_right (fun w acc => popcount64 w + acc) 0 (take (Z.to_nat n) m).

Record cpc_sketch := {
  state : FM85;
  seed : Z
}.

Definition SERIAL_VERSION : Z := 1.
Definition FAMILY : Z := 16.

(** [enum flags { IS_BIG_ENDIAN, IS_COMPRESSED, HAS_HIP, HAS_TABLE, HAS_WINDOW }] *)
Definition IS_BIG_ENDIAN : Z := 0.
Definition IS_COMPRESSED : Z := 1.
Definition HAS_HIP : Z := 2.
Definition HAS_TABLE : Z := 3.
Definition HAS_WINDOW : Z := 4.

Definition not_null {A} (p : option A) : bool :=
  match p with Some _ => true | None => false end.

Definition array {A} (p : option (list A)) : list A :=
  match p with Some l => l | None => [] end.

Definition uint8 (z : Z) : Z := z mod 2 ^ 8.
Definition uint16 (z : Z) : Z := z mod 2 ^ 16.

Definition is_empty (x : cpc_sketch) : bool := numCoupons (state x) =? 0.

Definition get_preamble_ints (s : FM85) : Z :=
  uint8
    (2 +
     if 0 <? numCoupons s then
       1
       + (if negb (mergeFlag s) then 4 else 0)
       + (if not_null (compressedSurprisingValues s)
          then 1 + (if not_null (compressedWindow s) then 1 else 0)
          else 0)
       + (if not_null (compressedWindow s) then 1 else 0)
     else 0).

Definition flags_byte_of (has_hip has_table has_window : bool) : Z :=
  uint8
    (Z.lor (Z.shiftl 1 IS_COMPRESSED)
       (Z.lor (if has_hip then Z.shiftl 1 HAS_HIP else 0)
          (Z.lor (if has_table then Z.shiftl 1 HAS_TABLE else 0)
                 (if has_window then Z.shiftl 1 HAS_WINDOW else 0)))).

Definition flag_set (flags_byte bit : Z) : bool :=
  negb (Z.land flags_byte (Z.shiftl 1 bit) =? 0).

(** The fields of a serialized image, in the order of the [os.write] calls. *)
Inductive field :=
  | F_preamble_ints | F_serial_version | F_family | F_lg_k
  | F_first_interesting_column | F_flags | F_seed_hash
  | F_num_coupons | F_num_values | F_kxp | F_hip_est_accum
  | F_csv_length | F_cw_length | F_window | F_table.

Global Instance field_eq_dec : EqDecision field.
Proof. solve_decision. Defined.

(** [write_hip]: [kxp], then [hipEstAccum], 8 bytes each. *)
Definition write_hip (s : FM85) : list (field * list Z) :=
  [ (F_kxp, le_bytes 8 (kxp s)); (F_hip_est_accum, le_bytes 8 (hipEstAccum s)) ].

Section Wrapper.
Context `{Fm85Lib}.

Definition get_estimate (x : cpc_sketch) : double :=
  if negb (mergeFlag (state x)) then getHIPEstimate (state x)
  else getIconEstimate (lgK (state x)) (numCoupons (state x)).

Definition validate (x : cpc_sketch) : bool :=
  let bit_matrix := bitMatrixOfSketch (state x) in
  let num_bits_set := countBitsSetInMatrix bit_matrix (Z.shiftl 1 (lgK (state x))) in
  num_bits_set =? numCoupons (state x).

(** The writes of [serialize(std::ostream&)] under [if (!is_empty())], one
    entry per [os.write]. *)
Definition body_fields (compressed : FM85) : list (field * list Z) :=
  let has_hip := negb (mergeFlag compressed) in
  let has_table := not_null (compressedSurprisingValues compressed) in
  let has_window := not_null (compressedWindow compressed) in
  [ (F_num_coupons, le_bytes 4 (numCoupons compressed)) ]
  ++ (if has_table && has_window then
        [ (F_num_values, le_bytes 4 (numCompressedSurprisingValues compressed)) ]
        ++ (if has_hip then write_hip compressed else [])
      else [])
  ++ (if has_table then [ (F_csv_length, le_bytes 4 (csvLength compressed)) ] else [])
  ++ (if has_window then [ (F_cw_length, le_bytes 4 (cwLength compressed)) ] else [])
  ++ (if has_hip && negb (has_table && has_window) then write_hip compressed else [])
  ++ (if has_window then
        [ (F_window,
           write_words (take (Z.to_nat (cwLength compressed))
                             (array (compressedWindow compressed)))) ]
      else [])
  ++ (if has_table then
        [ (F_table,
           write_words (take (Z.to_nat (csvLength compressed))
                             (array (compressedSurprisingValues compressed)))) ]
      else []).

(** The eight header bytes that [serialize] writes first. *)
Definition header_fields (compressed : FM85) (seed : Z) : list (field * list Z) :=
  let has_hip := negb (mergeFlag compressed) in
  let has_table := not_null (compressedSurprisingValues compressed) in
  let has_window := not_null (compressedWindow compressed) in
  [ (F_preamble_ints, le_bytes 1 (get_preamble_ints compressed));
    (F_serial_version, le_bytes 1 SERIAL_VERSION);
    (F_family, le_bytes 1 FAMILY);
    (F_lg_k, le_bytes 1 (lgK compressed));
    (F_first_interesting_column, le_bytes 1 (firstInterestingColumn compressed));
    (F_flags, le_bytes 1 (flags_byte_of has_hip has_table has_window));
    (F_seed_hash, le_bytes 2 (compute_seed_hash seed)) ].

(** [serialize(std::ostream&)]: [fm85Compress], the header, and the body
    unless the sketch is empty. *)
Definition serialize_fields (x : cpc_sketch) : list (field * list Z) :=
  let compressed := fm85Compress (state x) in
  header_fields compressed (seed x)
  ++ (if negb (is_empty x) then body_fields compressed else []).

Definition image (fs : list (field * list Z)) : list Z := concat (map snd fs).

Definition serialize (x : cpc_sketch) : list Z := image (serialize_fields x).

(** The eight header bytes of an image, and the body that follows them. *)
Definition header_bytes (c : FM85) (seed : Z) : list Z :=
  [ get_preamble_ints c; SERIAL_VERSION; FAMILY; lgK c mod 256;
    firstInterestingColumn c mod 256;
    flags_byte_of (negb (mergeFlag c)) (not_null (compressedSurprisingValues c))
                  (not_null (compressedWindow c));
    compute_seed_hash seed mod 256; compute_seed_hash seed / 256 mod 256 ].

Definition body_bytes (x : cpc_sketch) : list Z :=
  image (if negb (is_empty x) then body_fields (fm85Compress (state x)) else []).

(** The fields that [deserialize] compares with an expected value. *)
Definition checked_field (f : field) : bool :=
  match f with
  | F_preamble_ints | F_serial_version | F_family | F_seed_hash => true
  | _ => false
  end.

(** The two fields that [write_hip] writes. *)
Definition hip_field (f : field) : bool :=
  match f with
  | F_kxp | F_hip_est_accum => true
  | _ => false
  end.

(** How [deserialize] fails.  The first four are the
    [std::invalid_argument] of a header check; [Size_assertion] is the
    [assert(ptr == bytes + size)] of the memory variant; [Read_past_end] is
    no exception of the source: it marks an input shorter than the fields
    its flags announce, on which the source goes on with unset members. *)
Inductive error :=
  | Corrupt_preamble_ints (expected got : Z)
  | Corrupt_serial_version (expected got : Z)
  | Corrupt_family (expected got : Z)
  | Incompatible_seed_hashes (got expected : Z)
  | Read_past_end
  | Size_assertion.

Inductive result (A : Type) :=
  | Ok (a : A)
  | Err (e : error).
Global Arguments Ok {A} a.
Global Arguments Err {A} e.

Definition is_corruption (e : error) : bool :=
  match e with
  | Corrupt_preamble_ints _ _ | Corrupt_serial_version _ _
  | Corrupt_family _ _ | Incompatible_seed_hashes _ _ => true
  | Read_past_end | Size_assertion => false
  end.

(** The eight header bytes, as [deserialize] reads them into locals. *)
Record header := {
  h_preamble_ints : Z;
  h_serial_version : Z;
  h_family_id : Z;
  h_lg_k : Z;
  h_first_interesting_column : Z;
  h_flags_byte : Z;
  h_seed_hash : Z
}.

Definition read_header (s : list Z) : option (header * list Z) :=
  '(preamble_ints, s) ← read_uint 1 s;
  '(serial_version, s) ← read_uint 1 s;
  '(family_id, s) ← read_uint 1 s;
  '(lg_k, s) ← read_uint 1 s;
  '(first_interesting_column, s) ← read_uint 1 s;
  '(flags_byte, s) ← read_uint 1 s;
  '(seed_hash, s) ← read_uint 2 s;
  Some ({| h_preamble_ints := preamble_ints; h_serial_version := serial_version;
           h_family_id := family_id; h_lg_k := lg_k;
           h_first_interesting_column := first_interesting_column;
           h_flags_byte := flags_byte; h_seed_hash := seed_hash |}, s).

(** [read_hip]: [kxp], then [hipEstAccum]. *)
Definition read_hip (s : list Z) : option (double * double * list Z) :=
  '(k, s) ← read_uint 8 s;
  '(h, s) ← read_uint 8 s;
  Some (k, h, s).

(** [new uint32_t[n]] filled by one [read] of [n] words. *)
Definition read_array (n : Z) (s : list Z) : option (option (list Z) * list Z) :=
  '(ws, s) ← read_words (Z.to_nat n) s;
  Some (Some ws, s).

(** The local [FM85 compressed] of [deserialize]: its initialization from the
    header, then the reads under [if (has_table || has_window)], up to the
    call of [determineCorrectOffset]. *)
Definition read_body (hdr : header) (s : list Z) : option (FM85 * list Z) :=
  let has_hip := flag_set (h_flags_byte hdr) HAS_HIP in
  let has_table := flag_set (h_flags_byte hdr) HAS_TABLE in
  let has_window := flag_set (h_flags_byte hdr) HAS_WINDOW in
  let kxp0 := double_of_int (to_int (Z.shiftl 1 (h_lg_k hdr))) in
  let compressed num_coupons num_values hip csv_length cw_length window table :=
    {| lgK := h_lg_k hdr; isCompressed := true;
       mergeFlag := if has_hip then false else true;
       numCoupons := num_coupons;
       slidingWindow := None; surprisingValueTable := None;
       windowOffset := 0;
       firstInterestingColumn := h_first_interesting_column hdr;
       kxp := fst hip; hipEstAccum := snd hip; hipErrAccum := 0;
       numCompressedSurprisingValues := num_values;
       compressedSurprisingValues := table; csvLength := csv_length;
       compressedWindow := window; cwLength := cw_length |} in
  if has_table || has_window then
    '(num_coupons, s) ← read_uint 4 s;
    '(num_values, hip_a, s) ←
      (if has_table && has_window then
         '(num_values, s) ← read_uint 4 s;
         if has_hip then
           '(k, h, s) ← read_hip s; Some (num_values, (k, h), s)
         else Some (num_values, (kxp0, 0), s)
       else Some (0, (kxp0, 0), s));
    '(csv_length, s) ← (if has_table then read_uint 4 s else Some (0, s));
    '(cw_length, s) ← (if has_window then read_uint 4 s else Some (0, s));
    '(hip_b, s) ←
      (if has_hip && negb (has_table && has_window) then
         '(k, h, s) ← read_hip s; Some ((k, h), s)
       else Some (hip_a, s));
    '(window, s) ← (if has_window then read_array cw_length s else Some (None, s));
    '(table, s) ← (if has_table then read_array csv_length s else Some (None, s));
    let num_values := if negb has_window then num_coupons else num_values in
    Some (compressed num_coupons num_values hip_b csv_length cw_length window table, s)
  else
    Some (compressed 0 0 (kxp0, 0) 0 0 None None, s).

(** The reading half of [deserialize]. *)
Definition read_compressed (s : list Z) : option (header * FM85 * list Z) :=
  '(hdr, s) ← read_header s;
  '(c, s) ← read_body hdr s;
  Some (hdr, c, s).

Definition with_windowOffset (c : FM85) (w : Z) : FM85 :=
  {| lgK := lgK c; isCompressed := isCompressed c; mergeFlag := mergeFlag c;
     numCoupons := numCoupons c;
     slidingWindow := slidingWindow c; surprisingValueTable := surprisingValueTable c;
     windowOffset := w;
     firstInterestingColumn := firstInterestingColumn c;
     kxp := kxp c; hipEstAccum := hipEstAccum c; hipErrAccum := hipErrAccum c;
     numCompressedSurprisingValues := numCompressedSurprisingValues c;
     compressedSurprisingValues := compressedSurprisingValues c;
     csvLength := csvLength c;
     compressedWindow := compressedWindow c; cwLength := cwLength c |}.

(** The checking half of [deserialize], from [determineCorrectOffset] on. *)
Definition check_and_uncompress (hdr : header) (c : FM85) (seed : Z) : result cpc_sketch :=
  let compressed :=
    with_windowOffset c (determineCorrectOffset (lgK c) (numCoupons c)) in
  let expected_preamble_ints := get_preamble_ints compressed in
  if negb (h_preamble_ints hdr =? expected_preamble_ints) then
    Err (Corrupt_preamble_ints expected_preamble_ints (h_preamble_ints hdr))
  else if negb (h_serial_version hdr =? SERIAL_VERSION) then
    Err (Corrupt_serial_version SERIAL_VERSION (h_serial_version hdr))
  else if negb (h_family_id hdr =? FAMILY) then
    Err (Corrupt_family FAMILY (h_family_id hdr))
  else if negb (h_seed_hash hdr =? uint16 (compute_seed_hash seed)) then
    Err (Incompatible_seed_hashes (h_seed_hash hdr) (uint16 (compute_seed_hash seed)))
  else
    let uncompressed := fm85Uncompress compressed in
    Ok {| state := uncompressed; seed := seed |}.

(** [deserialize(std::istream&, seed)] *)
Definition deserialize (s : list Z) (seed : Z) : result cpc_sketch :=
  match read_compressed s with
  | None => Err Read_past_end
  | Some (hdr, c, _) => check_and_uncompress hdr c seed
  end.

(** [deserialize(const void* bytes, size_t size, seed)]: the same reads from
    memory, then the assertion that all [size] bytes were consumed. *)
Definition deserialize_mem (bytes : list Z) (seed : Z) : result cpc_sketch :=
  match read_compressed bytes with
  | None => Err Read_past_end
  | Some (hdr, c, rest) =>
      match rest with
      | [] => check_and_uncompress hdr c seed
      | _ :: _ => Err Size_assertion
      end
  end.

(** *** The contract of the C core

    The wrapper's round trip rests on what the C core guarantees.  Its code is
    not part of the wrapper; the statements below are the specification's. *)

(** Modelled from the spec: the compressed form of a state (fm85Compression.c
    is missing).  Sections 3.1 and 6.1: [lgK] in [4, 26]; [numCoupons] at most
    [32 * k]; the packed arrays [compressedSurprisingValues[csvLength]] and
    [compressedWindow[cwLength]] of 32-bit words; a body is present iff a
    table or a window is; [numCompressedSurprisingValues] differs from
    [numCoupons] only when a window is present, and counts nothing when
    there is no table; the HIP registers are binary64 values, the
    initial ones ([kxp = k], [hipEstAccum = 0]) as long as no update was
    accepted. *)
Record compressed_ok (c : FM85) : Prop := {
  ck_compressed : isCompressed c = true;
  ck_lgK : 4 <= lgK c <= 26;
  ck_column : 0 <= firstInterestingColumn c < 64;
  ck_coupons : 0 <= numCoupons c <= 32 * 2 ^ lgK c;
  ck_body : (0 <? numCoupons c) =
            not_null (compressedSurprisingValues c) || not_null (compressedWindow c);
  ck_csv_length : csvLength c = Z.of_nat (length (array (compressedSurprisingValues c)));
  ck_cw_length : cwLength c = Z.of_nat (length (array (compressedWindow c)));
  ck_csv_small : csvLength c < 2 ^ 32;
  ck_cw_small : cwLength c < 2 ^ 32;
  ck_csv_words : Forall (fun w => 0 <= w < 2 ^ 32) (array (compressedSurprisingValues c));
  ck_cw_words : Forall (fun w => 0 <= w < 2 ^ 32) (array (compressedWindow c));
  ck_values : 0 <= numCompressedSurprisingValues c < 2 ^ 32;
  ck_values_no_window :
    not_null (compressedWindow c) = false ->
    numCompressedSurprisingValues c = numCoupons c;
  ck_values_no_table :
    not_null (compressedSurprisingValues c) = false ->
    not_null (compressedWindow c) = true ->
    numCompressedSurprisingValues c = 0;
  ck_kxp : 0 <= kxp c < 2 ^ 64;
  ck_hip : 0 <= hipEstAccum c < 2 ^ 64;
  ck_hip_initial :
    numCoupons c = 0 -> mergeFlag c = false ->
    kxp c = double_of_int (to_int (Z.shiftl 1 (lgK c))) /\ hipEstAccum c = 0
}.

(** Two compressed states with the same serialized content: every member that
    [serialize] writes is the same in both (the HIP registers of an empty
    state are not written: they are the initial ones). *)
Record same_wire (c1 c2 : FM85) : Prop := {
  sw_lgK : lgK c1 = lgK c2;
  sw_column : firstInterestingColumn c1 = firstInterestingColumn c2;
  sw_merge : mergeFlag c1 = mergeFlag c2;
  sw_coupons : numCoupons c1 = numCoupons c2;
  sw_table : compressedSurprisingValues c1 = compressedSurprisingValues c2;
  sw_window : compressedWindow c1 = compressedWindow c2;
  sw_csv_length : csvLength c1 = csvLength c2;
  sw_cw_length : cwLength c1 = cwLength c2;
  sw_values :
    not_null (compressedSurprisingValues c1) && not_null (compressedWindow c1) = true ->
    numCompressedSurprisingValues c1 = numCompressedSurprisingValues c2;
  sw_hip :
    mergeFlag c1 = false ->
    kxp c1 = kxp c2 /\ hipEstAccum c1 = hipEstAccum c2
}.

(** The members that compression and decompression copy. *)
Record same_counts (s1 s2 : FM85) : Prop := {
  sc_lgK : lgK s1 = lgK s2;
  sc_merge : mergeFlag s1 = mergeFlag s2;
  sc_coupons : numCoupons s1 = numCoupons s2;
  sc_kxp : kxp s1 = kxp s2;
  sc_hip : hipEstAccum s1 = hipEstAccum s2
}.

(** Modelled from the spec: the invariants of a live CPC state (fm85.c is
    missing).  Section 3.1: (a) [numCoupons <= 32 * k]; (c) the population of
    the bit matrix is [numCoupons]; (d) [windowOffset] is determined by
    [(lgK, numCoupons)]; the HIP registers start at [kxp = k] and
    [hipEstAccum = 0] and move only on an accepted update. *)
Record live_ok (s : FM85) : Prop := {
  lv_lgK : 4 <= lgK s <= 26;
  lv_coupons : 0 <= numCoupons s <= 32 * 2 ^ lgK s;
  lv_offset : windowOffset s = determineCorrectOffset (lgK s) (numCoupons s);
  lv_population :
    countBitsSetInMatrix (bitMatrixOfSketch s) (Z.shiftl 1 (lgK s)) = numCoupons s;
  lv_hip_initial :
    numCoupons s = 0 -> mergeFlag s = false ->
    kxp s = double_of_int (to_int (Z.shiftl 1 (lgK s))) /\ hipEstAccum s = 0
}.

(** Modelled from the spec: the contract of [fm85Compress] and
    [fm85Uncompress] (fm85Compression.c is missing) over [sketch_state], the
    states a sketch object holds (made by [fm85Make], moved by [fm85Update],
    or rebuilt by [fm85Uncompress]).  Section 4.1: compression produces the
    compressed form with its counters; decompression is deterministic and
    total, and recompressing a decompressed state gives it back bytewise. *)
Record Fm85Spec := {
  sketch_state : FM85 -> Prop;
  state_live : forall s, sketch_state s -> live_ok s;
  compress_spec :
    forall s, sketch_state s ->
      compressed_ok (fm85Compress s) /\ same_counts s (fm85Compress s);
  uncompress_spec :
    forall s c, sketch_state s ->
      isCompressed c = true ->
      same_wire c (fm85Compress s) ->
      windowOffset c = determineCorrectOffset (lgK c) (numCoupons c) ->
      sketch_state (fm85Uncompress c)
      /\ same_counts c (fm85Uncompress c)
      /\ same_wire (fm85Compress (fm85Uncompress c)) c
}.

End Wrapper.

(** *** A plain core

    An instance of the C core that keeps the table as a list of coupons
    [row * 64 + column] and stores it word by word when it compresses.  It
    runs the wrapper on concrete sketches. *)

Definition plain_compress (s : FM85) : FM85 :=
  let table :=
    if numCoupons s =? 0 then None else Some (array (surprisingValueTable s)) in
  {| lgK := lgK s; isCompressed := true; mergeFlag := mergeFlag s;
     numCoupons := numCoupons s;
     slidingWindow := None; surprisingValueTable := None;
     windowOffset := windowOffset s;
     firstInterestingColumn := firstInterestingColumn s;
     kxp := kxp s; hipEstAccum := hipEstAccum s; hipErrAccum := hipErrAccum s;
     numCompressedSurprisingValues := numCoupons s;
     compressedSurprisingValues := table;
     csvLength := Z.of_nat (length (array table));
     compressedWindow := None; cwLength := 0 |}.

Definition plain_uncompress (c : FM85) : FM85 :=
  {| lgK := lgK c; isCompressed := false; mergeFlag := mergeFlag c;
     numCoupons := numCoupons c;
     slidingWindow := None;
     surprisingValueTable := Some (array (compressedSurprisingValues c));
     windowOffset := windowOffset c;
     firstInterestingColumn := firstInterestingColumn c;
     kxp := kxp c; hipEstAccum := hipEstAccum c; hipErrAccum := 0;
     numCompressedSurprisingValues := 0;
     compressedSurprisingValues := None; csvLength := 0;
     compressedWindow := None; cwLength := 0 |}.

Definition plain_bit_matrix (s : FM85) : list Z :=
  map (fun r =>
         fold_right (fun coupon row =>
                       if coupon / 64 =? Z.of_nat r
                       then Z.lor row (Z.shiftl 1 (coupon mod 64)) else row)
                    0 (array (surprisingValueTable s)))
      (seq 0 (Z.to_nat (2 ^ lgK s))).

Definition plain_core : Fm85Lib := {|
  fm85Compress := plain_compress;
  fm85Uncompress := plain_uncompress;
  determineCorrectOffset := fun _ _ => 0;
  getIconEstimate := fun _ n => double_of_int (to_int n);
  bitMatrixOfSketch := plain_bit_matrix;
  compute_seed_hash := fun sd => sd mod 65521
|}.

(** A sketch of [lgK = 4] before its first update. *)
Definition plain_empty : FM85 :=
  {| lgK := 4; isCompressed := false; mergeFlag := false; numCoupons := 0;
     slidingWindow := None; surprisingValueTable := Some [];
     windowOffset := 0; firstInterestingColumn := 0;
     kxp := double_of_int 16; hipEstAccum := 0; hipErrAccum := 0;
     numCompressedSurprisingValues := 0;
     compressedSurprisingValues := None; csvLength := 0;
     compressedWindow := None; cwLength := 0 |}.

(** The same sketch after one update that drew row 3, column 5:
    [hipEstAccum] is 1.0 and [kxp] is 16 - 2^-6. *)
Definition plain_one : FM85 :=
  {| lgK := 4; isCompressed := false; mergeFlag := false; numCoupons := 1;
     slidingWindow := None; surprisingValueTable := Some [3 * 64 + 5];
     windowOffset := 0; firstInterestingColumn := 5;
     kxp := 1026 * 2 ^ 52 + (2 ^ 52 - 2 ^ 43); hipEstAccum := 1023 * 2 ^ 52;
     hipErrAccum := 0;
     numCompressedSurprisingValues := 0;
     compressedSurprisingValues := None; csvLength := 0;
     compressedWindow := None; cwLength := 0 |}.

Definition plain_sketch : cpc_sketch := {| state := plain_one; seed := 9001 |}.

(** The states that the plain core is run on. *)
Definition plain_states (s : FM85) : Prop := s = plain_empty \/ s = plain_one.

End Cpc.

(** ** HLL register array: HllArray.cpp *)

Module Hll.
Import Bytes.

Local Open Scope float_scope.

(** [(double) i] for an [int] [i]. *)
Definition double_of_int (i : Z) : float :=
  if (i <? 0)%Z then - of_uint63 (Uint63.of_Z (- i)) else of_uint63 (Uint63.of_Z i).

(** C's [fmax]: the other argument when one is a NaN, else the larger. *)
Definition fmax (x y : float) : float :=
  if is_nan x then y
  else if is_nan y then x
  else if x <? y then y else x.

Inductive TgtHllType := HLL_4 | HLL_6 | HLL_8.
Inductive CurMode := LIST | SET | HLL.

(** [HllArray] with the members of [HllSketchImpl].  The register array is
    kept as the list of its slot values: the packed layouts belong to the
    derived classes, which [HllArray] reaches through [getSlot] and
    [putSlot] only. *)
Record HllArray := {
  lgConfigK : Z;
  tgtHllType : TgtHllType;
  curMode : CurMode;
  hipAccum : float;
  kxq0 : float;
  kxq1 : float;
  curMin : Z;
  numAtCurMin : Z;
  oooFlag : bool;
  slots : list Z
}.

(** The tables and helpers that HllArray.cpp takes from HllUtil.hpp,
    RelativeErrorTables.hpp, CompositeInterpolationXTable.hpp,
    CubicInterpolation.hpp and HarmonicNumbers.hpp, and [log] of <cmath>.
    [checkNumStdDev] is [true] where the source's check returns and [false]
    where it throws. *)
Class HllTables := {
  HLL_HIP_RSE_FACTOR : float;
  HLL_NON_HIP_RSE_FACTOR : float;
  checkNumStdDev : Z -> bool;
  getRelErr : bool -> bool -> Z -> Z -> float;
  get_x_arr : Z -> list float;
  get_x_arr_length : Z -> Z;
  get_y_stride : Z -> float;
  usingXArrAndYStride : list float -> Z -> float -> float -> float;
  getBitMapEstimate : Z -> Z -> float;
  log : float -> float
}.

(** The helpers of HllUtil.hpp that the update path calls. *)
Class HllUtil := {
  getLow26 : Z -> Z;
  getValue : Z -> Z;
  invPow2 : Z -> float
}.

(** Modelled from the spec: the coupon helpers of HllUtil.hpp (missing).  A
    coupon is an [int] holding the slot address in its low 26 bits and the
    value above them. *)
Definition coupon_low26 (coupon : Z) : Z := Z.land coupon (2 ^ 26 - 1).
Definition coupon_value (coupon : Z) : Z := Z.shiftr (coupon mod 2 ^ 32) 26.

(** Modelled from the spec: [invPow2] of HllUtil.hpp (missing) is [2^(-e)];
    [kxq0] and [kxq1] are running sums of [2^(-register_value)]. *)
Definition inv_pow2 (e : Z) : float := Z.ldexp one (- e).

(** The helpers to run the update path on. *)
Definition sample_util : HllUtil := {|
  getLow26 := coupon_low26;
  getValue := coupon_value;
  invPow2 := inv_pow2
|}.

(** [1 << n] on [int]. *)
Definition shl1 (n : Z) : Z := to_int (Z.shiftl 1 n).

(** Modelled from the spec: [getSlot] and [putSlot] of the derived classes
    Hll8Array and Hll6Array (missing): one register per slot, read and
    written in place. *)
Definition getSlot (h : HllArray) (slotNo : Z) : Z :=
  default 0%Z (slots h !! Z.to_nat slotNo).

Definition with_slots (h : HllArray) (l : list Z) : HllArray :=
  {| lgConfigK := lgConfigK h; tgtHllType := tgtHllType h; curMode := curMode h;
     hipAccum := hipAccum h; kxq0 := kxq0 h; kxq1 := kxq1 h;
     curMin := curMin h; numAtCurMin := numAtCurMin h; oooFlag := oooFlag h;
     slots := l |}.

Definition putSlot (h : HllArray) (slotNo value : Z) : HllArray :=
  with_slots h (<[Z.to_nat slotNo := value]> (slots h)).

Definition putKxQ0 (h : HllArray) (v : float) : HllArray :=
  {| lgConfigK := lgConfigK h; tgtHllType := tgtHllType h; curMode := curMode h;
     hipAccum := hipAccum h; kxq0 := v; kxq1 := kxq1 h;
     curMin := curMin h; numAtCurMin := numAtCurMin h; oooFlag := oooFlag h;
     slots := slots h |}.

Definition putKxQ1 (h : HllArray) (v : float) : HllArray :=
  {| lgConfigK := lgConfigK h; tgtHllType := tgtHllType h; curMode := curMode h;
     hipAccum := hipAccum h; kxq0 := kxq0 h; kxq1 := v;
     curMin := curMin h; numAtCurMin := numAtCurMin h; oooFlag := oooFlag h;
     slots := slots h |}.

Definition addToHipAccum (h : HllArray) (delta : float) : HllArray :=
  {| lgConfigK := lgConfigK h; tgtHllType := tgtHllType h; curMode := curMode h;
     hipAccum := hipAccum h + delta; kxq0 := kxq0 h; kxq1 := kxq1 h;
     curMin := curMin h; numAtCurMin := numAtCurMin h; oooFlag := oooFlag h;
     slots := slots h |}.

Definition decNumAtCurMin (h : HllArray) : HllArray :=
  {| lgConfigK := lgConfigK h; tgtHllType := tgtHllType h; curMode := curMode h;
     hipAccum := hipAccum h; kxq0 := kxq0 h; kxq1 := kxq1 h;
     curMin := curMin h; numAtCurMin := to_int (numAtCurMin h - 1);
     oooFlag := oooFlag h; slots := slots h |}.

(** [HllArray::HllArray(lgConfigK, tgtHllType)], with the register array that
    the derived class allocates: [2^lgConfigK] slots, all zero. *)
Definition newHll (lgConfigK : Z) (tgtHllType : TgtHllType) : HllArray :=
  {| lgConfigK := lgConfigK; tgtHllType := tgtHllType; curMode := HLL;
     hipAccum := 0; kxq0 := double_of_int (shl1 lgConfigK); kxq1 := 0;
     curMin := 0; numAtCurMin := shl1 lgConfigK; oooFlag := false;
     slots := replicate (Z.to_nat (shl1 lgConfigK)) 0%Z |}.

(** The number of registers that are still 0. *)
Definition zero_slots (l : list Z) : Z :=
  Z.of_nat (length (filter (fun v => v = 0%Z) l)).

(** What the constructor establishes and [couponUpdate] keeps, for HLL_6 and
    HLL_8: [lgConfigK] is in [4, 21], there are [2^lgConfigK] registers, none
    negative, [curMin] stays 0 and [numAtCurMin] counts the zero registers. *)
Record array_ok (h : HllArray) : Prop := {
  ok_lgConfigK : (4 <= lgConfigK h <= 21)%Z;
  ok_length : Z.of_nat (length (slots h)) = (2 ^ lgConfigK h)%Z;
  ok_curMin : curMin h = 0%Z;
  ok_numAtCurMin : numAtCurMin h = zero_slots (slots h);
  ok_values : Forall (fun v => (0 <= v)%Z) (slots h)
}.

(** The [assert]s of [couponUpdate] and [hipAndKxQIncrementalUpdate]. *)
Inductive assertion :=
  | Assert_newVal_positive
  | Assert_newValue_gt_oldValue
  | Assert_numAtCurMin_nonneg.

Inductive outcome (A : Type) :=
  | Done (a : A)
  | Failed (a : assertion).
Global Arguments Done {A} a.
Global Arguments Failed {A} a.

Section Updates.
Context `{HllUtil}.

Definition hipAndKxQIncrementalUpdate (host : HllArray) (oldValue newValue : Z)
  : outcome HllArray :=
  if negb (oldValue <? newValue)%Z then Failed Assert_newValue_gt_oldValue
  else
    let configK := shl1 (lgConfigK host) in
    (* update hipAccum BEFORE updating kxq0 and kxq1 *)
    let kxq0_ := kxq0 host in
    let kxq1_ := kxq1 host in
    let host := addToHipAccum host (double_of_int configK / (kxq0_ + kxq1_)) in
    (* update kxq0 and kxq1; subtract first, then add *)
    let '(host, kxq0_, kxq1_) :=
      if (oldValue <? 32)%Z
      then let k := kxq0_ - invPow2 oldValue in (putKxQ0 host k, k, kxq1_)
      else let k := kxq1_ - invPow2 oldValue in (putKxQ1 host k, kxq0_, k) in
    let host :=
      if (newValue <? 32)%Z
      then putKxQ0 host (kxq0_ + invPow2 newValue)
      else putKxQ1 host (kxq1_ + invPow2 newValue) in
    Done host.

(** [HllArray::couponUpdate], used by HLL_8 and HLL_6. *)
Definition couponUpdate (h : HllArray) (coupon : Z) : outcome HllArray :=
  let configKmask := to_int (shl1 (lgConfigK h) - 1) in
  let slotNo := Z.land (getLow26 coupon) configKmask in
  let newVal := getValue coupon in
  if negb (0 <? newVal)%Z then Failed Assert_newVal_positive
  else
    let curVal := getSlot h slotNo in
    if (curVal <? newVal)%Z then
      let h := putSlot h slotNo newVal in
      match hipAndKxQIncrementalUpdate h curVal newVal with
      | Failed a => Failed a
      | Done h =>
          if (curVal =? 0)%Z then
            let h := decNumAtCurMin h in (* interpret numAtCurMin as num zeros *)
            if negb (0 <=? numAtCurMin h)%Z then Failed Assert_numAtCurMin_nonneg
            else Done h
          else Done h
      end
    else Done h.

(** The slot that a coupon addresses in [couponUpdate]. *)
Definition slot_of (h : HllArray) (coupon : Z) : Z :=
  Z.land (getLow26 coupon) (to_int (shl1 (lgConfigK h) - 1)).


(** A sequence of [couponUpdate] calls; it stops at the first failed assertion. *)
Fixpoint couponUpdates (h : HllArray) (coupons : list Z) : outcome HllArray :=
  match coupons with
  | [] => Done h
  | c :: cs =>
      match couponUpdate h c with
      | Done h' => couponUpdates h' cs
      | Failed a => Failed a
      end
  end.

End Updates.

Definition isEmpty (h : HllArray) : bool :=
  let configK := shl1 (lgConfigK h) in
  (curMin h =? 0)%Z && (numAtCurMin h =? configK)%Z.

Section Estimators.
Context `{HllTables}.

Definition getHllRawEstimate (lgConfigK : Z) (kxqSum : float) : float :=
  let configK := shl1 lgConfigK in
  let correctionFactor :=
    if (lgConfigK =? 4)%Z then 0.673
    else if (lgConfigK =? 5)%Z then 0.697
    else if (lgConfigK =? 6)%Z then 0.709
    else 0.7213 / (1.0 + (1.079 / double_of_int configK)) in
  let hyperEst :=
    (correctionFactor * double_of_int configK * double_of_int configK) / kxqSum in
  hyperEst.

Definition getHllBitMapEstimate (lgConfigK curMin numAtCurMin : Z) : float :=
  let configK := shl1 lgConfigK in
  let numUnhitBuckets := if (curMin =? 0)%Z then numAtCurMin else 0%Z in
  if (numUnhitBuckets =? 0)%Z then
    double_of_int configK * log (double_of_int configK / 0.5)
  else
    let numHitBuckets := to_int (configK - numUnhitBuckets) in
    getBitMapEstimate configK numHitBuckets.

(** [xArr[i]]; an index outside the table is outside the source's contract. *)
Definition at_index (xArr : list float) (i : Z) : float :=
  default nan (xArr !! Z.to_nat i).

Definition crossOver (lgConfigK : Z) : float :=
  if (lgConfigK =? 4)%Z then 0.718
  else if (lgConfigK =? 5)%Z then 0.672
  else 0.64.

Definition getCompositeEstimate (h : HllArray) : float :=
  let rawEst := getHllRawEstimate (lgConfigK h) (kxq0 h + kxq1 h) in
  let xArr := get_x_arr (lgConfigK h) in
  let xArrLen := get_x_arr_length (lgConfigK h) in
  let yStride := get_y_stride (lgConfigK h) in
  if rawEst <? at_index xArr 0 then 0
  else
    let xArrLenM1 := to_int (xArrLen - 1) in
    if at_index xArr xArrLenM1 <? rawEst then
      let finalY := yStride * double_of_int xArrLenM1 in
      let factor := finalY / at_index xArr xArrLenM1 in
      rawEst * factor
    else
      let adjEst := usingXArrAndYStride xArr xArrLen yStride rawEst in
      if double_of_int (to_int (Z.shiftl 3 (lgConfigK h))) <? adjEst then adjEst
      else
        let linEst := getHllBitMapEstimate (lgConfigK h) (curMin h) (numAtCurMin h) in
        let avgEst := (adjEst + linEst) / 2.0 in
        if crossOver (lgConfigK h) * double_of_int (shl1 (lgConfigK h)) <? avgEst
        then adjEst else linEst.

Definition getEstimate (h : HllArray) : float :=
  if oooFlag h then getCompositeEstimate h else hipAccum h.

(** [numNonZeros] of [getLowerBound]. *)
Definition numNonZeros (h : HllArray) : float :=
  let configK := shl1 (lgConfigK h) in
  double_of_int (if (curMin h =? 0)%Z then to_int (configK - numAtCurMin h) else configK).

(** [HllArray::getLowerBound]; [None] where [checkNumStdDev] throws. *)
Definition getLowerBound (h : HllArray) (numStdDev : Z) : option float :=
  if negb (checkNumStdDev numStdDev) then None
  else
    let configK := shl1 (lgConfigK h) in
    let numNonZeros := numNonZeros h in
    let '(estimate, rseFactor) :=
      if oooFlag h then (getCompositeEstimate h, HLL_NON_HIP_RSE_FACTOR)
      else (hipAccum h, HLL_HIP_RSE_FACTOR) in
    let relErr :=
      if (12 <? lgConfigK h)%Z then
        (double_of_int numStdDev * rseFactor) / PrimFloat.sqrt (double_of_int configK)
      else getRelErr false (oooFlag h) (lgConfigK h) numStdDev in
    Some (fmax (estimate / (1.0 + relErr)) numNonZeros).

(** *** The composite estimator as its specification words it

    The raw estimate [alpha_k * k^2 / (kxq0 + kxq1)], interpolated to
    [adjEst] over the x-array; [adjEst] when it exceeds [3 * k]; else
    [adjEst] or the bit-map estimate [linEst], by comparing their mean with
    [crossover * k]. *)

Definition alpha (lgK : Z) : float :=
  if (lgK =? 4)%Z then 0.673
  else if (lgK =? 5)%Z then 0.697
  else if (lgK =? 6)%Z then 0.709
  else 0.7213 / (1 + 1.079 / double_of_int (2 ^ lgK)).

Definition raw_estimate_spec (h : HllArray) : float :=
  let k := double_of_int (2 ^ lgConfigK h) in
  alpha (lgConfigK h) * k * k / (kxq0 h + kxq1 h).

Definition crossover_spec (lgK : Z) : float :=
  if (lgK =? 4)%Z then 0.718 else if (lgK =? 5)%Z then 0.672 else 0.64.

Definition composite_estimate_spec (h : HllArray) : float :=
  let k := (2 ^ lgConfigK h)%Z in
  let adjEst :=
    usingXArrAndYStride (get_x_arr (lgConfigK h)) (get_x_arr_length (lgConfigK h))
                        (get_y_stride (lgConfigK h)) (raw_estimate_spec h) in
  let linEst := getHllBitMapEstimate (lgConfigK h) (curMin h) (numAtCurMin h) in
  if double_of_int (3 * k) <? adjEst then adjEst
  else if crossover_spec (lgConfigK h) * double_of_int k <? (adjEst + linEst) / 2
       then adjEst else linEst.

End Estimators.

(** *** Stand-ins for the tables

    Values to run the estimators on: the two RSE factors are
    [sqrt(ln 2)] and [sqrt(3 ln 2 - 1)]; [numStdDev] is accepted from 1 to 3;
    the x-array has four points, interpolated linearly; the bit-map estimate
    is [k * (H(k) - H(k - hits))] with [H] the harmonic numbers; [log] is a
    series for the natural logarithm.  No proof of a general statement
    depends on them. *)

Fixpoint harmonic (n : nat) : float :=
  match n with
  | O => 0
  | S n' => harmonic n' + 1 / double_of_int (Z.of_nat n)
  end.

(** [ln x = e * ln 2 + 2 * atanh ((m - 1) / (m + 1))] for [x = m * 2^e]. *)
Fixpoint atanh_series (terms : nat) (t2 power : float) (i : Z) : float :=
  match terms with
  | O => 0
  | S terms' =>
      power / double_of_int (2 * i + 1)
      + atanh_series terms' t2 (power * t2) (i + 1)
  end.

Definition natural_log (x : float) : float :=
  let '(m, e) := Z.frexp x in
  let t := (m - 1) / (m + 1) in
  double_of_int e * 0.6931471805599453 + 2 * atanh_series 30 (t * t) t 0.

Fixpoint interpolate (xs : list float) (i : nat) (yStride x : float) : float :=
  match xs with
  | x0 :: ((x1 :: _) as rest) =>
      if x <=? x1
      then yStride * (double_of_int (Z.of_nat i) + (x - x0) / (x1 - x0))
      else interpolate rest (S i) yStride x
  | _ => yStride * double_of_int (Z.of_nat i)
  end.

Definition sample_tables : HllTables := {|
  HLL_HIP_RSE_FACTOR := 0.8325546;
  HLL_NON_HIP_RSE_FACTOR := 1.03896;
  checkNumStdDev := fun n => ((1 <=? n) && (n <=? 3))%Z;
  getRelErr := fun upper ooo lgK n =>
    (if upper then -1 else 1) * double_of_int n
    * (if ooo then 1.03896 else 0.8325546) / PrimFloat.sqrt (double_of_int (shl1 lgK));
  get_x_arr := fun lgK =>
    let k := double_of_int (shl1 lgK) in [0.67 * k; 2 * k; 8 * k; 64 * k];
  get_x_arr_length := fun _ => 4%Z;
  get_y_stride := fun lgK => double_of_int (shl1 lgK);
  usingXArrAndYStride := fun xArr _ yStride x => interpolate xArr 0 yStride x;
  getBitMapEstimate := fun k hits =>
    double_of_int k * (harmonic (Z.to_nat k) - harmonic (Z.to_nat (k - hits)));
  log := natural_log
|}.

(** An array as [newHll(std::istream&)] builds it from a stream that carries
    [lgK = 4], [curMin = 0], [numAtCurMin = 15], [kxq0 = 2^20] and one
    register set: the header members are stored as read. *)
Definition stream_array : HllArray :=
  {| lgConfigK := 4; tgtHllType := HLL_8; curMode := HLL;
     hipAccum := 1; kxq0 := 1048576; kxq1 := 0;
     curMin := 0; numAtCurMin := 15; oooFlag := true;
     slots := <[5%nat := 3%Z]> (replicate 16 0%Z) |}.

(** An array as [newHll(std::istream&)] builds it from a stream that carries
    [lgK = 4], [curMin = 0], [numAtCurMin = 0] and sixteen registers at 0:
    [numAtCurMin] is stored as read, not counted. *)
Definition miscounted_array : HllArray :=
  {| lgConfigK := 4; tgtHllType := HLL_8; curMode := HLL;
     hipAccum := 0; kxq0 := 16; kxq1 := 0;
     curMin := 0; numAtCurMin := 0; oooFlag := false;
     slots := replicate 16 0%Z |}.

(** An HLL_8 array of [lgConfigK = 4] after the coupons (slot 5, value 3) and
    (slot 9, value 7). *)
Definition sample_array : HllArray :=
  match couponUpdates (H := sample_util) (newHll 4 HLL_8)
                      [3 * 2 ^ 26 + 5; 7 * 2 ^ 26 + 9]%Z with
  | Done h => h
  | Failed _ => newHll 4 HLL_8
  end.

End Hll.

(** ** KLL sketch: the merge scenarios of kll_sketch_test.cpp *)

Module Kll.

Definition MIN_K : Z := 8.
Definition MAX_K : Z := 65535.

(** Modelled from the spec: the state of [kll_sketch] that its merge tests
    observe (kll_sketch.hpp is missing): the parameter [k] that the sketch
    reports its rank error for, and the number [n] of items seen. *)
Record kll_sketch := {
  k : Z;
  n : Z
}.

(** Modelled from the spec: the constructor (kll_sketch.hpp is missing)
    accepts [k] in [MIN_K, MAX_K] and makes an empty sketch; test [k_limits]
    has it throw below [MIN_K]. *)
Definition make (k : Z) : option kll_sketch :=
  if (k <? MIN_K) || (MAX_K <? k) then None else Some {| k := k; n := 0 |}.

(** Modelled from the spec: [update] (kll_sketch.hpp is missing) advances [n]. *)
Definition update (s : kll_sketch) : kll_sketch := {| k := k s; n := n s + 1 |}.

Definition updates (s : kll_sketch) (count : nat) : kll_sketch := Nat.iter count update s.

Definition is_empty (s : kll_sketch) : bool := n s =? 0.

(** Modelled from the spec: exact mode is [n <= k], estimation mode [n > k]
    (kll_sketch.hpp is missing). *)
Definition is_estimation_mode (s : kll_sketch) : bool := k s <? n s.

(** Modelled from the spec: [merge] in the specification's words
    (kll_sketch.hpp is missing): the counts add up and the resulting [k]
    equals [min(self.k, other.k)]. *)
Definition merge_min_k (self other : kll_sketch) : kll_sketch :=
  {| k := Z.min (k self) (k other); n := n self + n other |}.

(** Modelled from the spec: [merge] as the tests of kll_sketch_test.cpp have
    it (kll_sketch.hpp is missing).  The counts add up and the resulting [k]
    is the smaller of the two, but [merge_exact_mode_lower_k] fixes when: a
    merge with an empty sketch, or with one in exact mode, leaves the rank
    error as it was; [merge_lower_k] has a merge with a sketch in estimation
    mode take the lower [k]. *)
Definition merge (self other : kll_sketch) : kll_sketch :=
  if is_empty other then self
  else
    {| k := if is_estimation_mode other then Z.min (k self) (k other) else k self;
       n := n self + n other |}.

(** Modelled from the spec: the rank error [c / k], with the constant that
    gives 0.0133 at [k = 200] for ranks; the constant of the PMF error is
    [c_pmf]. *)
Definition normalized_rank_error (c_pmf : Q) (k : Z) (pmf : bool) : Q :=
  (if pmf then c_pmf else 266 # 100) / inject_Z k.

Definition get_normalized_rank_error (c_pmf : Q) (s : kll_sketch) (pmf : bool) : Q :=
  normalized_rank_error c_pmf (k s) pmf.

Section Tests.
(** The tests run a [merge] and read rank errors computed with [c_pmf]. *)
Variable merge : kll_sketch -> kll_sketch -> kll_sketch.
Variable c_pmf : Q.

(** The assertions of [kll_sketch_test::merge_lower_k] on rank errors and
    counts. *)
Definition merge_lower_k : Prop :=
  let sketch1 := {| k := 256; n := 0 |} in
  let sketch2 := {| k := 128; n := 0 |} in
  let count := 10000%nat in
  let sketch1 := updates sketch1 count in
  let sketch2 := updates sketch2 count in
  (get_normalized_rank_error c_pmf sketch1 false
   < get_normalized_rank_error c_pmf sketch2 false)%Q
  /\ (get_normalized_rank_error c_pmf sketch1 true
      < get_normalized_rank_error c_pmf sketch2 true)%Q
  /\ let sketch1 := merge sketch1 sketch2 in
     (* sketch1 must get "contaminated" by the lower K in sketch2 *)
     (get_normalized_rank_error c_pmf sketch1 false
      == get_normalized_rank_error c_pmf sketch2 false)%Q
     /\ (get_normalized_rank_error c_pmf sketch1 true
         == get_normalized_rank_error c_pmf sketch2 true)%Q
     /\ is_empty sketch1 = false
     /\ n sketch1 = 2 * Z.of_nat count.

(** The assertions of [kll_sketch_test::merge_exact_mode_lower_k]. *)
Definition merge_exact_mode_lower_k : Prop :=
  let sketch1 := {| k := 256; n := 0 |} in
  let sketch2 := {| k := 128; n := 0 |} in
  let count := 10000%nat in
  let sketch1 := updates sketch1 count in
  (* rank error should not be affected by a merge with an empty sketch with lower k *)
  let rank_error_before_merge := get_normalized_rank_error c_pmf sketch1 true in
  let sketch1 := merge sketch1 sketch2 in
  (rank_error_before_merge == get_normalized_rank_error c_pmf sketch1 true)%Q
  /\ is_empty sketch1 = false
  /\ n sketch1 = Z.of_nat count
  /\ let sketch2 := update sketch2 in
     let sketch1 := merge sketch1 sketch2 in
     (* rank error should not be affected by a merge with a sketch in exact mode with lower k *)
     (rank_error_before_merge == get_normalized_rank_error c_pmf sketch1 true)%Q.

End Tests.

End Kll.

(** ** Readers that consume a prefix of their input *)

Module Readers.

(** A reader that does not look past what it consumes: on a longer input it
    reads the same and leaves the rest. *)
Definition extends {A} (f : list Z -> option (A * list Z)) : Prop :=
  forall s a r e, f s = Some (a, r) -> f (s ++ e) = Some (a, r ++ e).

End Readers.

(** ** CPC sketch: serialization to memory *)

Module CpcBuffer.
Import Bytes Cpc.

(** The allocation that [fm85alloc(size)] returns: [size] bytes, none of
    them written yet ([None]). *)
Definition buffer := list (option Z).

(** A run of [memcpy]s through [ptr]: from the buffer and the offset of
    [ptr] in it to the buffer and the offset afterwards, or [None] when a
    copy leaves the allocation. *)
Definition writer := buffer * nat -> option (buffer * nat).

(** [ptr += copy_to_mem(ptr, src, size)] *)
Definition copy_to_mem (src : list Z) : writer := fun '(data, ptr) =>
  if decide (ptr + length src <= length data)%nat then
    Some (take ptr data ++ map Some src ++ drop (ptr + length src) data,
          (ptr + length src)%nat)
  else None.

(** One statement after the other, and a statement under [if (b)]. *)
Definition and_then (w1 w2 : writer) : writer := fun st => st' ← w1 st; w2 st'.
Definition when (b : bool) (w : writer) : writer := if b then w else Some.

Infix ">=>" := and_then (at level 61, left associativity).

(** [ptr += copy_hip_to_mem(state, ptr)]: [kxp] at [ptr], [hipEstAccum]
    eight bytes on. *)
Definition copy_hip_to_mem (s : FM85) : writer :=
  copy_to_mem (le_bytes 8 (kxp s)) >=> copy_to_mem (le_bytes 8 (hipEstAccum s)).

(** What [serialize(header_size_bytes)] comes to: the pair it returns, a
    [memcpy] outside the allocation, or the failure of
    [assert(ptr == data_ptr.get() + size)]. *)
Inductive stored :=
  | Stored (data : buffer) (size : Z)
  | Write_past_end
  | Pointer_assertion.

(** A writer that stores [bs] at [ptr], whatever was stored before, when the
    room behind [ptr] is enough. *)
Definition fills (w : writer) (bs : list Z) : Prop :=
  forall pre n, (length bs <= n)%nat ->
    w (pre ++ replicate n None, length pre)
    = Some ((pre ++ map Some bs) ++ replicate (n - length bs) None,
            length (pre ++ map Some bs)).

Section Wrapper.
Context `{Fm85Lib}.

(** [serialize(unsigned header_size_bytes)]: the size of the allocation is
    computed from the counters of the compressed state, the first
    [header_size_bytes] bytes are left to the caller, and the fields follow
    in the order of the stream variant.  The sum and the product are taken
    in [Z]; they are those of the source while they do not wrap. *)
Definition serialize_mem (x : cpc_sketch) (header_size_bytes : Z) : stored :=
  let compressed := fm85Compress (state x) in
  let preamble_ints := get_preamble_ints compressed in
  let size :=
    header_size_bytes
    + (preamble_ints + csvLength compressed + cwLength compressed) * 4 in
  let has_hip := negb (mergeFlag compressed) in
  let has_table := not_null (compressedSurprisingValues compressed) in
  let has_window := not_null (compressedWindow compressed) in
  let flags_byte := flags_byte_of has_hip has_table has_window in
  let writes :=
    copy_to_mem (le_bytes 1 preamble_ints)
    >=> copy_to_mem (le_bytes 1 SERIAL_VERSION)
    >=> copy_to_mem (le_bytes 1 FAMILY)
    >=> copy_to_mem (le_bytes 1 (lgK compressed))
    >=> copy_to_mem (le_bytes 1 (firstInterestingColumn compressed))
    >=> copy_to_mem (le_bytes 1 flags_byte)
    >=> copy_to_mem (le_bytes 2 (compute_seed_hash (seed x)))
    >=> when (negb (is_empty x))
         (copy_to_mem (le_bytes 4 (numCoupons compressed))
          >=> when (has_table && has_window)
               (copy_to_mem (le_bytes 4 (numCompressedSurprisingValues compressed))
                >=> when has_hip (copy_hip_to_mem compressed))
          >=> when has_table (copy_to_mem (le_bytes 4 (csvLength compressed)))
          >=> when has_window (copy_to_mem (le_bytes 4 (cwLength compressed)))
          >=> when (has_hip && negb (has_table && has_window))
               (copy_hip_to_mem compressed)
          >=> when has_window
               (copy_to_mem
                  (write_words (take (Z.to_nat (cwLength compressed))
                                     (array (compressedWindow compressed)))))
          >=> when has_table
               (copy_to_mem
                  (write_words (take (Z.to_nat (csvLength compressed))
                                     (array (compressedSurprisingValues compressed)))))) in
  match writes (replicate (Z.to_nat size) None, Z.to_nat header_size_bytes) with
  | None => Write_past_end
  | Some (data, ptr) =>
      if decide (ptr = Z.to_nat size) then Stored data size else Pointer_assertion
  end.

End Wrapper.

End CpcBuffer.

(** ** HLL register array: the registers across a run of updates *)

Module HllRegisters.
Import Bytes Hll.

(** The members of an array other than the three doubles of the estimator. *)
Definition registers (h : HllArray) :=
  (lgConfigK h, tgtHllType h, curMode h, curMin h, numAtCurMin h, oooFlag h, slots h).

(** The values that a run of coupons carries for the slot [n] of [h]. *)
Definition values_for `{HllUtil} (h : HllArray) (n : nat) (coupons : list Z) : list Z :=
  map getValue (filter (fun c => Z.to_nat (slot_of h c) = n) coupons).

(** The slots that a run of coupons addresses in [h], each listed once. *)
Definition slots_hit `{HllUtil} (h : HllArray) (coupons : list Z) : list nat :=
  remove_dups (map (fun c => Z.to_nat (slot_of h c)) coupons).

End HllRegisters.

(** ** The eight bytes of a [double] *)

Module Binary64.

(** The 64 bits of a [double], as the unsigned integer that its eight bytes
    spell: sign, eleven bits of biased exponent, 52 bits of fraction.  A
    binary64 value of Rocq carries no NaN payload; a NaN is given the bits of
    the quiet NaN [0x7FF8000000000000]. *)
Definition bits_of_double (f : float) : Z :=
  match Prim2SF f with
  | S754_zero s => if s then 2 ^ 63 else 0
  | S754_infinity s => (if s then 2 ^ 63 else 0) + 2047 * 2 ^ 52
  | S754_nan => 2047 * 2 ^ 52 + 2 ^ 51
  | S754_finite s m e =>
      (if s then 2 ^ 63 else 0)
      + (if Z.pos m <? 2 ^ 52 then Z.pos m
         else (e + 1075) * 2 ^ 52 + (Z.pos m - 2 ^ 52))
  end.

(** The [double] that 64 bits spell. *)
Definition double_of_bits (b : Z) : float :=
  let s := 2 ^ 63 <=? b in
  let e := (b / 2 ^ 52) mod 2048 in
  let m := b mod 2 ^ 52 in
  SF2Prim
    (if e =? 0 then
       if m =? 0 then S754_zero s else S754_finite s (Z.to_pos m) (-1074)
     else if e =? 2047 then
       if m =? 0 then S754_infinity s else S754_nan
     else S754_finite s (Z.to_pos (m + 2 ^ 52)) (e - 1075)).

End Binary64.

(** ** The exact value of a [double] *)

Module DoubleValue.

(** The value of a finite binary64 number times [2^1074], an integer since
    no exponent is below -1074; [None] for infinities and NaN. *)
Definition scaled_sf (x : spec_float) : option Z :=
  match x with
  | S754_zero _ => Some 0
  | S754_finite s m e => Some (cond_Zopp s (Z.pos m) * 2 ^ (e + 1074))
  | _ => None
  end.

Definition scaled (f : float) : option Z := scaled_sf (Prim2SF f).

End DoubleValue.

(** ** HllArray: what [kxq0] and [kxq1] sum *)

Module HllSums.
Import Hll DoubleValue.

Definition below_32 (v : Z) : bool := v <? 32.
Definition from_32 (v : Z) : bool := negb (v <? 32).

(** The sum of [2^(63 - v)] over the registers [v] that [keep] selects:
    [2^63] times the sum of their [2^(-v)]. *)
Definition kxq_sum (keep : Z -> bool) (l : list Z) : Z :=
  foldr Z.add 0 (map (fun v => if keep v then 2 ^ (63 - v) else 0) l).

Section Sums.
Context `{HllUtil}.

(** [invPow2(e)] is [2^(-e)], for the values a register can hold. *)
Definition exact_powers : Prop :=
  forall v, 0 <= v <= 63 -> scaled (invPow2 v) = Some (2 ^ (1074 - v)).

(** [kxq0] is the sum of [2^(-v)] over the registers below 32 and [kxq1] the
    sum over the others, both without rounding error. *)
Record kxq_ok (h : HllArray) : Prop := {
  kq_values : Forall (fun v => 0 <= v <= 63) (slots h);
  kq_kxq0 : scaled (kxq0 h) = Some (2 ^ 1011 * kxq_sum below_32 (slots h));
  kq_kxq1 : scaled (kxq1 h) = Some (2 ^ 1011 * kxq_sum from_32 (slots h))
}.

End Sums.

End HllSums.

(** ** HLL register array: the serialized image (HllArray.cpp, HllSketchImpl.cpp) *)

Module HllImage.
Import Bytes Hll Binary64.

(** The conversion to [uint8_t]. *)
Definition uint8 (z : Z) : Z := z mod 2 ^ 8.

(** The constants that the two files take from HllUtil.hpp. *)
Class HllConstants := {
  HLL_PREINTS : Z;
  HASH_SET_PREINTS : Z;
  LIST_PREINTS : Z;
  SER_VER : Z;
  FAMILY_ID : Z;
  EMPTY_FLAG_MASK : Z;
  COMPACT_FLAG_MASK : Z;
  OUT_OF_ORDER_FLAG_MASK : Z;
  HLL_BYTE_ARR_START : Z;
  LG_AUX_ARR_INTS : Z -> Z
}.

(** The packed register array [hllByteArr], which the derived classes
    Hll4Array, Hll6Array and Hll8Array allocate and lay out:
    [getHllByteArrBytes()], the bytes of the array of a sketch, and the
    sketch after [is.read] has filled its array with given bytes. *)
Class HllLayout := {
  getHllByteArrBytes : HllArray -> Z;
  hllByteArr : HllArray -> list Z;
  putHllByteArr : HllArray -> list Z -> HllArray
}.

(** What the two readers throw; [Read_past_end] stands for a stream shorter
    than the reads made of it. *)
Inductive error :=
  | Incorrect_preInts
  | Wrong_ser_ver
  | Not_an_HLL_sketch
  | Invalid_sketch_mode
  | Non_HLL_mode
  | Unknown_object_type
  | Read_past_end.

(** What a reader comes to: the array and the unread rest of the stream; the
    array read so far when an auxiliary map follows ([AuxHashMap::deserialize]
    is not part of the two files); the hand-over to [CouponHashSet::newSet]
    or [CouponList::newList]; or an exception. *)
Inductive reading :=
  | Array_read (sketch : HllArray) (rest : list Z)
  | Aux_map_follows (sketch : HllArray) (auxCount : Z) (rest : list Z)
  | Coupon_set_follows (s : list Z)
  | Coupon_list_follows (s : list Z)
  | Throws (e : error).

(** *** HllSketchImpl.cpp *)

(** [None] where the source throws [std::invalid_argument]. *)
Definition extractTgtHllType (modeByte : Z) : option TgtHllType :=
  match Z.land (Z.shiftr modeByte 2) 3 with
  | 0 => Some HLL_4
  | 1 => Some HLL_6
  | 2 => Some HLL_8
  | _ => None
  end.

Definition extractCurMode (modeByte : Z) : option CurMode :=
  match Z.land modeByte 3 with
  | 0 => Some LIST
  | 1 => Some SET
  | 2 => Some HLL
  | _ => None
  end.

Definition makeModeByte (h : HllArray) : Z :=
  let byte :=
    match curMode h with
    | SET => 1
    | HLL => 2
    | LIST => 0
    end in
  match tgtHllType h with
  | HLL_4 => uint8 (Z.lor byte (Z.shiftl 0 2))
  | HLL_6 => uint8 (Z.lor byte (Z.shiftl 1 2))
  | HLL_8 => uint8 (Z.lor byte (Z.shiftl 2 2))
  end.

Section Image.
Context `{HllConstants} `{HllLayout}.

Definition makeFlagsByte (h : HllArray) (compact : bool) : Z :=
  let flags := 0 in
  let flags := uint8 (Z.lor flags (if isEmpty h then EMPTY_FLAG_MASK else 0)) in
  let flags := uint8 (Z.lor flags (if compact then COMPACT_FLAG_MASK else 0)) in
  let flags := uint8 (Z.lor flags (if oooFlag h then OUT_OF_ORDER_FLAG_MASK else 0)) in
  flags.

(** *** HllArray.cpp *)

Definition hll8ArrBytes (lgConfigK : Z) : Z := shl1 lgConfigK.

Definition getPreInts (h : HllArray) : Z := HLL_PREINTS.

Definition getUpdatableSerializationBytes (h : HllArray) : Z :=
  to_int (HLL_BYTE_ARR_START + getHllByteArrBytes h).

(** [HllArray::serialize] on an array whose [getAuxHashMap()] is the one of
    [HllArray], which returns [nullptr] (the override of Hll4Array is not
    part of the file): [lgArrByte] and [auxCount] are 0, and an updatable
    HLL_4 image ends with [4 << LG_AUX_ARR_INTS[lgConfigK]] zero bytes. *)
Definition serialize (h : HllArray) (compact : bool) : list Z :=
  (* header *)
  le_bytes 1 (getPreInts h)
  ++ le_bytes 1 SER_VER
  ++ le_bytes 1 FAMILY_ID
  ++ le_bytes 1 (lgConfigK h)
  ++ le_bytes 1 0
  ++ le_bytes 1 (makeFlagsByte h compact)
  ++ le_bytes 1 (curMin h)
  ++ le_bytes 1 (makeModeByte h)
  (* estimator data *)
  ++ le_bytes 8 (bits_of_double (hipAccum h))
  ++ le_bytes 8 (bits_of_double (kxq0 h))
  ++ le_bytes 8 (bits_of_double (kxq1 h))
  (* array data *)
  ++ le_bytes 4 (numAtCurMin h)
  ++ le_bytes 4 0
  ++ take (Z.to_nat (getHllByteArrBytes h)) (hllByteArr h)
  (* aux map if HLL_4 *)
  ++ match tgtHllType h with
     | HLL_4 =>
         if negb compact then
           let auxBytes := to_int (Z.shiftl 4 (LG_AUX_ARR_INTS (lgConfigK h))) in
           replicate (Z.to_nat auxBytes) 0
         else []
     | _ => []
     end.

Definition putCurMin (h : HllArray) (v : Z) : HllArray :=
  {| lgConfigK := lgConfigK h; tgtHllType := tgtHllType h; curMode := curMode h;
     hipAccum := hipAccum h; kxq0 := kxq0 h; kxq1 := kxq1 h;
     curMin := v; numAtCurMin := numAtCurMin h; oooFlag := oooFlag h;
     slots := slots h |}.

Definition putNumAtCurMin (h : HllArray) (v : Z) : HllArray :=
  {| lgConfigK := lgConfigK h; tgtHllType := tgtHllType h; curMode := curMode h;
     hipAccum := hipAccum h; kxq0 := kxq0 h; kxq1 := kxq1 h;
     curMin := curMin h; numAtCurMin := v; oooFlag := oooFlag h;
     slots := slots h |}.

Definition putOutOfOrderFlag (h : HllArray) (flag : bool) : HllArray :=
  {| lgConfigK := lgConfigK h; tgtHllType := tgtHllType h; curMode := curMode h;
     hipAccum := hipAccum h; kxq0 := kxq0 h; kxq1 := kxq1 h;
     curMin := curMin h; numAtCurMin := numAtCurMin h; oooFlag := flag;
     slots := slots h |}.

Definition putHipAccum (h : HllArray) (v : float) : HllArray :=
  {| lgConfigK := lgConfigK h; tgtHllType := tgtHllType h; curMode := curMode h;
     hipAccum := v; kxq0 := kxq0 h; kxq1 := kxq1 h;
     curMin := curMin h; numAtCurMin := numAtCurMin h; oooFlag := oooFlag h;
     slots := slots h |}.

(** The reads of [newHll(std::istream&)] after the header checks. *)
Definition read_array_data (sketch : HllArray) (s : list Z) : option (HllArray * Z * list Z) :=
  '(hip, s) ← read_uint 8 s;
  '(kxq0_, s) ← read_uint 8 s;
  '(kxq1_, s) ← read_uint 8 s;
  let sketch := putHipAccum sketch (double_of_bits hip) in
  let sketch := putKxQ0 sketch (double_of_bits kxq0_) in
  let sketch := putKxQ1 sketch (double_of_bits kxq1_) in
  '(numAtCurMin_, s) ← read_uint 4 s;
  '(auxCount, s) ← read_uint 4 s;
  let sketch := putNumAtCurMin sketch (to_int numAtCurMin_) in
  '(bytes, s) ← read (Z.to_nat (getHllByteArrBytes sketch)) s;
  Some (putHllByteArr sketch bytes, to_int auxCount, s).

(** [HllArray::newHll(std::istream&)] *)
Definition newHll_stream (s : list Z) : reading :=
  match read 8 s with
  | None => Throws Read_past_end
  | Some (listHeader, s) =>
      let listHeader_at i := default 0 (listHeader !! i) in
      if negb (listHeader_at 0%nat =? HLL_PREINTS) then Throws Incorrect_preInts
      else if negb (listHeader_at 1%nat =? SER_VER) then Throws Wrong_ser_ver
      else if negb (listHeader_at 2%nat =? FAMILY_ID) then Throws Not_an_HLL_sketch
      else
        match extractCurMode (listHeader_at 7%nat) with
        | None => Throws Invalid_sketch_mode
        | Some HLL =>
            match extractTgtHllType (listHeader_at 7%nat) with
            | None => Throws Invalid_sketch_mode
            | Some tgtHllType =>
                let oooFlag :=
                  negb (Z.land (listHeader_at 5%nat) OUT_OF_ORDER_FLAG_MASK =? 0) in
                let lgK := listHeader_at 3%nat in
                let curMin := listHeader_at 6%nat in
                let sketch := newHll lgK tgtHllType in
                let sketch := putCurMin sketch curMin in
                let sketch := putOutOfOrderFlag sketch oooFlag in
                match read_array_data sketch s with
                | None => Throws Read_past_end
                | Some (sketch, auxCount, s) =>
                    if 0 <? auxCount (* necessarily TgtHllType == HLL_4 *)
                    then Aux_map_follows sketch auxCount s
                    else Array_read sketch s
                end
            end
        | Some _ => Throws Non_HLL_mode
        end
  end.

(** [HllSketchImpl::deserialize]: the hand-over by the first byte, which
    [is.peek()] returns without consuming it, or [EOF] (-1) at the end. *)
Definition deserialize (s : list Z) : reading :=
  let preInts := match s with b :: _ => b | [] => -1 end in
  if preInts =? HLL_PREINTS then newHll_stream s
  else if preInts =? HASH_SET_PREINTS then Coupon_set_follows s
  else if preInts =? LIST_PREINTS then Coupon_list_follows s
  else Throws Unknown_object_type.

(** What the round trip asks of the constants: the three header constants
    are bytes, and the out-of-order mask is a byte that shares no bit with
    the other two masks. *)
Record constants_ok : Prop := {
  co_preInts : 0 <= HLL_PREINTS < 256;
  co_ser_ver : 0 <= SER_VER < 256;
  co_family : 0 <= FAMILY_ID < 256;
  co_ooo : 0 < OUT_OF_ORDER_FLAG_MASK < 256;
  co_empty_ooo : Z.land EMPTY_FLAG_MASK OUT_OF_ORDER_FLAG_MASK = 0;
  co_compact_ooo : Z.land COMPACT_FLAG_MASK OUT_OF_ORDER_FLAG_MASK = 0
}.

(** What it asks of the derived class of [h]: the array has
    [getHllByteArrBytes()] bytes, a number fixed by [lgConfigK] and the
    type, and reading these bytes into the array of a new sketch of the same
    [lgConfigK] and type gives it the registers of [h]. *)
Record layout_ok (h : HllArray) : Prop := {
  lo_length : Z.of_nat (length (hllByteArr h)) = getHllByteArrBytes h;
  lo_size : forall g,
    lgConfigK g = lgConfigK h -> tgtHllType g = tgtHllType h ->
    getHllByteArrBytes g = getHllByteArrBytes h;
  lo_put : forall g,
    lgConfigK g = lgConfigK h -> tgtHllType g = tgtHllType h ->
    putHllByteArr g (hllByteArr h) = with_slots g (slots h)
}.

(** And of the members of [h]: HLL mode, which the constructors set, and
    values that the fields of the image hold. *)
Record members_fit (h : HllArray) : Prop := {
  mf_mode : curMode h = HLL;
  mf_lgConfigK : 0 <= lgConfigK h < 256;
  mf_curMin : 0 <= curMin h < 256;
  mf_numAtCurMin : - 2 ^ 31 <= numAtCurMin h < 2 ^ 31
}.

(** The zero bytes that end an updatable HLL_4 image. *)
Definition aux_padding (h : HllArray) (compact : bool) : list Z :=
  match tgtHllType h with
  | HLL_4 =>
      if negb compact then
        replicate (Z.to_nat (to_int (Z.shiftl 4 (LG_AUX_ARR_INTS (lgConfigK h))))) 0
      else []
  | _ => []
  end.

End Image.

(** *** An instance to run the readers on

    Constants to run the readers with, and the layout of one byte per
    register, [hll8ArrBytes] of them, on which [getSlot] and [putSlot] of the
    model work. *)

Definition sample_constants : HllConstants := {|
  HLL_PREINTS := 10;
  HASH_SET_PREINTS := 3;
  LIST_PREINTS := 2;
  SER_VER := 1;
  FAMILY_ID := 7;
  EMPTY_FLAG_MASK := 4;
  COMPACT_FLAG_MASK := 8;
  OUT_OF_ORDER_FLAG_MASK := 16;
  HLL_BYTE_ARR_START := 40;
  LG_AUX_ARR_INTS := fun lgK => Z.max 2 (lgK - 4)
|}.

Definition byte_layout : HllLayout := {|
  getHllByteArrBytes := fun h => hll8ArrBytes (lgConfigK h);
  hllByteArr := slots;
  putHllByteArr := with_slots
|}.

End HllImage.

(** ** KLL sketch: the string items of kll_sketch_test.cpp *)

Module KllItems.
Import Bytes.

(** A [std::string] is the list of its bytes. *)
Definition item := list Z.

(** What [serialize_items<std::string>] leaves: the bytes it wrote to the
    stream, and whether it returned or threw [std::invalid_argument]
    ("strings must be up to 255 bytes long"). *)
Inductive written :=
  | Returned (os : list Z)
  | Invalid_argument (os : list Z).

(** [serialize_items<std::string>(os, items, num)], on the [num] items of the
    array: one length byte, then the bytes of the string. *)
Fixpoint serialize_items (os : list Z) (items : list item) : written :=
  match items with
  | [] => Returned os
  | item :: items' =>
      if (255 <? Z.of_nat (length item))%Z then Invalid_argument os
      else
        let length_ := le_bytes 1 (Z.of_nat (length item)) in
        serialize_items (os ++ length_ ++ item) items'
  end.

(** [deserialize_items<std::string>(is, items, num)]: a length byte, then
    that many bytes through the 255-byte buffer [str]. *)
Fixpoint deserialize_items (s : list Z) (num : nat) : option (list item * list Z) :=
  match num with
  | O => Some ([], s)
  | S num' =>
      '(length_, s) ← read_uint 1 s;
      '(str, s) ← read (Z.to_nat length_) s;
      '(items, s) ← deserialize_items s num';
      Some (str :: items, s)
  end.

End KllItems.

(** * Properties *)

(** ** Little-endian images *)

Module BytesFacts.
Import Bytes.

Lemma le_bytes_length n v : length (le_bytes n v) = n.
Proof. revert v; induction n as [|n IH]; intros v; simpl; [done|by rewrite IH]. Qed.

Lemma le_value_le_bytes n v : le_value (le_bytes n v) = v mod 256 ^ Z.of_nat n.
Proof.
  revert v; induction n as [|n IH]; intros v.
  - simpl. by rewrite Z.mod_1_r.
  - cbn [le_bytes le_value]. rewrite IH.
    replace (Z.of_nat (S n)) with (1 + Z.of_nat n) by lia.
    rewrite Z.pow_add_r, Z.pow_1_r by lia.
    rewrite (Z.rem_mul_r v 256 (256 ^ Z.of_nat n)) by lia. lia.
Qed.

Lemma read_app bs rest : read (length bs) (bs ++ rest) = Some (bs, rest).
Proof.
  unfold read. rewrite decide_True by (rewrite length_app; lia).
  by rewrite take_app_length, drop_app_length.
Qed.

Lemma read_uint_le_bytes n v rest :
  read_uint n (le_bytes n v ++ rest) = Some (v mod 256 ^ Z.of_nat n, rest).
Proof.
  unfold read_uint.
  rewrite <- (le_bytes_length n v) at 1. rewrite read_app.
  by rewrite le_value_le_bytes.
Qed.

Lemma read_words_write_words ws rest :
  Forall (fun w => 0 <= w < 2 ^ 32) ws ->
  read_words (length ws) (write_words ws ++ rest) = Some (ws, rest).
Proof.
  induction 1 as [|w ws Hw _ IH]; [done|].
  unfold write_words in *. cbn [map concat length read_words].
  rewrite <- app_assoc, read_uint_le_bytes, IH.
  rewrite Z.mod_small; [done|]. change (256 ^ Z.of_nat 4) with (2 ^ 32). lia.
Qed.

End BytesFacts.

(** ** CPC sketch *)

Module CpcFacts.
Import Bytes BytesFacts Cpc.

Lemma flags_roundtrip has_hip has_table has_window :
  let b := flags_byte_of has_hip has_table has_window in
  flag_set b HAS_HIP = has_hip /\
  flag_set b HAS_TABLE = has_table /\
  flag_set b HAS_WINDOW = has_window.
Proof. by destruct has_hip, has_table, has_window. Qed.

Lemma read_uint1_cons b s : read_uint 1 (b :: s) = Some (b, s).
Proof.
  change (b :: s) with ([b] ++ s). unfold read_uint.
  change 1%nat with (length [b]) at 1. rewrite read_app. simpl. f_equal. f_equal. lia.
Qed.

Lemma read_uint2_cons b0 b1 s : read_uint 2 (b0 :: b1 :: s) = Some (b0 + 256 * b1, s).
Proof.
  change (b0 :: b1 :: s) with ([b0; b1] ++ s). unfold read_uint.
  change 2%nat with (length [b0; b1]) at 1. rewrite read_app. simpl. f_equal. f_equal. lia.
Qed.

(** Any eight bytes read as a header. *)
Lemma read_header_bytes p v f l c fl s0 s1 rest :
  read_header (p :: v :: f :: l :: c :: fl :: s0 :: s1 :: rest) =
  Some ({| h_preamble_ints := p; h_serial_version := v; h_family_id := f;
           h_lg_k := l; h_first_interesting_column := c; h_flags_byte := fl;
           h_seed_hash := s0 + 256 * s1 |}, rest).
Proof.
  unfold read_header.
  repeat (rewrite read_uint1_cons; cbn [mbind option_bind]).
  by rewrite read_uint2_cons.
Qed.

(** What the reads leave in [numCompressedSurprisingValues] when the flags
    announce no window. *)
Lemma read_body_values hdr s c rest :
  read_body hdr s = Some (c, rest) ->
  flag_set (h_flags_byte hdr) HAS_WINDOW = false ->
  numCompressedSurprisingValues c = numCoupons c.
Proof.
  unfold read_body. intros Hread Hw. rewrite Hw in Hread.
  destruct (flag_set (h_flags_byte hdr) HAS_TABLE), (flag_set (h_flags_byte hdr) HAS_HIP);
    cbn [orb andb negb] in Hread;
    repeat (match type of Hread with
            | context [mbind _ ?m] =>
                destruct m as [[? ?]|] eqn:?; cbn [mbind option_bind] in Hread; [|done]
            | (let '(_, _) := ?p in _) = _ => destruct p
            end);
    by inversion Hread.
Qed.

Lemma read_hip_write_hip c rest :
  0 <= kxp c < 2 ^ 64 -> 0 <= hipEstAccum c < 2 ^ 64 ->
  read_hip (image (write_hip c) ++ rest) = Some (kxp c, hipEstAccum c, rest).
Proof.
  intros Hk Hh. unfold read_hip, write_hip, image. cbn [map snd concat].
  rewrite <- !app_assoc, read_uint_le_bytes. cbn [mbind option_bind].
  rewrite read_uint_le_bytes. cbn [mbind option_bind app].
  change (256 ^ Z.of_nat 8) with (2 ^ 64). by rewrite !Z.mod_small.
Qed.

Section Framing.
Context `{Fm85Lib}.

Lemma read_body_body_fields hdr c rest :
  compressed_ok c ->
  0 < numCoupons c ->
  h_lg_k hdr = lgK c ->
  h_first_interesting_column hdr = firstInterestingColumn c ->
  flag_set (h_flags_byte hdr) HAS_HIP = negb (mergeFlag c) ->
  flag_set (h_flags_byte hdr) HAS_TABLE = not_null (compressedSurprisingValues c) ->
  flag_set (h_flags_byte hdr) HAS_WINDOW = not_null (compressedWindow c) ->
  exists c',
    read_body hdr (image (body_fields c) ++ rest) = Some (c', rest)
    /\ same_wire c' c /\ isCompressed c' = true.
Proof.
  intros Hok Hpos Hlg Hfic Hhip Htab Hwin.
  destruct Hok. unfold read_body. rewrite Hhip, Htab, Hwin.
  unfold body_fields.
  destruct (mergeFlag c) eqn:Hm, (compressedSurprisingValues c) as [csv|] eqn:Hcsv,
    (compressedWindow c) as [cw|] eqn:Hcw; cbn [not_null negb andb orb array] in *;
    try (apply Z.ltb_lt in Hpos; congruence).
  all: assert (Hm32 : forall v, 0 <= v < 2 ^ 32 -> v mod 256 ^ Z.of_nat 4 = v)
         by (intros v Hv; apply Z.mod_small; change (256 ^ Z.of_nat 4) with (2 ^ 32); lia).
  all: assert (Hm64 : forall v, 0 <= v < 2 ^ 64 -> v mod 256 ^ Z.of_nat 8 = v)
         by (intros v Hv; apply Z.mod_small; change (256 ^ Z.of_nat 8) with (2 ^ 64); lia).
  all: assert (Hnc : numCoupons c < 2 ^ 32)
         by (assert (2 ^ lgK c <= 2 ^ 26) by (apply Z.pow_le_mono_r; lia); lia).
  all: rewrite ?ck_csv_length0, ?ck_cw_length0, ?Nat2Z.id, ?firstn_all.
  all: unfold image, write_hip, read_hip, read_array;
       cbn [app map snd concat fst]; rewrite ?app_nil_r, <- ?app_assoc.
  all: repeat (first [rewrite read_uint_le_bytes | rewrite read_words_write_words by done];
               cbn [mbind option_bind fst snd];
               rewrite ?Hm32, ?Hm64, ?Nat2Z.id by lia).
  all: eexists; split; [reflexivity|]; split; [|done].
  all: constructor; cbn; rewrite ?Hm, ?Hcsv, ?Hcw; try done; try lia.
Qed.

Lemma read_body_no_body hdr rest :
  flag_set (h_flags_byte hdr) HAS_TABLE = false ->
  flag_set (h_flags_byte hdr) HAS_WINDOW = false ->
  read_body hdr rest =
  Some ({| lgK := h_lg_k hdr; isCompressed := true;
           mergeFlag := if flag_set (h_flags_byte hdr) HAS_HIP then false else true;
           numCoupons := 0;
           slidingWindow := None; surprisingValueTable := None;
           windowOffset := 0;
           firstInterestingColumn := h_first_interesting_column hdr;
           kxp := double_of_int (to_int (Z.shiftl 1 (h_lg_k hdr)));
           hipEstAccum := 0; hipErrAccum := 0;
           numCompressedSurprisingValues := 0;
           compressedSurprisingValues := None; csvLength := 0;
           compressedWindow := None; cwLength := 0 |}, rest).
Proof. intros Ht Hw. unfold read_body. by rewrite Ht, Hw. Qed.

Lemma uint8_mod z : uint8 z mod 256 = uint8 z.
Proof. unfold uint8. change (2 ^ 8) with 256. apply Z.mod_mod. lia. Qed.

Lemma image_header_fields c sd : image (header_fields c sd) = header_bytes c sd.
Proof.
  unfold header_fields, header_bytes, image. cbn [map snd concat le_bytes app].
  unfold get_preamble_ints, flags_byte_of. rewrite !uint8_mod. done.
Qed.

Lemma serialize_split x :
  serialize x = header_bytes (fm85Compress (state x)) (seed x) ++ body_bytes x.
Proof.
  unfold serialize, serialize_fields, body_bytes, image.
  rewrite map_app, concat_app. f_equal. apply image_header_fields.
Qed.

(** Reading an image back, whatever stands in the four checked header
    fields: the compressed state read has the content of the one written. *)
Lemma read_compressed_image x p v f s0 s1 rest :
  let c := fm85Compress (state x) in
  compressed_ok c ->
  numCoupons c = numCoupons (state x) ->
  exists c',
    read_compressed
      (p :: v :: f :: lgK c mod 256 :: firstInterestingColumn c mod 256
         :: flags_byte_of (negb (mergeFlag c)) (not_null (compressedSurprisingValues c))
                          (not_null (compressedWindow c))
         :: s0 :: s1 :: body_bytes x ++ rest)
    = Some ({| h_preamble_ints := p; h_serial_version := v; h_family_id := f;
               h_lg_k := lgK c mod 256;
               h_first_interesting_column := firstInterestingColumn c mod 256;
               h_flags_byte :=
                 flags_byte_of (negb (mergeFlag c))
                               (not_null (compressedSurprisingValues c))
                               (not_null (compressedWindow c));
               h_seed_hash := s0 + 256 * s1 |}, c', rest)
    /\ same_wire c' c /\ isCompressed c' = true.
Proof.
  intros c Hok Hnc. unfold read_compressed. rewrite read_header_bytes.
  cbn [mbind option_bind].
  set (hdr := Build_header _ _ _ _ _ _ _).
  destruct (flags_roundtrip (negb (mergeFlag c)) (not_null (compressedSurprisingValues c))
              (not_null (compressedWindow c))) as (Hh & Ht & Hw).
  cbv zeta in Hh, Ht, Hw.
  assert (Hlg : h_lg_k hdr = lgK c)
    by (destruct Hok; cbn; apply Z.mod_small; lia).
  assert (Hfic : h_first_interesting_column hdr = firstInterestingColumn c)
    by (destruct Hok; cbn; apply Z.mod_small; lia).
  unfold body_bytes, is_empty. rewrite <- Hnc. fold c.
  destruct (numCoupons c =? 0) eqn:Hz; cbn [negb].
  - apply Z.eqb_eq in Hz.
    assert (Hb := ck_body _ Hok). fold c in Hb. rewrite Hz in Hb. cbn in Hb.
    symmetry in Hb. apply orb_false_elim in Hb as [Hb1 Hb2].
    rewrite read_body_no_body by (cbn [h_flags_byte hdr]; congruence).
    cbn [mbind option_bind image map concat app].
    eexists; split; [reflexivity|]. split; [|done].
    assert (Hi := ck_hip_initial _ Hok Hz). fold c in Hi.
    assert (Hl1 := ck_csv_length _ Hok). assert (Hl2 := ck_cw_length _ Hok).
    fold c in Hl1, Hl2.
    destruct (compressedSurprisingValues c) eqn:E1; [done|].
    destruct (compressedWindow c) eqn:E2; [done|].
    constructor; cbn [lgK firstInterestingColumn mergeFlag numCoupons
      compressedSurprisingValues compressedWindow csvLength cwLength
      numCompressedSurprisingValues kxp hipEstAccum not_null andb];
      rewrite ?Hlg, ?Hfic, ?Hh, ?E1, ?E2; try done.
    + by destruct (mergeFlag c).
    + destruct (mergeFlag c); [done|]. intros _.
      destruct Hi as [-> ->]; done.
  - apply Z.eqb_neq in Hz.
    assert (Hpos : 0 < numCoupons c) by (destruct Hok; lia).
    destruct (read_body_body_fields hdr c rest Hok Hpos Hlg Hfic Hh Ht Hw)
      as (c' & Hr & Hsw & Hic).
    rewrite Hr. cbn [mbind option_bind]. eauto.
Qed.

Lemma seed_hash_bytes sh : sh mod 256 + 256 * (sh / 256 mod 256) = uint16 sh.
Proof.
  unfold uint16. change (2 ^ 16) with (256 * 256).
  rewrite (Z.rem_mul_r sh 256 256) by lia. done.
Qed.

Lemma same_wire_preamble_ints c1 c2 w :
  same_wire c1 c2 ->
  get_preamble_ints (with_windowOffset c1 w) = get_preamble_ints c2.
Proof.
  intros []. unfold get_preamble_ints, with_windowOffset. cbn.
  by rewrite sw_merge0, sw_coupons0, sw_table0, sw_window0.
Qed.

Lemma same_wire_window_offset c1 c2 w :
  same_wire c1 c2 -> same_wire (with_windowOffset c1 w) c2.
Proof. intros []. by constructor. Qed.

Lemma same_wire_trans c1 c2 c3 : same_wire c1 c2 -> same_wire c2 c3 -> same_wire c1 c3.
Proof.
  intros [] []. constructor; try congruence.
  - intros Hb. rewrite sw_values0 by done. apply sw_values1. congruence.
  - intros Hm. destruct (sw_hip0 Hm) as [-> ->]. apply sw_hip1. congruence.
Qed.

(** States with the same serialized content have the same fields. *)
Lemma same_wire_fields c1 c2 sd :
  same_wire c1 c2 ->
  header_fields c1 sd = header_fields c2 sd /\ body_fields c1 = body_fields c2.
Proof.
  intros []. split.
  - unfold header_fields, get_preamble_ints.
    by rewrite sw_lgK0, sw_column0, sw_merge0, sw_coupons0, sw_table0, sw_window0.
  - unfold body_fields, write_hip.
    rewrite <- sw_coupons0, <- sw_csv_length0, <- sw_cw_length0,
      <- sw_table0, <- sw_window0, <- sw_merge0.
    destruct (not_null (compressedSurprisingValues c1) && not_null (compressedWindow c1))
      eqn:Hb; [rewrite (sw_values0 eq_refl)|];
      (destruct (mergeFlag c1) eqn:Hm; [|destruct (sw_hip0 eq_refl) as [-> ->]]);
      reflexivity.
Qed.

(** The four header checks pass on what [serialize] wrote. *)
Lemma check_and_uncompress_ok hdr c' c sd :
  same_wire c' c ->
  h_preamble_ints hdr = get_preamble_ints c ->
  h_serial_version hdr = SERIAL_VERSION ->
  h_family_id hdr = FAMILY ->
  h_seed_hash hdr = uint16 (compute_seed_hash sd) ->
  check_and_uncompress hdr c' sd =
  Ok {| state := fm85Uncompress
                   (with_windowOffset c' (determineCorrectOffset (lgK c') (numCoupons c')));
        seed := sd |}.
Proof.
  intros Hsw Hp Hv Hf Hs. unfold check_and_uncompress.
  rewrite (same_wire_preamble_ints _ _ _ Hsw), Hp, Hv, Hf, Hs.
  by rewrite !Z.eqb_refl.
Qed.

End Framing.

(** *** Round trip *)

Section RoundTrip.
Context `{Fm85Lib} (S : Fm85Spec).

(** What [deserialize] makes of a serialized sketch: the decompression of a
    compressed state with the content of the one [serialize] wrote. *)
Lemma deserialize_serialize_state x :
  sketch_state S (state x) ->
  exists c',
    deserialize (serialize x) (seed x) = Ok {| state := fm85Uncompress c'; seed := seed x |}
    /\ deserialize_mem (serialize x) (seed x) =
       Ok {| state := fm85Uncompress c'; seed := seed x |}
    /\ isCompressed c' = true
    /\ same_wire c' (fm85Compress (state x))
    /\ windowOffset c' = determineCorrectOffset (lgK c') (numCoupons c').
Proof.
  intros Hx. destruct (compress_spec S _ Hx) as [Hok Hsc].
  set (c := fm85Compress (state x)) in *.
  destruct (read_compressed_image x (get_preamble_ints c) SERIAL_VERSION FAMILY
              (compute_seed_hash (seed x) mod 256)
              (compute_seed_hash (seed x) / 256 mod 256) [] Hok)
    as (c' & Hr & Hsw & Hic); [symmetry; apply Hsc|].
  fold c in Hr, Hsw. rewrite app_nil_r in Hr.
  exists (with_windowOffset c' (determineCorrectOffset (lgK c') (numCoupons c'))).
  unfold deserialize, deserialize_mem. rewrite serialize_split.
  unfold header_bytes. cbn [app]. fold c. rewrite Hr.
  rewrite (check_and_uncompress_ok _ c' c (seed x)); try done.
  - split; [done|]. split; [done|]. split; [done|].
    split; [by apply same_wire_window_offset|done].
  - apply seed_hash_bytes.
Qed.


End RoundTrip.

(** *** The plain core meets the contract *)

Lemma plain_states_live s : plain_states s -> live_ok (H := plain_core) s.
Proof. intros [-> | ->]; by constructor. Qed.

Lemma plain_compress_spec s :
  plain_states s ->
  compressed_ok (fm85Compress (Fm85Lib := plain_core) s)
  /\ same_counts s (fm85Compress (Fm85Lib := plain_core) s).
Proof.
  intros [-> | ->]; (split; [|by constructor]).
  - constructor; cbn; try done; try lia.
  - constructor; cbn; try done; try lia.
    all: repeat constructor; lia.
Qed.

Lemma plain_uncompress_spec s c :
  plain_states s ->
  isCompressed c = true ->
  same_wire c (fm85Compress (Fm85Lib := plain_core) s) ->
  windowOffset c = determineCorrectOffset (Fm85Lib := plain_core) (lgK c) (numCoupons c) ->
  plain_states (fm85Uncompress (Fm85Lib := plain_core) c)
  /\ same_counts c (fm85Uncompress (Fm85Lib := plain_core) c)
  /\ same_wire (fm85Compress (Fm85Lib := plain_core) (fm85Uncompress (Fm85Lib := plain_core) c)) c.
Proof.
  intros Hs Hic [] Hoff. destruct c. cbn in *.
  destruct (sw_hip0 ltac:(by destruct Hs as [-> | ->])) as [Hk Hh].
  destruct Hs as [-> | ->]; cbn in *; subst.
  - split; [by left|]. split; by constructor.
  - split; [by right|]. split; by constructor.
Qed.

Definition plain_spec : @Fm85Spec plain_core := {|
  sketch_state := plain_states;
  state_live := plain_states_live;
  compress_spec := plain_compress_spec;
  uncompress_spec := plain_uncompress_spec
|}.

(** *** The layout of an image *)

Lemma split_cons {A} (h : A) t pre e post :
  h :: t = pre ++ e :: post ->
  (pre = [] /\ h = e /\ t = post) \/ (exists pre', pre = h :: pre' /\ t = pre' ++ e :: post).
Proof.
  destruct pre as [|a pre]; cbn [app]; intros Heq; injection Heq as -> ->; eauto.
Qed.

(** Walk an equation [h1 :: h2 :: ... = pre ++ e :: post] along its left side. *)
Ltac walk_fields H He :=
  repeat (apply split_cons in H as [(-> & He & <-) | (? & -> & H)];
          [try discriminate He|]);
  try (match type of H with [] = ?p ++ _ :: _ => by destruct p end).

Lemma body_fields_unchecked c :
  Forall (fun e => checked_field (fst e) = false) (body_fields c).
Proof.
  unfold body_fields, write_hip.
  destruct (mergeFlag c), (not_null (compressedSurprisingValues c)),
    (not_null (compressedWindow c)); cbn [negb andb app]; by repeat constructor.
Qed.

Lemma image_cons f bs fs : image ((f, bs) :: fs) = bs ++ image fs.
Proof. reflexivity. Qed.

Lemma flags_byte_mod h t w : flags_byte_of h t w mod 256 = flags_byte_of h t w.
Proof. apply uint8_mod. Qed.

Section Layout.
Context `{Fm85Lib}.

(** C3.  In the image of a sketch the HIP registers start at a multiple of 8
    bytes: [kxp] at byte 16 and [hipEstAccum] at byte 24, whether they are
    written at the first decision point (table and window) or at the second. *)
Theorem hip_fields_are_aligned x pre f bytes post :
  compressed_ok (fm85Compress (state x)) ->
  numCoupons (fm85Compress (state x)) = numCoupons (state x) ->
  serialize_fields x = pre ++ (f, bytes) :: post ->
  hip_field f = true ->
  (8 | Z.of_nat (length (image pre)))
  /\ length (image pre) = (if decide (f = F_kxp) then 16 else 24)%nat
  /\ length bytes = 8%nat.
Proof.
  intros Hok Hnc Hs Hf. unfold serialize_fields, header_fields in Hs.
  cbn [app] in Hs.
  assert (Hne : forall g bs, hip_field f = true -> (g, bs) = (f, bytes) -> hip_field g = true)
    by (intros g bs Hg [= -> _]; exact Hg).
  walk_fields Hs He; try (by specialize (Hne _ _ Hf He)).
  unfold is_empty in Hs. rewrite <- Hnc in Hs.
  set (c := fm85Compress (state x)) in *.
  destruct (numCoupons c =? 0) eqn:Hz; cbn [negb] in Hs;
    [match type of Hs with [] = ?p ++ _ :: _ => by destruct p end|].
  apply Z.eqb_neq in Hz.
  assert (Hb := ck_body _ Hok).
  assert (Hpos : (0 <? numCoupons c) = true) by (destruct Hok; apply Z.ltb_lt; lia).
  rewrite Hpos in Hb.
  unfold body_fields, write_hip in Hs.
  destruct (mergeFlag c), (not_null (compressedSurprisingValues c)),
    (not_null (compressedWindow c)); try discriminate Hb;
    cbn [negb andb app] in Hs;
    walk_fields Hs He; try (by specialize (Hne _ _ Hf He)).
  all: injection He as <- <-.
  all: unfold image; cbn [map snd concat];
       rewrite ?length_app, ?le_bytes_length; cbn [length Nat.add].
  all: split; [first [by exists 2 | by exists 3]|]; split; [by case_decide|reflexivity].
Qed.

(** The checks of [deserialize] on a header whose four checked fields may
    have been overwritten. *)
Lemma deserialize_overwritten_header x p v f s0 s1 :
  let c := fm85Compress (state x) in
  compressed_ok c ->
  numCoupons c = numCoupons (state x) ->
  p <> get_preamble_ints c \/ v <> SERIAL_VERSION \/ f <> FAMILY
  \/ s0 + 256 * s1 <> uint16 (compute_seed_hash (seed x)) ->
  let s' := p :: v :: f :: lgK c mod 256 :: firstInterestingColumn c mod 256
              :: flags_byte_of (negb (mergeFlag c))
                               (not_null (compressedSurprisingValues c))
                               (not_null (compressedWindow c))
              :: s0 :: s1 :: body_bytes x in
  exists e,
    deserialize s' (seed x) = Err e
    /\ deserialize_mem s' (seed x) = Err e
    /\ is_corruption e = true.
Proof.
  intros c Hok Hnc Hbad s'.
  destruct (read_compressed_image x p v f s0 s1 [] Hok Hnc) as (c' & Hr & Hsw & _).
  fold c in Hr, Hsw. rewrite app_nil_r in Hr. fold s' in Hr.
  unfold deserialize, deserialize_mem. rewrite Hr.
  unfold check_and_uncompress. rewrite (same_wire_preamble_ints _ _ _ Hsw).
  cbn [h_preamble_ints h_serial_version h_family_id h_seed_hash].
  destruct (p =? get_preamble_ints c) eqn:Ep; cbn [negb]; [|eauto].
  destruct (v =? SERIAL_VERSION) eqn:Ev; cbn [negb]; [|eauto].
  destruct (f =? FAMILY) eqn:Ef; cbn [negb]; [|eauto].
  destruct (s0 + 256 * s1 =? uint16 (compute_seed_hash (seed x))) eqn:Es;
    cbn [negb]; [|eauto].
  apply Z.eqb_eq in Ep, Ev, Ef, Es. tauto.
Qed.

(** C2.  Overwriting one byte of the preamble-ints, serial-version, family or
    seed-hash field of an image with a different byte makes both variants of
    [deserialize], called with the seed of the sketch, throw one of the
    header-check errors. *)
Theorem corrupted_header_is_rejected x pre f bytes post i b :
  compressed_ok (fm85Compress (state x)) ->
  numCoupons (fm85Compress (state x)) = numCoupons (state x) ->
  serialize_fields x = pre ++ (f, bytes) :: post ->
  checked_field f = true ->
  (i < length bytes)%nat ->
  0 <= b < 256 ->
  bytes !! i <> Some b ->
  let s' := image pre ++ <[i := b]> bytes ++ image post in
  exists e,
    deserialize s' (seed x) = Err e
    /\ deserialize_mem s' (seed x) = Err e
    /\ is_corruption e = true.
Proof.
  intros Hok Hnc Hs Hf Hi Hb Hne s'. subst s'.
  unfold serialize_fields, header_fields in Hs. cbn [app] in Hs.
  set (c := fm85Compress (state x)) in *.
  assert (Hck : forall g bs, (g, bs) = (f, bytes) -> checked_field g = true)
    by (intros g bs [= -> _]; exact Hf).
  walk_fields Hs He; try (by specialize (Hck _ _ He)).
  5: { pose proof (body_fields_unchecked c) as Hall.
       destruct (negb (is_empty x)); [|by destruct x0].
       rewrite Hs in Hall. apply Forall_app in Hall as [_ Hall].
       apply Forall_cons in Hall as [Hall _]. cbn in Hall. congruence. }
  all: injection He as <- <-.
  all: rewrite ?image_cons, ?app_nil_l; cbn [image map concat app le_bytes] in *.
  all: rewrite flags_byte_mod.
  all: destruct i as [|[|i]]; cbn [length] in Hi; try lia;
       cbn [insert list_insert app]; cbn [lookup list_lookup] in Hne.
  all: assert (Hp : get_preamble_ints c mod 256 = get_preamble_ints c)
         by apply uint8_mod.
  all: apply (deserialize_overwritten_header x _ _ _ _ _ Hok Hnc).
  - left. fold c. congruence.
  - right; left. change (SERIAL_VERSION mod 256) with SERIAL_VERSION in Hne. congruence.
  - right; right; left. change (FAMILY mod 256) with FAMILY in Hne. congruence.
  - right; right; right. rewrite <- seed_hash_bytes.
    assert (b <> compute_seed_hash (seed x) mod 256) by congruence. lia.
  - right; right; right. rewrite <- seed_hash_bytes.
    assert (b <> compute_seed_hash (seed x) / 256 mod 256) by congruence. lia.
Qed.

End Layout.

(** *** The estimate *)

(** C6.  [get_estimate] is the HIP estimate while [mergeFlag] is off and the
    ICON estimate once it is on; the latter is the same for any two sketches
    with the same [lgK] and [numCoupons]. *)
Theorem get_estimate_by_merge_flag `{Fm85Lib} (x : cpc_sketch) :
  (mergeFlag (state x) = false -> get_estimate x = getHIPEstimate (state x))
  /\ (mergeFlag (state x) = true ->
      get_estimate x = getIconEstimate (lgK (state x)) (numCoupons (state x))
      /\ forall y, mergeFlag (state y) = true ->
                   lgK (state y) = lgK (state x) ->
                   numCoupons (state y) = numCoupons (state x) ->
                   get_estimate y = get_estimate x).
Proof.
  unfold get_estimate. split; intros Hm; rewrite Hm; cbn [negb]; [done|].
  split; [done|]. intros y Hy Hl Hn. by rewrite Hy, Hl, Hn.
Qed.

(** *** What deserialization reads *)

Section Reading.
Context `{Fm85Lib}.

(** What the reads leave of the arrays when the flags announce a table and
    no window. *)
Lemma read_body_table hdr s c rest :
  read_body hdr s = Some (c, rest) ->
  flag_set (h_flags_byte hdr) HAS_TABLE = true ->
  flag_set (h_flags_byte hdr) HAS_WINDOW = false ->
  not_null (compressedSurprisingValues c) = true
  /\ compressedWindow c = None.
Proof.
  unfold read_body. intros Hread Ht Hw. rewrite Ht, Hw in Hread.
  unfold read_array in Hread.
  destruct (flag_set (h_flags_byte hdr) HAS_HIP);
    cbn [orb andb negb] in Hread;
    repeat (match type of Hread with
            | context [mbind _ ?m] =>
                destruct m as [[? ?]|] eqn:?; cbn [mbind option_bind] in Hread; [|done]
            | (let '(_, _) := ?p in _) = _ => destruct p
            end);
    injection Hread as <- <-; cbn [compressedSurprisingValues compressedWindow];
    (split; [|done]);
    match goal with
    | E : mbind _ (read_words ?n ?l) = Some (_, _) |- _ =>
        destruct (read_words n l) as [[? ?]|]; [|done];
        cbn [mbind option_bind] in E; by injection E as <- _
    end.
Qed.


End Reading.

Lemma get_estimate_by_merge_flag_witness :
  mergeFlag (state plain_sketch) = false
  /\ get_estimate (H := plain_core) plain_sketch = getHIPEstimate (state plain_sketch).
Proof.
  split; [reflexivity|].
  exact (proj1 (get_estimate_by_merge_flag (H := plain_core) plain_sketch) eq_refl).
Defined.



Lemma plain_sketch_compressed_ok :
  compressed_ok (fm85Compress (Fm85Lib := plain_core) (state plain_sketch)).
Proof. apply plain_compress_spec. by right. Qed.

Lemma hip_fields_are_aligned_witness :
  let fs := serialize_fields (H := plain_core) plain_sketch in
  fs = take 9 fs ++ (F_kxp, [0; 0; 0; 0; 0; 248; 47; 64]) :: drop 10 fs
  /\ hip_field F_kxp = true
  /\ (8 | Z.of_nat (length (image (take 9 fs))))
  /\ length (image (take 9 fs)) = 16%nat.
Proof.
  intros fs.
  assert (Hs : fs = take 9 fs ++ (F_kxp, [0; 0; 0; 0; 0; 248; 47; 64]) :: drop 10 fs)
    by (vm_compute; reflexivity).
  split; [exact Hs|]. split; [reflexivity|].
  destruct (hip_fields_are_aligned (H := plain_core) plain_sketch _ _ _ _
              plain_sketch_compressed_ok eq_refl Hs eq_refl) as (Hd & Hl & _).
  split; [exact Hd|exact Hl].
Defined.

Lemma corrupted_header_is_rejected_witness :
  let fs := serialize_fields (H := plain_core) plain_sketch in
  fs = take 6 fs ++ (F_seed_hash, [41; 35]) :: drop 7 fs
  /\ checked_field F_seed_hash = true
  /\ exists e,
       deserialize (H := plain_core)
         (image (take 6 fs) ++ <[1%nat := 36]> [41; 35] ++ image (drop 7 fs))
         (seed plain_sketch) = Err e
       /\ is_corruption e = true.
Proof.
  intros fs.
  assert (Hs : fs = take 6 fs ++ (F_seed_hash, [41; 35]) :: drop 7 fs)
    by (vm_compute; reflexivity).
  split; [exact Hs|]. split; [reflexivity|].
  destruct (corrupted_header_is_rejected (H := plain_core) plain_sketch _ _ _ _ 1%nat 36
              plain_sketch_compressed_ok eq_refl Hs eq_refl
              ltac:(cbn; lia) ltac:(lia) ltac:(cbn; congruence))
    as (e & He & _ & Hc).
  exists e. split; [exact He|exact Hc].
Defined.


End CpcFacts.

(** ** Binary64 comparisons *)

Module FloatFacts.
Import Hll.

Lemma shr_1_nonneg mrs : 0 <= shr_m mrs -> 0 <= shr_m (shr_1 mrs).
Proof. destruct mrs as [[|[p|p|]|[p|p|]] r s]; cbn; lia. Qed.

Lemma iter_shr_1_nonneg p mrs : 0 <= shr_m mrs -> 0 <= shr_m (SpecFloat.iter_pos shr_1 p mrs).
Proof.
  revert mrs. induction p as [p IH|p IH|]; intros mrs Hm; cbn [SpecFloat.iter_pos].
  - apply IH, IH. by apply shr_1_nonneg.
  - by apply IH, IH.
  - by apply shr_1_nonneg.
Qed.

Lemma shr_fexp_nonneg m e l : 0 <= m -> 0 <= shr_m (fst (shr_fexp prec emax m e l)).
Proof.
  intros Hm. unfold shr_fexp, shr.
  assert (H0 : 0 <= shr_m (shr_record_of_loc m l)) by (by destruct l as [|[]]).
  destruct (fexp prec emax (Zdigits2 m + e) - e)%Z; cbn [fst]; try done.
  by apply iter_shr_1_nonneg.
Qed.

Lemma round_nearest_even_nonneg m l : 0 <= m -> 0 <= round_nearest_even m l.
Proof.
  intros Hm. unfold round_nearest_even.
  destruct l as [|[]]; try done; [destruct (Z.even m)|]; lia.
Qed.

Lemma binary_round_aux_not_nan s m e l :
  0 <= m -> binary_round_aux prec emax s m e l <> S754_nan.
Proof.
  intros Hm. unfold binary_round_aux.
  pose proof (shr_fexp_nonneg m e l Hm) as H1.
  destruct (shr_fexp prec emax m e l) as [mrs' e'] eqn:E1. cbn [fst] in H1.
  pose proof (shr_fexp_nonneg _ e' loc_Exact
                (round_nearest_even_nonneg _ (loc_of_shr_record mrs') H1)) as H2.
  destruct (shr_fexp prec emax _ e' loc_Exact) as [mrs'' e''] eqn:E2. cbn [fst] in H2.
  destruct (shr_m mrs'') as [|p|p]; [done| |lia].
  by destruct (e'' <=? emax - prec)%Z.
Qed.

Lemma binary_normalize_not_nan m e s : binary_normalize prec emax m e s <> S754_nan.
Proof.
  unfold binary_normalize, binary_round.
  destruct m as [|p|p]; [done| |];
    destruct (shl_align _ _ _) as [mz ez]; by apply binary_round_aux_not_nan.
Qed.

(** An [int] converts to a number. *)
Lemma double_of_int_not_nan i : Prim2SF (double_of_int i) <> S754_nan.
Proof.
  unfold double_of_int. destruct (i <? 0)%Z.
  - rewrite FloatAxioms.opp_spec, FloatAxioms.of_uint63_spec.
    pose proof (binary_normalize_not_nan (to_Z (of_Z (- i))) 0 false) as Hn.
    by destruct (binary_normalize _ _ _ _ _).
  - rewrite FloatAxioms.of_uint63_spec. apply binary_normalize_not_nan.
Qed.

Lemma SFcompare_refl x : x <> S754_nan -> SFcompare x x = Some Eq.
Proof.
  destruct x as [s|s| |s m e]; intros Hx; try done; cbn.
  - by destruct s.
  - rewrite Z.compare_refl, Pos.compare_cont_refl. by destruct s.
Qed.

Lemma SFcompare_antisym x y :
  SFcompare y x = option_map CompOpp (SFcompare x y).
Proof.
  destruct x as [sx|sx| |sx mx ex], y as [sy|sy| |sy my ey]; cbn;
    try (by repeat match goal with s : bool |- _ => destruct s end).
  destruct sx, sy; try done; f_equal;
    rewrite (Z.compare_antisym ex ey); destruct (ex ?= ey)%Z; cbn; try done;
    rewrite !Pos.compare_cont_antisym; done.
Qed.

Lemma is_nan_Prim2SF x : is_nan x = true <-> Prim2SF x = S754_nan.
Proof.
  unfold is_nan. rewrite FloatAxioms.eqb_spec. unfold SFeqb. split.
  - intros Hn. destruct (Prim2SF x) eqn:E; try done;
      rewrite SFcompare_refl in Hn by done; done.
  - by intros ->.
Qed.

(** [fmax] is not below an argument that is a number. *)
Lemma fmax_ge_r x y : Prim2SF y <> S754_nan -> (y <=? fmax x y)%float = true.
Proof.
  intros Hy.
  assert (Hyy : (y <=? y)%float = true)
    by (rewrite FloatAxioms.leb_spec; unfold SFleb; by rewrite SFcompare_refl).
  unfold fmax.
  destruct (is_nan x) eqn:Hx; [done|].
  destruct (is_nan y) eqn:Hy'; [by apply is_nan_Prim2SF in Hy'|].
  destruct (x <? y)%float eqn:Hlt; [done|].
  rewrite FloatAxioms.ltb_spec in Hlt. rewrite FloatAxioms.leb_spec. unfold SFltb, SFleb in *.
  rewrite SFcompare_antisym.
  assert (Hx' : Prim2SF x <> S754_nan)
    by (intros E; apply is_nan_Prim2SF in E; congruence).
  destruct (Prim2SF x) as [sx|sx| |sx mx ex], (Prim2SF y) as [sy|sy| |sy my ey];
    try done; cbn in *;
    repeat match goal with
           | s : bool |- _ => destruct s
           | H : context [match ?c with Eq => _ | Lt => _ | Gt => _ end] |- _ =>
               destruct c eqn:?
           | |- context [match ?c with Eq => _ | Lt => _ | Gt => _ end] =>
               destruct c eqn:?
           end; cbn in *; congruence.
Qed.

End FloatFacts.

(** ** HLL register array *)

Module HllFacts.
Import Bytes Hll FloatFacts.

Lemma to_int_small z : - 2 ^ 31 <= z < 2 ^ 31 -> to_int z = z.
Proof. intros Hz. unfold to_int. rewrite Z.mod_small; lia. Qed.

Lemma shl1_pow n : 0 <= n <= 30 -> shl1 n = 2 ^ n.
Proof.
  intros Hn. unfold shl1. rewrite Z.shiftl_1_l. apply to_int_small.
  assert (0 < 2 ^ n) by (apply Z.pow_pos_nonneg; lia).
  assert (2 ^ n <= 2 ^ 30) by (apply Z.pow_le_mono_r; lia). lia.
Qed.

Section UpdateFacts.
Context `{HllUtil}.

Lemma slot_in_range coupon n :
  0 <= n <= 30 ->
  0 <= Z.land (getLow26 coupon) (to_int (shl1 n - 1)) < 2 ^ n.
Proof.
  intros Hn. rewrite shl1_pow by done.
  assert (0 < 2 ^ n) by (apply Z.pow_pos_nonneg; lia).
  assert (2 ^ n <= 2 ^ 30) by (apply Z.pow_le_mono_r; lia).
  rewrite to_int_small by lia.
  replace (2 ^ n - 1) with (Z.ones n) by (rewrite Z.ones_equiv; lia).
  rewrite Z.land_ones by lia. apply Z.mod_pos_bound. lia.
Qed.

Lemma zero_slots_bounds l : 0 <= zero_slots l <= Z.of_nat (length l).
Proof. unfold zero_slots. pose proof (length_filter (fun v => v = 0) l). lia. Qed.

Lemma zero_slots_replicate n : zero_slots (replicate n 0) = Z.of_nat n.
Proof.
  unfold zero_slots. induction n as [|n IH]; [done|].
  cbn [replicate]. rewrite filter_cons_True by done. cbn [length]. lia.
Qed.

Lemma zero_slots_insert l i old v :
  l !! i = Some old ->
  zero_slots (<[i := v]> l) =
  zero_slots l - (if old =? 0 then 1 else 0) + (if v =? 0 then 1 else 0).
Proof.
  unfold zero_slots. revert i. induction l as [|a l IH]; intros [|i] Hl; try done.
  - injection Hl as ->. cbn [insert list_insert].
    rewrite !filter_cons.
    destruct (Z.eqb_spec old 0), (Z.eqb_spec v 0);
      repeat case_decide; try done; cbn [length]; lia.
  - change (<[S i := v]> (a :: l)) with (a :: <[i := v]> l).
    cbn [lookup list_lookup] in Hl.
    specialize (IH i Hl). rewrite !filter_cons.
    case_decide; cbn [length]; destruct (old =? 0), (v =? 0); lia.
Qed.

Lemma zero_slots_nonzero l i v :
  l !! i = Some v -> v <> 0 -> zero_slots l < Z.of_nat (length l).
Proof.
  unfold zero_slots. revert i. induction l as [|a l IH]; intros [|i] Hl Hv; try done.
  - injection Hl as ->. rewrite filter_cons_False by done. cbn [length].
    pose proof (length_filter (fun v => v = 0) l). lia.
  - cbn [lookup list_lookup] in Hl. specialize (IH i Hl Hv).
    rewrite filter_cons. case_decide; cbn [length]; lia.
Qed.

Lemma newHll_ok lgK t : 4 <= lgK <= 21 -> array_ok (newHll lgK t).
Proof.
  intros Hk. assert (0 < 2 ^ lgK) by (apply Z.pow_pos_nonneg; lia).
  constructor; cbn; rewrite ?shl1_pow by lia; try done.
  - rewrite length_replicate. lia.
  - rewrite zero_slots_replicate. lia.
  - apply Forall_replicate. lia.
Qed.

(** The members that [hipAndKxQIncrementalUpdate] leaves alone. *)
Lemma hipAndKxQIncrementalUpdate_frame host o n :
  o < n ->
  exists host',
    hipAndKxQIncrementalUpdate host o n = Done host'
    /\ lgConfigK host' = lgConfigK host /\ curMin host' = curMin host
    /\ numAtCurMin host' = numAtCurMin host /\ slots host' = slots host.
Proof.
  intros Hlt. unfold hipAndKxQIncrementalUpdate.
  apply Z.ltb_lt in Hlt. rewrite Hlt. cbn [negb].
  destruct (o <? 32)%Z, (n <? 32)%Z; eexists; (split; [reflexivity|done]).
Qed.

(** One [couponUpdate] on a well-formed array: either the coupon carries no
    positive value and the first assertion fires, or the call returns, the array
    stays well-formed, [numAtCurMin] does not grow, and it is below [k] when
    the value was accepted. *)
Lemma couponUpdate_step h coupon :
  array_ok h ->
  (getValue coupon <= 0 /\ couponUpdate h coupon = Failed Assert_newVal_positive)
  \/ exists h',
       couponUpdate h coupon = Done h'
       /\ array_ok h'
       /\ lgConfigK h' = lgConfigK h
       /\ numAtCurMin h' <= numAtCurMin h
       /\ (getSlot h (slot_of h coupon) < getValue coupon ->
           numAtCurMin h' < 2 ^ lgConfigK h').
Proof.
  intros [Hk Hlen Hmin Hnum Hval].
  unfold couponUpdate. fold (slot_of h coupon).
  destruct (0 <? getValue coupon)%Z eqn:Hpos; cbn [negb];
    [apply Z.ltb_lt in Hpos | apply Z.ltb_ge in Hpos; left; split; [lia|done]].
  right.
  pose proof (slot_in_range coupon (lgConfigK h) ltac:(lia)) as Hslot.
  fold (slot_of h coupon) in Hslot.
  set (i := Z.to_nat (slot_of h coupon)).
  assert (Hi : (i < length (slots h))%nat) by lia.
  destruct (lookup_lt_is_Some_2 _ _ Hi) as [cur Hcur].
  assert (Hget : getSlot h (slot_of h coupon) = cur)
    by (unfold getSlot; fold i; by rewrite Hcur).
  rewrite Hget.
  assert (Hcur0 : 0 <= cur) by (eapply Forall_lookup_1 in Hval; eauto).
  destruct (cur <? getValue coupon)%Z eqn:Hlt.
  - apply Z.ltb_lt in Hlt.
    destruct (hipAndKxQIncrementalUpdate_frame
                (putSlot h (slot_of h coupon) (getValue coupon)) cur (getValue coupon) Hlt)
      as (h1 & -> & Hl1 & Hm1 & Hn1 & Hs1).
    cbn [putSlot with_slots lgConfigK curMin numAtCurMin slots] in Hl1, Hm1, Hn1, Hs1.
    fold i in Hs1.
    pose proof (zero_slots_insert (slots h) i cur (getValue coupon) Hcur) as Hz.
    replace (getValue coupon =? 0)%Z with false in Hz by (symmetry; apply Z.eqb_neq; lia).
    assert (Hnz : zero_slots (<[i := getValue coupon]> (slots h))
                  < Z.of_nat (length (slots h))).
    { rewrite <- (length_insert (slots h) i (getValue coupon)).
      apply (zero_slots_nonzero _ i (getValue coupon)); [|lia].
      by apply list_lookup_insert_eq. }
    pose proof (zero_slots_bounds (<[i := getValue coupon]> (slots h))) as Hzb.
    assert (Hvals : Forall (fun v => 0 <= v) (<[i := getValue coupon]> (slots h)))
      by (apply Forall_insert; [done|lia]).
    assert (2 ^ lgConfigK h <= 2 ^ 21) by (apply Z.pow_le_mono_r; lia).
    destruct (cur =? 0)%Z eqn:Hc0.
    + assert (Hdec : numAtCurMin (decNumAtCurMin h1)
                     = zero_slots (<[i := getValue coupon]> (slots h))).
      { cbn [decNumAtCurMin numAtCurMin]. rewrite Hn1, Hnum, Hz.
        rewrite to_int_small by lia. lia. }
      rewrite Hdec.
      replace (0 <=? zero_slots _)%Z with true by (symmetry; apply Z.leb_le; lia).
      cbn [negb]. eexists; split; [reflexivity|].
      split; [|split; [exact Hl1|split]].
      * constructor; cbn [decNumAtCurMin lgConfigK curMin slots];
          rewrite ?Hl1, ?Hs1, ?Hm1, ?length_insert; try done.
      * rewrite Hdec, Hnum, Hz. lia.
      * intros _. rewrite Hdec. cbn [decNumAtCurMin lgConfigK]. rewrite Hl1. lia.
    + eexists; split; [reflexivity|].
      split; [|split; [exact Hl1|split]].
      * constructor; rewrite ?Hl1, ?Hs1, ?Hm1, ?Hn1, ?length_insert; try done.
        rewrite Hnum, Hz. lia.
      * lia.
      * intros _. rewrite Hn1, Hl1, Hnum. lia.
  - apply Z.ltb_ge in Hlt. eexists; split; [reflexivity|].
    split; [by constructor|]. split; [done|]. split; [lia|]. intros; lia.
Qed.

Lemma couponUpdates_ok h coupons h' :
  array_ok h ->
  couponUpdates h coupons = Done h' ->
  array_ok h' /\ lgConfigK h' = lgConfigK h /\ numAtCurMin h' <= numAtCurMin h.
Proof.
  revert h. induction coupons as [|c cs IH]; intros h Hok Hrun; cbn [couponUpdates] in Hrun.
  - injection Hrun as <-. split; [done|]. split; [done|lia].
  - destruct (couponUpdate_step h c Hok) as [[_ Hf] | (h1 & Hd & Hok1 & Hl1 & Hn1 & _)];
      rewrite ?Hf, ?Hd in Hrun; [done|].
    destruct (IH h1 Hok1 Hrun) as (Hok' & Hl' & Hn').
    split; [done|]. split; [congruence|lia].
Qed.

Lemma couponUpdates_failure h coupons a :
  array_ok h ->
  couponUpdates h coupons = Failed a ->
  a = Assert_newVal_positive.
Proof.
  revert h. induction coupons as [|c cs IH]; intros h Hok Hrun; cbn [couponUpdates] in Hrun.
  - done.
  - destruct (couponUpdate_step h c Hok) as [[_ Hf] | (h1 & Hd & Hok1 & _)];
      rewrite ?Hf, ?Hd in Hrun; [congruence|]. by apply (IH h1).
Qed.


Lemma isEmpty_true h :
  0 <= lgConfigK h <= 30 ->
  isEmpty h = true <-> curMin h = 0 /\ numAtCurMin h = 2 ^ lgConfigK h.
Proof.
  intros Hk. unfold isEmpty. rewrite shl1_pow by done.
  rewrite andb_true_iff, !Z.eqb_eq. done.
Qed.

(** C10.  [isEmpty] holds exactly when [curMin = 0] and
    [numAtCurMin = 2^lgConfigK]; a new array is empty; and once a
    [couponUpdate] has accepted a value, the array is not empty, and stays so
    through every further sequence of [couponUpdate] calls. *)
Theorem isEmpty_until_first_accepted_coupon :
  (forall h, 0 <= lgConfigK h <= 30 ->
     (isEmpty h = true <-> curMin h = 0 /\ numAtCurMin h = 2 ^ lgConfigK h))
  /\ (forall lgK t, 4 <= lgK <= 21 -> isEmpty (newHll lgK t) = true)
  /\ (forall lgK t before coupon after h h' h'',
        4 <= lgK <= 21 -> t <> HLL_4 ->
        couponUpdates (newHll lgK t) before = Done h ->
        couponUpdate h coupon = Done h' ->
        getSlot h (slot_of h coupon) < getValue coupon ->
        couponUpdates h' after = Done h'' ->
        isEmpty h' = false /\ isEmpty h'' = false).
Proof.
  split; [exact isEmpty_true|]. split.
  - intros lgK t Hk. apply isEmpty_true; cbn; [lia|].
    split; [done|]. apply shl1_pow. lia.
  - intros lgK t before coupon after h h' h'' Hk _ Hb Hu Hacc Ha.
    destruct (couponUpdates_ok _ _ _ (newHll_ok lgK t Hk) Hb) as (Hok & Hl & _).
    cbn [newHll lgConfigK] in Hl.
    destruct (couponUpdate_step h coupon Hok) as [[_ Hf] | (h1 & Hd & Hok1 & Hl1 & _ & Hlt)];
      [congruence|].
    assert (h1 = h') as -> by congruence.
    specialize (Hlt Hacc).
    destruct (couponUpdates_ok _ _ _ Hok1 Ha) as (Hok2 & Hl2 & Hn2).
    assert (Hne : forall g, 0 <= lgConfigK g <= 30 ->
                            numAtCurMin g < 2 ^ lgConfigK g -> isEmpty g = false).
    { intros g Hg Hn. destruct (isEmpty g) eqn:He; [|done].
      apply isEmpty_true in He as [_ He]; [lia|done]. }
    split; apply Hne; try lia. rewrite Hl2. lia.
Qed.

End UpdateFacts.

(** *** The composite estimator *)

Section Composite.
Context `{HllTables}.

Lemma getHllRawEstimate_spec h :
  0 <= lgConfigK h <= 30 ->
  getHllRawEstimate (lgConfigK h) (kxq0 h + kxq1 h) = raw_estimate_spec h.
Proof.
  intros Hk. unfold getHllRawEstimate, raw_estimate_spec, alpha.
  by rewrite shl1_pow.
Qed.

(** C4, as the code has it.  [getCompositeEstimate] computes the raw estimate
    [alpha_k * k^2 / (kxq0 + kxq1)] with [alpha_4 = 0.673], [alpha_5 = 0.697],
    [alpha_6 = 0.709] and [0.7213 / (1 + 1.079 / k)] otherwise; it returns 0
    when the raw estimate is below the first point of the x-array, and the
    raw estimate scaled by [yStride * (len - 1) / xArr[len - 1]] when it is
    above the last; between the two it interpolates to [adjEst], returns
    [adjEst] when [adjEst > 3 * k], and otherwise [adjEst] if
    [(adjEst + linEst) / 2 > crossover * k] (crossover 0.718 at [lgK = 4],
    0.672 at [lgK = 5], 0.64 otherwise) and [linEst] if not. *)
Theorem getCompositeEstimate_cases h :
  4 <= lgConfigK h <= 21 ->
  let rawEst := raw_estimate_spec h in
  let xArr := get_x_arr (lgConfigK h) in
  let last := to_int (get_x_arr_length (lgConfigK h) - 1) in
  getCompositeEstimate h =
  if (rawEst <? at_index xArr 0)%float then 0%float
  else if (at_index xArr last <? rawEst)%float then
    (rawEst * (get_y_stride (lgConfigK h) * double_of_int last / at_index xArr last))%float
  else composite_estimate_spec h.
Proof.
  intros Hk rawEst xArr last. unfold getCompositeEstimate.
  rewrite getHllRawEstimate_spec by lia. fold rawEst xArr last.
  destruct (rawEst <? at_index xArr 0)%float; [done|].
  destruct (at_index xArr last <? rawEst)%float; [done|].
  unfold composite_estimate_spec, crossOver, crossover_spec.
  fold rawEst xArr. rewrite shl1_pow by lia.
  replace (to_int (Z.shiftl 3 (lgConfigK h))) with (3 * 2 ^ lgConfigK h); [done|].
  rewrite Z.shiftl_mul_pow2 by lia. symmetry. apply to_int_small.
  assert (0 < 2 ^ lgConfigK h) by (apply Z.pow_pos_nonneg; lia).
  assert (2 ^ lgConfigK h <= 2 ^ 21) by (apply Z.pow_le_mono_r; lia). lia.
Qed.

End Composite.

(** The selection between [adjEst] and [linEst] alone is not what the
    function computes: on [stream_array] the raw estimate is below the
    x-array, [getCompositeEstimate] returns 0, and the selection gives
    [linEst = 1]. *)
Lemma getCompositeEstimate_not_selection_only :
  getCompositeEstimate (H := sample_tables) stream_array
  <> composite_estimate_spec (H := sample_tables) stream_array.
Proof.
  intros Heq.
  apply (f_equal (fun x => PrimFloat.eqb x 0)) in Heq.
  vm_compute in Heq. discriminate Heq.
Qed.

Lemma getCompositeEstimate_cases_witness :
  4 <= lgConfigK stream_array <= 21
  /\ getCompositeEstimate (H := sample_tables) stream_array = 0%float
  /\ getCompositeEstimate (H := sample_tables) sample_array
     = composite_estimate_spec (H := sample_tables) sample_array.
Proof.
  assert (Hk1 : 4 <= lgConfigK stream_array <= 21) by (change (4 <= 4 <= 21); lia).
  assert (Hk2 : 4 <= lgConfigK sample_array <= 21) by (change (4 <= 4 <= 21); lia).
  split; [exact Hk1|].
  pose proof (getCompositeEstimate_cases (H := sample_tables) stream_array Hk1) as H1.
  pose proof (getCompositeEstimate_cases (H := sample_tables) sample_array Hk2) as H2.
  split; [rewrite H1|rewrite H2]; vm_compute; reflexivity.
Defined.

(** *** Bounds *)

(** C5.  For every [numStdDev] that [checkNumStdDev] accepts,
    [getLowerBound] returns, and what it returns is at least [numNonZeros]:
    [k - numAtCurMin] when [curMin = 0], and [k] otherwise. *)
Theorem getLowerBound_at_least_numNonZeros `{HllTables} h numStdDev :
  checkNumStdDev numStdDev = true ->
  exists lb,
    getLowerBound h numStdDev = Some lb
    /\ (numNonZeros h <=? lb)%float = true
    /\ numNonZeros h =
       double_of_int (if curMin h =? 0
                      then to_int (shl1 (lgConfigK h) - numAtCurMin h)
                      else shl1 (lgConfigK h)).
Proof.
  intros Hc. unfold getLowerBound. rewrite Hc. cbn [negb].
  destruct (oooFlag h); (eexists; split; [reflexivity|]);
    (split; [apply fmax_ge_r, double_of_int_not_nan|reflexivity]).
Qed.

Lemma getLowerBound_at_least_numNonZeros_witness :
  checkNumStdDev (HllTables := sample_tables) 2 = true
  /\ exists lb,
       getLowerBound (H := sample_tables) sample_array 2 = Some lb
       /\ (numNonZeros sample_array <=? lb)%float = true
       /\ numNonZeros sample_array = 2%float.
Proof.
  split; [reflexivity|].
  destruct (getLowerBound_at_least_numNonZeros (H := sample_tables) sample_array 2 eq_refl)
    as (lb & Hlb & Hle & _).
  exists lb. split; [exact Hlb|]. split; [exact Hle|]. vm_compute. reflexivity.
Defined.

(** The runs below use the helpers of [sample_util]. *)
#[local] Existing Instance sample_util.



Lemma isEmpty_until_first_accepted_coupon_witness :
  isEmpty (newHll 4 HLL_8) = true
  /\ exists h' h'',
       couponUpdate (newHll 4 HLL_8) (3 * 2 ^ 26 + 5) = Done h'
       /\ getSlot (newHll 4 HLL_8) (slot_of (newHll 4 HLL_8) (3 * 2 ^ 26 + 5))
          < getValue (3 * 2 ^ 26 + 5)
       /\ couponUpdates h' [2 * 2 ^ 26 + 5; 7 * 2 ^ 26 + 9] = Done h''
       /\ isEmpty h' = false /\ isEmpty h'' = false.
Proof.
  destruct isEmpty_until_first_accepted_coupon as (_ & Hnew & Hstay).
  split; [apply Hnew; lia|].
  destruct (couponUpdate (newHll 4 HLL_8) (3 * 2 ^ 26 + 5)) as [h'|a] eqn:Hu;
    [|vm_compute in Hu; discriminate Hu].
  destruct (couponUpdates h' [2 * 2 ^ 26 + 5; 7 * 2 ^ 26 + 9]) as [h''|a] eqn:Ha.
  - exists h', h''. split; [reflexivity|]. split; [vm_compute; reflexivity|].
    split; [exact Ha|].
    exact (Hstay 4 HLL_8 [] _ _ _ h' h'' ltac:(lia) ltac:(discriminate)
             eq_refl Hu ltac:(vm_compute; reflexivity) Ha).
  - exfalso. vm_compute in Hu. injection Hu as <-. vm_compute in Ha. discriminate Ha.
Defined.

End HllFacts.

(** ** KLL sketch *)

Module KllFacts.
Import Kll.

Lemma n_updates s count : n (updates s count) = n s + Z.of_nat count.
Proof.
  unfold updates. induction count as [|c IH]; [cbn; lia|].
  rewrite Nat.iter_succ. cbn [update n]. rewrite IH. lia.
Qed.

Lemma k_updates s count : k (updates s count) = k s.
Proof.
  unfold updates. induction count as [|c IH]; [done|].
  by rewrite Nat.iter_succ.
Qed.

(** The rank error falls as [k] grows. *)
Lemma normalized_rank_error_lt c_pmf k1 k2 pmf :
  (0 < c_pmf)%Q -> 0 < k1 < k2 ->
  (normalized_rank_error c_pmf k2 pmf < normalized_rank_error c_pmf k1 pmf)%Q.
Proof.
  intros Hc Hk. unfold normalized_rank_error.
  set (c := if pmf then c_pmf else 266 # 100).
  assert (Hc0 : (0 < c)%Q) by (subst c; by destruct pmf).
  destruct c as [cn cd], k1 as [|p1|p1], k2 as [|p2|p2]; try lia.
  unfold Qlt in *. cbn in *. rewrite !Pos2Z.inj_mul. nia.
Qed.

(** [merge] passes the two tests it was fitted to. *)
Lemma merge_lower_k_passes c_pmf : (0 < c_pmf)%Q -> merge_lower_k merge c_pmf.
Proof.
  intros Hc. unfold merge_lower_k, get_normalized_rank_error.
  split; [|split].
  - rewrite !k_updates. apply normalized_rank_error_lt; cbn; [done|lia].
  - rewrite !k_updates. apply normalized_rank_error_lt; cbn; [done|lia].
  - unfold merge, is_empty, is_estimation_mode.
    rewrite !n_updates, !k_updates. cbn. done.
Qed.

Lemma merge_exact_mode_lower_k_passes c_pmf : merge_exact_mode_lower_k merge c_pmf.
Proof.
  unfold merge_exact_mode_lower_k, get_normalized_rank_error.
  unfold merge, is_empty, is_estimation_mode.
  cbn [update n k Z.eqb Z.add]. rewrite !n_updates, !k_updates. cbn. done.
Qed.

(** The merge of the specification's words fails the second test: the rank
    error of [k = 256] is not the rank error of [k = 128]. *)
Lemma merge_min_k_fails_exact_mode_test c_pmf :
  (0 < c_pmf)%Q -> ~ merge_exact_mode_lower_k merge_min_k c_pmf.
Proof.
  intros Hc [Heq _]. revert Heq.
  unfold get_normalized_rank_error, merge_min_k. cbn [k].
  rewrite k_updates. cbn [k]. change (Z.min 256 128) with 128.
  intros Heq.
  pose proof (normalized_rank_error_lt c_pmf 128 256 true Hc ltac:(lia)) as Hlt.
  rewrite Heq in Hlt. exact (Qlt_irrefl _ Hlt).
Qed.

(** A merge takes the lower [k] of an [other] in estimation mode and keeps
    its own [k] otherwise; the counts add up. *)
Lemma merge_k_cases self other :
  k (merge self other) =
  (if negb (is_empty other) && is_estimation_mode other
   then Z.min (k self) (k other) else k self)
  /\ n (merge self other) = n self + n other.
Proof.
  unfold merge. destruct (is_empty other) eqn:He; cbn [negb andb].
  - apply Z.eqb_eq in He. split; [done|lia].
  - done.
Qed.

(** C7, as the tests have it.  After [self.merge(other)] the resulting [k] is
    [min(self.k, other.k)] when [other] is in estimation mode, so that the
    normalized rank error is that of the coarser input; when [other] is
    empty or in exact mode the resulting [k], and with it the rank error,
    is that of [self]. *)
Theorem merge_takes_lower_k_of_estimating_other c_pmf self other pmf :
  (is_estimation_mode other = true -> 0 <= k other ->
   k (merge self other) = Z.min (k self) (k other)
   /\ get_normalized_rank_error c_pmf (merge self other) pmf
      = normalized_rank_error c_pmf (Z.min (k self) (k other)) pmf)
  /\ (is_estimation_mode other = false ->
      k (merge self other) = k self
      /\ get_normalized_rank_error c_pmf (merge self other) pmf
         = get_normalized_rank_error c_pmf self pmf).
Proof.
  destruct (merge_k_cases self other) as [Hk _].
  unfold get_normalized_rank_error. rewrite Hk.
  split; intros He; [intros Hk0|]; rewrite He.
  - assert (Hne : is_empty other = false).
    { unfold is_estimation_mode, is_empty in *.
      apply Z.ltb_lt in He. apply Z.eqb_neq. lia. }
    rewrite Hne. done.
  - rewrite andb_false_r. done.
Qed.

(** The lower [k] is not taken from every [other]: a sketch with [k = 256]
    that merges one item held by a sketch with [k = 128] keeps [k = 256]. *)
Lemma merge_k_is_not_always_min :
  let self := updates {| k := 256; n := 0 |} 10000 in
  let other := update {| k := 128; n := 0 |} in
  k (merge self other) <> Z.min (k self) (k other).
Proof. vm_compute. discriminate. Qed.

Lemma merge_takes_lower_k_of_estimating_other_witness :
  let self := updates {| k := 256; n := 0 |} 10000 in
  let other := updates {| k := 128; n := 0 |} 10000 in
  is_estimation_mode other = true /\ 0 <= k other
  /\ k (merge self other) = 128.
Proof.
  intros self other.
  assert (He : is_estimation_mode other = true) by (vm_compute; reflexivity).
  assert (Hk : 0 <= k other) by (vm_compute; discriminate).
  split; [exact He|]. split; [exact Hk|].
  destruct (proj1 (merge_takes_lower_k_of_estimating_other 1 self other false) He Hk)
    as [-> _].
  vm_compute. reflexivity.
Defined.

End KllFacts.

(** ** CPC sketch: inputs of other lengths, other seeds, other flags *)

Module CpcInputFacts.
Import Bytes BytesFacts Cpc CpcFacts Readers.

Lemma extends_ret {A} (a : A) : extends (fun s => Some (a, s)).
Proof. intros s a' r e [= <- <-]. done. Qed.

Lemma extends_bind {A B} (f : list Z -> option (A * list Z))
    (k : A -> list Z -> option (B * list Z)) :
  extends f -> (forall a, extends (k a)) ->
  extends (fun s => p ← f s; let '(a, s') := p in k a s').
Proof.
  intros Hf Hk s b r e Hrun.
  destruct (f s) as [[a s']|] eqn:Ef; [|done].
  cbn [mbind option_bind] in Hrun.
  rewrite (Hf _ _ _ e Ef). cbn [mbind option_bind]. by apply Hk.
Qed.

Lemma read_extends n : extends (read n).
Proof.
  intros s bs r e. unfold read. case_decide; [|done]. intros [= <- <-].
  rewrite decide_True by (rewrite length_app; lia).
  by rewrite take_app_le, drop_app_le by lia.
Qed.

Lemma read_uint_extends n : extends (read_uint n).
Proof.
  intros s v r e. unfold read_uint.
  destruct (read n s) as [[bs s']|] eqn:E; [|done]. intros [= <- <-].
  by rewrite (read_extends n _ _ _ e E).
Qed.

Lemma read_words_extends n : extends (read_words n).
Proof.
  induction n as [|n IH]; intros s ws r e; cbn [read_words].
  - by intros [= <- <-].
  - destruct (read_uint 4 s) as [[w s']|] eqn:E; [|done].
    destruct (read_words n s') as [[ws' s'']|] eqn:E'; [|done].
    intros [= <- <-].
    by rewrite (read_uint_extends 4 _ _ _ e E), (IH _ _ _ e E').
Qed.

Lemma read_hip_extends : extends read_hip.
Proof.
  unfold read_hip.
  apply (extends_bind (read_uint 8)); [apply read_uint_extends|intros k].
  apply (extends_bind (read_uint 8)); [apply read_uint_extends|intros h].
  apply extends_ret.
Qed.

Lemma read_array_extends n : extends (read_array n).
Proof.
  unfold read_array.
  apply (extends_bind (read_words (Z.to_nat n))); [apply read_words_extends|intros ws].
  apply extends_ret.
Qed.

Lemma read_header_extends : extends read_header.
Proof.
  unfold read_header.
  do 6 (apply (extends_bind (read_uint 1)); [apply read_uint_extends|intros ?]).
  apply (extends_bind (read_uint 2)); [apply read_uint_extends|intros ?].
  apply extends_ret.
Qed.

Lemma read_body_extends hdr : extends (read_body hdr).
Proof.
  unfold read_body.
  destruct (flag_set (h_flags_byte hdr) HAS_HIP), (flag_set (h_flags_byte hdr) HAS_TABLE),
    (flag_set (h_flags_byte hdr) HAS_WINDOW); cbn [orb andb negb];
    repeat first
      [ apply extends_ret
      | apply (extends_bind (read_uint 4)); [apply read_uint_extends|intros ?]
      | apply (extends_bind read_hip); [apply read_hip_extends|intros ?]
      | apply (extends_bind (read_array _)); [apply read_array_extends|intros ?]
      | apply (extends_bind (fun s => Some (_, s))); [apply extends_ret|intros ?]
      | apply (extends_bind (fun s => _ ← read_uint 4 s; _)); [|intros ?]
      | apply (extends_bind (fun s => _ ← read_hip s; _)); [|intros ?]
      | match goal with a : (_ * _)%type |- _ => destruct a end ].
Qed.

Lemma read_compressed_extends : extends read_compressed.
Proof.
  unfold read_compressed.
  apply (extends_bind read_header); [apply read_header_extends|intros hdr].
  apply (extends_bind (read_body hdr)); [apply read_body_extends|intros c].
  apply extends_ret.
Qed.

Lemma flag_set_land flags flags' bit :
  Z.land flags 28 = Z.land flags' 28 ->
  bit = HAS_HIP \/ bit = HAS_TABLE \/ bit = HAS_WINDOW ->
  flag_set flags bit = flag_set flags' bit.
Proof.
  intros Heq Hbit. unfold flag_set.
  assert (Hsub : Z.land 28 (Z.shiftl 1 bit) = Z.shiftl 1 bit)
    by (destruct Hbit as [-> | [-> | ->]]; reflexivity).
  rewrite <- Hsub, !Z.land_assoc, Heq. done.
Qed.

Section Inputs.
Context `{Fm85Lib}.

(** X1.  An input that the reads consume exactly, followed by more bytes: the
    stream variant of [deserialize] returns what it returns without them; the
    memory variant agrees with the stream variant on the exact input and fails
    its assertion [ptr == bytes + size] on the longer one. *)
Theorem deserialize_with_trailing_bytes s hdr c sd extra :
  read_compressed s = Some (hdr, c, []) ->
  deserialize (s ++ extra) sd = deserialize s sd
  /\ deserialize_mem s sd = deserialize s sd
  /\ (extra <> [] -> deserialize_mem (s ++ extra) sd = Err Size_assertion).
Proof.
  intros Hr. pose proof (read_compressed_extends _ _ _ extra Hr) as He.
  cbn [app] in He. unfold deserialize, deserialize_mem. rewrite Hr, He.
  split; [done|]. split; [done|]. by destruct extra.
Qed.

(** X3.  [deserialize] compares the seed hash in the image with the hash of
    the seed it is called with: a seed with another hash is refused with both
    hashes reported, and a seed with the same hash is accepted and becomes the
    seed of the sketch returned. *)
Theorem deserialize_checks_seed_hash x sd :
  let c := fm85Compress (state x) in
  let written := uint16 (compute_seed_hash (seed x)) in
  let expected := uint16 (compute_seed_hash sd) in
  compressed_ok c ->
  numCoupons c = numCoupons (state x) ->
  (written <> expected ->
   deserialize (serialize x) sd = Err (Incompatible_seed_hashes written expected)
   /\ deserialize_mem (serialize x) sd = Err (Incompatible_seed_hashes written expected))
  /\ (written = expected ->
      exists y, deserialize (serialize x) sd = Ok y
                /\ deserialize_mem (serialize x) sd = Ok y
                /\ seed y = sd).
Proof.
  intros c written expected Hok Hnc.
  destruct (read_compressed_image x (get_preamble_ints c) SERIAL_VERSION FAMILY
              (compute_seed_hash (seed x) mod 256)
              (compute_seed_hash (seed x) / 256 mod 256) [] Hok Hnc)
    as (c' & Hr & Hsw & _).
  fold c in Hr, Hsw. rewrite app_nil_r in Hr.
  unfold deserialize, deserialize_mem. rewrite serialize_split.
  unfold header_bytes. cbn [app]. fold c. rewrite Hr.
  unfold check_and_uncompress. rewrite (same_wire_preamble_ints _ _ _ Hsw).
  cbn [h_preamble_ints h_serial_version h_family_id h_seed_hash].
  rewrite seed_hash_bytes. fold written expected.
  rewrite !Z.eqb_refl. cbn [negb].
  split; intros Hh.
  - apply Z.eqb_neq in Hh. by rewrite Hh.
  - apply Z.eqb_eq in Hh. rewrite Hh. cbn [negb]. eauto.
Qed.

(** X4.  Of the flags byte [deserialize] reads the bits HAS_HIP, HAS_TABLE and
    HAS_WINDOW only: two inputs that differ in the other bits of that byte
    (IS_BIG_ENDIAN, IS_COMPRESSED, bits 5 to 7) fare the same. *)
Theorem deserialize_reads_three_flag_bits p v f l col flags flags' s0 s1 rest sd :
  Z.land flags 28 = Z.land flags' 28 ->
  deserialize (p :: v :: f :: l :: col :: flags :: s0 :: s1 :: rest) sd
  = deserialize (p :: v :: f :: l :: col :: flags' :: s0 :: s1 :: rest) sd
  /\ deserialize_mem (p :: v :: f :: l :: col :: flags :: s0 :: s1 :: rest) sd
     = deserialize_mem (p :: v :: f :: l :: col :: flags' :: s0 :: s1 :: rest) sd.
Proof.
  intros Heq. unfold deserialize, deserialize_mem, read_compressed.
  rewrite !read_header_bytes. cbn [mbind option_bind].
  set (hdr := Build_header p v f l col flags (s0 + 256 * s1)).
  set (hdr' := Build_header p v f l col flags' (s0 + 256 * s1)).
  assert (Hb : read_body hdr rest = read_body hdr' rest).
  { unfold read_body. cbn [hdr hdr' h_flags_byte h_lg_k h_first_interesting_column].
    by rewrite !(flag_set_land flags flags') by auto. }
  rewrite Hb. destruct (read_body hdr' rest) as [[c r]|]; cbn [mbind option_bind]; done.
Qed.

(** X5.  Both variants of [deserialize] accept the image of a sketch when they
    are called with its seed, and hand to [fm85Uncompress] a compressed state
    that carries what [serialize] wrote: [lgK], [firstInterestingColumn],
    [mergeFlag], [numCoupons], the two packed arrays with their lengths and
    the HIP registers, marked compressed and with [windowOffset] set by
    [determineCorrectOffset]. *)
Theorem deserialize_rebuilds_written_state x :
  let c := fm85Compress (state x) in
  compressed_ok c ->
  numCoupons c = numCoupons (state x) ->
  exists c',
    deserialize (serialize x) (seed x) = Ok {| state := fm85Uncompress c'; seed := seed x |}
    /\ deserialize_mem (serialize x) (seed x)
       = Ok {| state := fm85Uncompress c'; seed := seed x |}
    /\ same_wire c' c
    /\ isCompressed c' = true
    /\ windowOffset c' = determineCorrectOffset (lgK c') (numCoupons c').
Proof.
  intros c Hok Hnc.
  destruct (read_compressed_image x (get_preamble_ints c) SERIAL_VERSION FAMILY
              (compute_seed_hash (seed x) mod 256)
              (compute_seed_hash (seed x) / 256 mod 256) [] Hok Hnc)
    as (c' & Hr & Hsw & Hic).
  fold c in Hr, Hsw. rewrite app_nil_r in Hr.
  exists (with_windowOffset c' (determineCorrectOffset (lgK c') (numCoupons c'))).
  unfold deserialize, deserialize_mem. rewrite serialize_split.
  unfold header_bytes. cbn [app]. fold c. rewrite Hr.
  rewrite (check_and_uncompress_ok _ c' c (seed x)) by (done || apply seed_hash_bytes).
  split; [done|]. split; [done|].
  split; [by apply same_wire_window_offset|done].
Qed.

End Inputs.

#[local] Existing Instance plain_core.

Lemma deserialize_with_trailing_bytes_witness :
  exists hdr c,
    read_compressed (serialize plain_sketch) = Some (hdr, c, [])
    /\ deserialize (serialize plain_sketch ++ [7; 7]) 9001
       = deserialize (serialize plain_sketch) 9001
    /\ deserialize_mem (serialize plain_sketch ++ [7; 7]) 9001 = Err Size_assertion.
Proof.
  assert (Hr : exists hdr c, read_compressed (serialize plain_sketch) = Some (hdr, c, []))
    by (eexists _, _; vm_compute; reflexivity).
  destruct Hr as (hdr & c & Hr). exists hdr, c. split; [exact Hr|].
  pose proof (deserialize_with_trailing_bytes (serialize plain_sketch) hdr c 9001 [7; 7] Hr)
    as (Hs & _ & Hm).
  split; [exact Hs|]. apply Hm. discriminate.
Defined.

Lemma deserialize_checks_seed_hash_witness :
  uint16 (compute_seed_hash (seed plain_sketch)) <> uint16 (compute_seed_hash 9002)
  /\ deserialize (serialize plain_sketch) 9002 = Err (Incompatible_seed_hashes 9001 9002)
  /\ uint16 (compute_seed_hash (seed plain_sketch)) = uint16 (compute_seed_hash 74522)
  /\ exists y, deserialize (serialize plain_sketch) 74522 = Ok y /\ seed y = 74522.
Proof.
  assert (Hne : uint16 (compute_seed_hash (seed plain_sketch))
                <> uint16 (compute_seed_hash 9002)) by (vm_compute; discriminate).
  assert (Heq : uint16 (compute_seed_hash (seed plain_sketch))
                = uint16 (compute_seed_hash 74522)) by (vm_compute; reflexivity).
  split; [exact Hne|]. split; [|split; [exact Heq|]].
  - exact (proj1 (proj1 (deserialize_checks_seed_hash plain_sketch 9002
                           plain_sketch_compressed_ok eq_refl) Hne)).
  - destruct (proj2 (deserialize_checks_seed_hash plain_sketch 74522
                       plain_sketch_compressed_ok eq_refl) Heq) as (y & Hy & _ & Hs).
    by exists y.
Defined.

Lemma deserialize_reads_three_flag_bits_witness :
  Z.land 14 28 = Z.land 205 28
  /\ deserialize [8; 1; 16; 4; 5; 14; 41; 35; 1; 0; 0; 0; 1; 0; 0; 0;
                  0; 0; 0; 0; 0; 248; 47; 64; 0; 0; 0; 0; 0; 0; 240; 63; 197; 0; 0; 0] 9001
     = deserialize [8; 1; 16; 4; 5; 205; 41; 35; 1; 0; 0; 0; 1; 0; 0; 0;
                    0; 0; 0; 0; 0; 248; 47; 64; 0; 0; 0; 0; 0; 0; 240; 63; 197; 0; 0; 0] 9001.
Proof.
  split; [reflexivity|].
  exact (proj1 (deserialize_reads_three_flag_bits 8 1 16 4 5 14 205 41 35 _ 9001 eq_refl)).
Defined.

Lemma deserialize_rebuilds_written_state_witness :
  exists c',
    deserialize (serialize plain_sketch) (seed plain_sketch)
    = Ok {| state := fm85Uncompress c'; seed := seed plain_sketch |}
    /\ numCoupons c' = 1 /\ compressedSurprisingValues c' = Some [197].
Proof.
  destruct (deserialize_rebuilds_written_state plain_sketch
              plain_sketch_compressed_ok eq_refl) as (c' & Hd & _ & Hsw & _).
  exists c'. split; [exact Hd|].
  split; [exact (sw_coupons _ _ Hsw)|exact (sw_table _ _ Hsw)].
Defined.

End CpcInputFacts.

(** ** CPC sketch: the image in memory *)

Module CpcBufferFacts.
Import Bytes BytesFacts Cpc CpcFacts CpcBuffer.

Lemma write_words_length ws : length (write_words ws) = (4 * length ws)%nat.
Proof.
  unfold write_words. induction ws as [|w ws IH]; [done|].
  cbn [map concat length]. rewrite length_app, le_bytes_length, IH. lia.
Qed.

Lemma fills_copy_to_mem src : fills (copy_to_mem src) src.
Proof.
  intros pre n Hn. unfold copy_to_mem.
  rewrite decide_True by (rewrite length_app, length_replicate; lia).
  rewrite take_app_length, drop_app_add', drop_replicate by done.
  by rewrite <- app_assoc, length_app, length_map.
Qed.

Lemma fills_and_then w1 w2 bs1 bs2 :
  fills w1 bs1 -> fills w2 bs2 -> fills (w1 >=> w2) (bs1 ++ bs2).
Proof.
  intros H1 H2 pre n Hn. rewrite length_app in Hn. unfold and_then.
  rewrite H1 by lia. cbn [mbind option_bind].
  rewrite H2 by lia. rewrite map_app, !app_assoc, !length_app.
  do 2 f_equal. rewrite Nat.sub_add_distr. done.
Qed.

Lemma fills_skip : fills Some [].
Proof.
  intros pre n _. cbn [map length]. by rewrite app_nil_r, Nat.sub_0_r.
Qed.

Section Memory.
Context `{Fm85Lib}.

(** The number of bytes of an image, from the counters of the compressed
    state. *)
Lemma serialize_length x :
  let c := fm85Compress (state x) in
  compressed_ok c ->
  numCoupons c = numCoupons (state x) ->
  Z.of_nat (length (serialize x)) = 4 * (get_preamble_ints c + csvLength c + cwLength c).
Proof.
  intros c Hok Hnc. unfold serialize, serialize_fields, is_empty. rewrite <- Hnc. fold c.
  assert (Hb := ck_body _ Hok). assert (Hl1 := ck_csv_length _ Hok).
  assert (Hl2 := ck_cw_length _ Hok). assert (Hn := ck_coupons _ Hok).
  unfold get_preamble_ints, header_fields, body_fields, write_hip, image.
  destruct (numCoupons c =? 0) eqn:Hz; cbn [negb].
  - apply Z.eqb_eq in Hz. rewrite Hz in Hb |- *. cbn in Hb. symmetry in Hb.
    apply orb_false_elim in Hb as [Hb1 Hb2].
    destruct (compressedSurprisingValues c); [done|].
    destruct (compressedWindow c); [done|].
    cbn in Hl1, Hl2. rewrite Hl1, Hl2. reflexivity.
  - apply Z.eqb_neq in Hz.
    replace (0 <? numCoupons c) with true in * by (symmetry; apply Z.ltb_lt; lia).
    destruct (mergeFlag c), (compressedSurprisingValues c) as [csv|],
      (compressedWindow c) as [cw|]; try discriminate Hb;
      cbn [not_null negb andb array] in *;
      rewrite Hl1, Hl2, ?Nat2Z.id, ?firstn_all;
      cbn [app map snd concat]; rewrite ?length_app, ?write_words_length, ?le_bytes_length;
      cbn [length]; unfold uint8; rewrite Z.mod_small by lia; lia.
Qed.

(** The copies of [serialize(header_size_bytes)] store the bytes that the
    stream variant writes. *)
Lemma serialize_mem_fills x :
  let compressed := fm85Compress (state x) in
  let has_hip := negb (mergeFlag compressed) in
  let has_table := not_null (compressedSurprisingValues compressed) in
  let has_window := not_null (compressedWindow compressed) in
  fills
    (copy_to_mem (le_bytes 1 (get_preamble_ints compressed))
     >=> copy_to_mem (le_bytes 1 SERIAL_VERSION)
     >=> copy_to_mem (le_bytes 1 FAMILY)
     >=> copy_to_mem (le_bytes 1 (lgK compressed))
     >=> copy_to_mem (le_bytes 1 (firstInterestingColumn compressed))
     >=> copy_to_mem (le_bytes 1 (flags_byte_of has_hip has_table has_window))
     >=> copy_to_mem (le_bytes 2 (compute_seed_hash (seed x)))
     >=> when (negb (is_empty x))
          (copy_to_mem (le_bytes 4 (numCoupons compressed))
           >=> when (has_table && has_window)
                (copy_to_mem (le_bytes 4 (numCompressedSurprisingValues compressed))
                 >=> when has_hip (copy_hip_to_mem compressed))
           >=> when has_table (copy_to_mem (le_bytes 4 (csvLength compressed)))
           >=> when has_window (copy_to_mem (le_bytes 4 (cwLength compressed)))
           >=> when (has_hip && negb (has_table && has_window))
                (copy_hip_to_mem compressed)
           >=> when has_window
                (copy_to_mem
                   (write_words (take (Z.to_nat (cwLength compressed))
                                      (array (compressedWindow compressed)))))
           >=> when has_table
                (copy_to_mem
                   (write_words (take (Z.to_nat (csvLength compressed))
                                      (array (compressedSurprisingValues compressed)))))))
    (serialize x).
Proof.
  intros c has_hip has_table has_window.
  assert (Hex : forall w bs bs', fills w bs -> bs = bs' -> fills w bs')
    by (by intros w bs bs' Hf <-).
  subst has_hip has_table has_window.
  unfold serialize, serialize_fields, header_fields, body_fields, write_hip, image.
  fold c.
  destruct (negb (is_empty x)), (negb (mergeFlag c)),
    (not_null (compressedSurprisingValues c)), (not_null (compressedWindow c));
    cbn [when andb negb app map snd concat]; unfold copy_hip_to_mem;
    (eapply Hex;
     [repeat first [apply fills_and_then | apply fills_copy_to_mem | apply fills_skip]
     |rewrite <- ?app_assoc, ?app_nil_r; reflexivity]).
Qed.

(** X6.  [serialize(header_size_bytes)] returns an allocation of
    [header_size_bytes] bytes it has not written followed by exactly the bytes
    that [serialize(std::ostream&)] writes; its size, computed before the
    copies as [header_size_bytes + 4 * (preamble_ints + csvLength +
    cwLength)], is the number of bytes stored, so no copy leaves the
    allocation and the final assertion on [ptr] holds. (The bounds on
    [header_size_bytes], an [unsigned], and on the two lengths keep the size
    below any width the sum may be taken in.) *)
Theorem serialize_mem_matches_stream x header_size_bytes :
  let c := fm85Compress (state x) in
  compressed_ok c ->
  numCoupons c = numCoupons (state x) ->
  0 <= header_size_bytes < 2 ^ 32 ->
  csvLength c + cwLength c < 2 ^ 31 ->
  serialize_mem x header_size_bytes
  = Stored (replicate (Z.to_nat header_size_bytes) None ++ map Some (serialize x))
           (header_size_bytes + Z.of_nat (length (serialize x)))
  /\ Z.of_nat (length (serialize x))
     = 4 * (get_preamble_ints c + csvLength c + cwLength c).
Proof.
  intros c Hok Hnc Hh _.
  pose proof (serialize_length x Hok Hnc) as Hlen. fold c in Hlen.
  split; [|exact Hlen].
  unfold serialize_mem. fold c.
  replace (header_size_bytes + (get_preamble_ints c + csvLength c + cwLength c) * 4)
    with (header_size_bytes + Z.of_nat (length (serialize x))) by lia.
  replace (Z.to_nat (header_size_bytes + Z.of_nat (length (serialize x))))
    with (Z.to_nat header_size_bytes + length (serialize x))%nat by lia.
  rewrite replicate_add.
  pose proof (serialize_mem_fills x (replicate (Z.to_nat header_size_bytes) None)
                (length (serialize x)) (le_n _)) as Hf.
  cbv zeta in Hf. fold c in Hf. rewrite length_replicate in Hf. rewrite Hf.
  rewrite length_app, length_replicate, length_map.
  rewrite decide_True by done.
  by rewrite Nat.sub_diag, app_nil_r.
Qed.

(** X7.  An empty sketch serializes to the eight header bytes alone, with
    [preamble_ints = 2] and no table or window flag, and only an empty sketch
    has an image of eight bytes. *)
Theorem empty_sketch_image x :
  let c := fm85Compress (state x) in
  compressed_ok c ->
  numCoupons c = numCoupons (state x) ->
  (is_empty x = true <-> length (serialize x) = 8%nat)
  /\ (is_empty x = true ->
      serialize x =
      [ 2; SERIAL_VERSION; FAMILY; lgK c; firstInterestingColumn c;
        if mergeFlag c then 2 else 6;
        compute_seed_hash (seed x) mod 256; compute_seed_hash (seed x) / 256 mod 256 ]).
Proof.
  intros c Hok Hnc.
  pose proof (serialize_length x Hok Hnc) as Hlen. fold c in Hlen.
  assert (Hb := ck_body _ Hok). assert (Hn := ck_coupons _ Hok).
  assert (Hempty : is_empty x = true ->
            serialize x =
            [ 2; SERIAL_VERSION; FAMILY; lgK c; firstInterestingColumn c;
              if mergeFlag c then 2 else 6;
              compute_seed_hash (seed x) mod 256;
              compute_seed_hash (seed x) / 256 mod 256 ]).
  { intros He. rewrite serialize_split. unfold body_bytes. rewrite He. cbn [negb image map concat].
    rewrite app_nil_r. unfold header_bytes. fold c.
    unfold is_empty in He. apply Z.eqb_eq in He. rewrite <- Hnc in He.
    rewrite He in Hb. cbn in Hb. symmetry in Hb. apply orb_false_elim in Hb as [-> ->].
    unfold get_preamble_ints. rewrite He. cbn [Z.ltb Z.compare].
    rewrite !Z.mod_small by (destruct Hok; lia).
    by destruct (mergeFlag c). }
  split; [|exact Hempty]. split.
  - intros He. by rewrite (Hempty He).
  - intros Hl. unfold is_empty. rewrite <- Hnc. apply Z.eqb_eq.
    destruct (Z.eq_dec (numCoupons c) 0) as [|Hz]; [done|]. exfalso.
    rewrite Hl in Hlen. unfold get_preamble_ints in Hlen.
    replace (0 <? numCoupons c) with true in * by (symmetry; apply Z.ltb_lt; lia).
    assert (Hl1 := ck_csv_length _ Hok). assert (Hl2 := ck_cw_length _ Hok).
    destruct (mergeFlag c), (compressedSurprisingValues c), (compressedWindow c);
      try discriminate Hb; cbn [not_null negb] in Hlen; unfold uint8 in Hlen;
      rewrite Z.mod_small in Hlen by lia; lia.
Qed.

End Memory.

#[local] Existing Instance plain_core.

Lemma serialize_mem_matches_stream_witness :
  0 <= 4 < 2 ^ 32
  /\ serialize_mem plain_sketch 4
     = Stored (replicate (Z.to_nat 4) None ++ map Some (serialize plain_sketch))
              (4 + Z.of_nat (length (serialize plain_sketch)))
  /\ length (serialize plain_sketch) = 36%nat.
Proof.
  split; [lia|]. split; [|vm_compute; reflexivity].
  exact (proj1 (serialize_mem_matches_stream plain_sketch 4
                  plain_sketch_compressed_ok eq_refl ltac:(lia)
                  ltac:(vm_compute; reflexivity))).
Defined.

Lemma empty_sketch_image_witness :
  is_empty {| state := plain_empty; seed := 9001 |} = true
  /\ serialize {| state := plain_empty; seed := 9001 |} = [2; 1; 16; 4; 0; 6; 41; 35].
Proof.
  split; [reflexivity|].
  refine (proj2 (empty_sketch_image {| state := plain_empty; seed := 9001 |} _ eq_refl) eq_refl).
  apply plain_compress_spec. by left.
Defined.

End CpcBufferFacts.

(** ** HLL register array: the registers across a run of updates *)

Module HllRegisterFacts.
Import Bytes Hll FloatFacts HllFacts HllRegisters.

(** The first HIP increment of a new array, [k / (k + 0)] added to 0, for
    each of the eighteen sizes. *)
Lemma first_increment lgK :
  4 <= lgK <= 21 ->
  (0 + double_of_int (shl1 lgK) / (double_of_int (shl1 lgK) + 0))%float = 1%float.
Proof.
  intros Hk. replace lgK with (4 + Z.of_nat (Z.to_nat (lgK - 4))) by lia.
  assert (Hn : (Z.to_nat (lgK - 4) < 18)%nat) by lia.
  revert Hn. generalize (Z.to_nat (lgK - 4)). intros n Hn.
  do 18 (destruct n as [|n]; [vm_compute; reflexivity|]). lia.
Qed.

Section Registers.
Context `{HllUtil}.

Lemma hipAndKxQIncrementalUpdate_registers host o n :
  o < n ->
  exists host',
    hipAndKxQIncrementalUpdate host o n = Done host'
    /\ registers host' = registers host.
Proof.
  intros Hlt. unfold hipAndKxQIncrementalUpdate.
  apply Z.ltb_lt in Hlt. rewrite Hlt. cbn [negb].
  destruct (o <? 32)%Z, (n <? 32)%Z; eexists; (split; [reflexivity|done]).
Qed.

Lemma slot_of_lt h coupon :
  array_ok h -> (Z.to_nat (slot_of h coupon) < length (slots h))%nat.
Proof.
  intros [Hk Hlen _ _ _].
  pose proof (slot_in_range coupon (lgConfigK h) ltac:(lia)) as Hs.
  unfold slot_of. lia.
Qed.

Lemma getSlot_lookup h i :
  (Z.to_nat i < length (slots h))%nat -> slots h !! Z.to_nat i = Some (getSlot h i).
Proof.
  intros Hi. unfold getSlot.
  by destruct (lookup_lt_is_Some_2 _ _ Hi) as [v ->].
Qed.

(** What one [couponUpdate] does to a well-formed array. *)
Lemma couponUpdate_effect h coupon :
  array_ok h ->
  0 < getValue coupon ->
  exists h',
    couponUpdate h coupon = Done h'
    /\ array_ok h'
    /\ slots h' = <[Z.to_nat (slot_of h coupon) :=
                     Z.max (getSlot h (slot_of h coupon)) (getValue coupon)]> (slots h)
    /\ lgConfigK h' = lgConfigK h /\ tgtHllType h' = tgtHllType h
    /\ curMode h' = curMode h /\ curMin h' = curMin h /\ oooFlag h' = oooFlag h.
Proof.
  intros Hok Hpos.
  destruct (couponUpdate_step h coupon Hok) as [[Hle _] | (h' & Hd & Hok' & _)]; [lia|].
  exists h'. split; [exact Hd|]. split; [exact Hok'|].
  pose proof (slot_of_lt h coupon Hok) as Hi.
  pose proof (getSlot_lookup h _ Hi) as Hcur.
  unfold couponUpdate in Hd. fold (slot_of h coupon) in Hd.
  replace (0 <? getValue coupon)%Z with true in Hd by (symmetry; by apply Z.ltb_lt).
  cbn [negb] in Hd.
  destruct (getSlot h (slot_of h coupon) <? getValue coupon)%Z eqn:Hlt.
  - apply Z.ltb_lt in Hlt. rewrite Z.max_r by lia.
    destruct (hipAndKxQIncrementalUpdate_registers
                (putSlot h (slot_of h coupon) (getValue coupon)) _ _ Hlt)
      as (h1 & Hh & Hreg).
    rewrite Hh in Hd. injection Hreg as Hl Ht Hm Hc Hn Ho Hs.
    cbn [putSlot with_slots lgConfigK tgtHllType curMode curMin oooFlag slots] in *.
    destruct (getSlot h (slot_of h coupon) =? 0)%Z.
    + destruct (negb _) in Hd; [done|]. injection Hd as <-. done.
    + injection Hd as <-. done.
  - apply Z.ltb_ge in Hlt. injection Hd as <-.
    rewrite Z.max_l by lia. by rewrite list_insert_id.
Qed.

Lemma couponUpdate_positive h coupon h' :
  couponUpdate h coupon = Done h' -> 0 < getValue coupon.
Proof.
  unfold couponUpdate. destruct (0 <? getValue coupon)%Z eqn:Hpos; [|done].
  intros _. by apply Z.ltb_lt.
Qed.

(** One update takes a register that leaves 0 out of the count. *)
Lemma couponUpdate_numAtCurMin h coupon h' :
  array_ok h ->
  couponUpdate h coupon = Done h' ->
  numAtCurMin h'
  = (if getSlot h (slot_of h coupon) =? 0 then numAtCurMin h - 1 else numAtCurMin h).
Proof.
  intros Hok Hd. set (i := slot_of h coupon).
  pose proof (couponUpdate_positive _ _ _ Hd) as Hpos.
  destruct (couponUpdate_effect h coupon Hok Hpos) as (h1 & Hd1 & Hok1 & Hs & Hf).
  assert (h1 = h') as -> by congruence.
  rewrite (ok_numAtCurMin _ Hok1), (ok_numAtCurMin _ Hok), Hs.
  pose proof (getSlot_lookup h _ (slot_of_lt h coupon Hok)) as Hcur.
  rewrite (zero_slots_insert _ _ _ _ Hcur). fold i.
  assert (0 <= getSlot h i)
    by (eapply (Forall_lookup_1 _ _ _ _ (ok_values _ Hok) Hcur)).
  destruct (Z.eqb_spec (getSlot h i) 0), (Z.eqb_spec (Z.max (getSlot h i) (getValue coupon)) 0);
    lia.
Qed.

(** X8.  [couponUpdate] stores the larger of the register and the value of the
    coupon in the slot the coupon addresses, counts a register that leaves 0
    out of [numAtCurMin], and touches no other register and none of
    [lgConfigK], [tgtHllType], [curMode], [curMin] and [oooFlag]. *)
Theorem couponUpdate_keeps_larger_value h coupon h' :
  array_ok h ->
  couponUpdate h coupon = Done h' ->
  let i := slot_of h coupon in
  slots h' = <[Z.to_nat i := Z.max (getSlot h i) (getValue coupon)]> (slots h)
  /\ numAtCurMin h' = (if getSlot h i =? 0 then numAtCurMin h - 1 else numAtCurMin h)
  /\ lgConfigK h' = lgConfigK h /\ tgtHllType h' = tgtHllType h
  /\ curMode h' = curMode h /\ curMin h' = curMin h /\ oooFlag h' = oooFlag h.
Proof.
  intros Hok Hd i.
  pose proof (couponUpdate_positive _ _ _ Hd) as Hpos.
  destruct (couponUpdate_effect h coupon Hok Hpos) as (h1 & Hd1 & Hok1 & Hs & Hf).
  assert (h1 = h') as -> by congruence.
  split; [exact Hs|]. split; [|exact Hf].
  exact (couponUpdate_numAtCurMin h coupon h' Hok Hd).
Qed.

(** X9.  A coupon that was applied changes nothing when it is applied again,
    and neither does any coupon whose value is not above the register it
    addresses: the array returned is the array given, estimator members
    included. *)
Theorem couponUpdate_ignores_duplicates h coupon h' :
  array_ok h ->
  couponUpdate h coupon = Done h' ->
  couponUpdate h' coupon = Done h'
  /\ forall c, 0 < getValue c <= getSlot h' (slot_of h' c) -> couponUpdate h' c = Done h'.
Proof.
  intros Hok Hd.
  assert (Hle : forall g c, 0 < getValue c <= getSlot g (slot_of g c) ->
                            couponUpdate g c = Done g).
  { intros g c [Hp Hc]. unfold couponUpdate. fold (slot_of g c).
    replace (0 <? getValue c)%Z with true by (symmetry; by apply Z.ltb_lt).
    replace (getSlot g (slot_of g c) <? getValue c)%Z with false
      by (symmetry; by apply Z.ltb_ge).
    done. }
  split; [|apply Hle]. apply Hle.
  pose proof (couponUpdate_positive _ _ _ Hd) as Hpos. split; [done|].
  destruct (couponUpdate_effect h coupon Hok Hpos) as (h1 & Hd1 & Hok1 & Hs & Hl & _).
  assert (h1 = h') as -> by congruence.
  pose proof (slot_of_lt h coupon Hok) as Hi.
  assert (Hsl : slot_of h' coupon = slot_of h coupon) by (unfold slot_of; by rewrite Hl).
  rewrite Hsl. unfold getSlot at 1. rewrite Hs, list_lookup_insert_eq by done.
  cbn [default from_option id]. lia.
Qed.

(** X10.  The first coupon that a new array takes moves its HIP accumulator
    from 0 to exactly 1, the increment being [k / (kxq0 + kxq1) = k / (k + 0)],
    and takes one register out of [numAtCurMin]. *)
Theorem first_coupon_sets_hip_to_one lgK t coupon h :
  4 <= lgK <= 21 ->
  couponUpdate (newHll lgK t) coupon = Done h ->
  hipAccum h = 1%float
  /\ oooFlag h = false
  /\ numAtCurMin h = 2 ^ lgK - 1.
Proof.
  intros Hk Hd.
  pose proof (couponUpdate_positive _ _ _ Hd) as Hpos.
  unfold couponUpdate in Hd.
  replace (0 <? getValue coupon) with true in Hd by (symmetry; by apply Z.ltb_lt).
  cbn [negb] in Hd. set (i := Z.land _ _) in Hd.
  assert (Hcur : getSlot (newHll lgK t) i = 0).
  { unfold getSlot. cbn [newHll slots].
    destruct (replicate _ 0 !! Z.to_nat i) as [v|] eqn:Hl; [|done].
    by apply lookup_replicate in Hl as [-> _]. }
  rewrite Hcur in Hd.
  replace (0 <? getValue coupon) with true in Hd by (symmetry; by apply Z.ltb_lt).
  unfold hipAndKxQIncrementalUpdate in Hd.
  replace (0 <? getValue coupon) with true in Hd by (symmetry; by apply Z.ltb_lt).
  cbn [negb Z.eqb Z.ltb Z.compare] in Hd.
  assert (0 < 2 ^ lgK) by (apply Z.pow_pos_nonneg; lia).
  assert (2 ^ lgK <= 2 ^ 21) by (apply Z.pow_le_mono_r; lia).
  assert (Hn : to_int (shl1 lgK - 1) = 2 ^ lgK - 1)
    by (rewrite shl1_pow by lia; apply to_int_small; lia).
  destruct (getValue coupon <? 32);
    cbn [putSlot with_slots addToHipAccum putKxQ0 putKxQ1 decNumAtCurMin
         newHll lgConfigK hipAccum kxq0 kxq1 numAtCurMin] in Hd;
    rewrite Hn in Hd;
    (replace (0 <=? 2 ^ lgK - 1) with true in Hd by (symmetry; apply Z.leb_le; lia));
    cbn [negb] in Hd; injection Hd as <-;
    cbn [hipAccum oooFlag numAtCurMin]; (split; [by apply first_increment|done]).
Qed.

Lemma foldr_max_init a v l : foldr Z.max (Z.max a v) l = Z.max v (foldr Z.max a l).
Proof. induction l as [|x l IH]; cbn [foldr]; lia. Qed.

(** What a run of updates leaves in one register. *)
Lemma couponUpdates_lookup h coupons h' n :
  array_ok h ->
  couponUpdates h coupons = Done h' ->
  (n < length (slots h))%nat ->
  slots h' !! n = Some (foldr Z.max (default 0 (slots h !! n)) (values_for h n coupons)).
Proof.
  revert h. induction coupons as [|c cs IH]; intros h Hok Hrun Hn; cbn [couponUpdates] in Hrun.
  - injection Hrun as <-. cbn. by destruct (lookup_lt_is_Some_2 _ _ Hn) as [v ->].
  - destruct (couponUpdate h c) as [h1|] eqn:Hd; [|done].
    pose proof (couponUpdate_positive _ _ _ Hd) as Hpos.
    destruct (couponUpdate_effect h c Hok Hpos) as (h2 & Hd2 & Hok1 & Hs & Hl & _).
    assert (h2 = h1) as -> by congruence.
    assert (Hlen : length (slots h1) = length (slots h)) by (by rewrite Hs, length_insert).
    rewrite (IH h1 Hok1 Hrun) by lia.
    assert (Hv : values_for h1 n cs = values_for h n cs)
      by (unfold values_for, slot_of; by rewrite Hl).
    rewrite Hv. unfold values_for at 2. rewrite filter_cons.
    pose proof (getSlot_lookup h _ (slot_of_lt h c Hok)) as Hcur.
    case_decide as Hc; cbn [map foldr]; fold (values_for h n cs).
    + subst n. rewrite Hs, list_lookup_insert_eq by done. rewrite Hcur. cbn [default from_option id].
      by rewrite foldr_max_init.
    + by rewrite Hs, list_lookup_insert_ne.
Qed.

(** X11.  After a run of [couponUpdate] calls the array has as many registers
    as before, and every register holds the maximum of what it held before
    and the values of the coupons that addressed it. *)
Theorem registers_hold_maximum h coupons h' :
  array_ok h ->
  couponUpdates h coupons = Done h' ->
  length (slots h') = length (slots h)
  /\ forall n,
       (n < length (slots h))%nat ->
       slots h' !! n
       = Some (foldr Z.max (default 0 (slots h !! n)) (values_for h n coupons)).
Proof.
  intros Hok Hrun. split.
  - destruct (couponUpdates_ok _ _ _ Hok Hrun) as (Hok' & Hl & _).
    pose proof (ok_length _ Hok) as L. pose proof (ok_length _ Hok') as L'.
    rewrite Hl in L'. lia.
  - intros n Hn. by apply couponUpdates_lookup.
Qed.

Lemma couponUpdates_succeed h coupons :
  array_ok h ->
  Forall (fun c => 0 < getValue c) coupons ->
  exists h', couponUpdates h coupons = Done h'.
Proof.
  intros Hok Hall. revert h Hok.
  induction Hall as [|c cs Hc _ IH]; intros h Hok; cbn [couponUpdates]; [eauto|].
  destruct (couponUpdate_effect h c Hok Hc) as (h1 & -> & Hok1 & _). by apply IH.
Qed.

Lemma couponUpdates_positive h coupons h' :
  couponUpdates h coupons = Done h' -> Forall (fun c => 0 < getValue c) coupons.
Proof.
  revert h. induction coupons as [|c cs IH]; intros h Hrun; [constructor|].
  cbn [couponUpdates] in Hrun. destruct (couponUpdate h c) as [h1|] eqn:Hd; [|done].
  constructor; [by eapply couponUpdate_positive|by eapply IH].
Qed.

Lemma couponUpdates_frame h coupons h' :
  couponUpdates h coupons = Done h' ->
  lgConfigK h' = lgConfigK h /\ tgtHllType h' = tgtHllType h
  /\ curMode h' = curMode h /\ curMin h' = curMin h /\ oooFlag h' = oooFlag h.
Proof.
  revert h. induction coupons as [|c cs IH]; intros h Hrun; cbn [couponUpdates] in Hrun.
  - by injection Hrun as <-.
  - destruct (couponUpdate h c) as [h1|] eqn:Hd; [|done].
    destruct (IH _ Hrun) as (-> & -> & -> & -> & ->).
    unfold couponUpdate in Hd.
    destruct (negb (0 <? getValue c)%Z); [done|].
    set (i := Z.land _ _) in Hd.
    destruct (getSlot h i <? getValue c)%Z eqn:Hlt; [|by injection Hd as <-].
    apply Z.ltb_lt in Hlt.
    destruct (hipAndKxQIncrementalUpdate_registers (putSlot h i (getValue c)) _ _ Hlt)
      as (h2 & Hh & Hreg).
    rewrite Hh in Hd. injection Hreg as Hl Ht Hm Hc Hn Ho Hs.
    cbn [putSlot with_slots lgConfigK tgtHllType curMode curMin oooFlag] in *.
    destruct (getSlot h i =? 0)%Z; [destruct (negb _) in Hd; [done|]|];
      by injection Hd as <-.
Qed.

(** X12.  The registers and the count [numAtCurMin] that a run of
    [couponUpdate] calls leaves do not depend on the order of the coupons. *)
Theorem coupon_order_is_immaterial h coupons coupons' h1 :
  array_ok h ->
  coupons ≡ₚ coupons' ->
  couponUpdates h coupons = Done h1 ->
  exists h2,
    couponUpdates h coupons' = Done h2
    /\ slots h2 = slots h1
    /\ numAtCurMin h2 = numAtCurMin h1
    /\ isEmpty h2 = isEmpty h1.
Proof.
  intros Hok Hperm Hrun.
  pose proof (couponUpdates_positive _ _ _ Hrun) as Hpos.
  rewrite Hperm in Hpos.
  destruct (couponUpdates_succeed h coupons' Hok Hpos) as (h2 & Hrun2).
  exists h2. split; [exact Hrun2|].
  destruct (couponUpdates_ok _ _ _ Hok Hrun) as (Hok1 & Hl1 & _).
  destruct (couponUpdates_ok _ _ _ Hok Hrun2) as (Hok2 & Hl2 & _).
  assert (Hs : slots h2 = slots h1).
  { apply list_eq. intros n.
    destruct (decide (n < length (slots h))%nat) as [Hn|Hn].
    - rewrite (couponUpdates_lookup _ _ _ n Hok Hrun Hn),
        (couponUpdates_lookup _ _ _ n Hok Hrun2 Hn).
      f_equal. unfold values_for.
      apply (foldr_permutation_proper eq Z.max); [solve_proper|intros; lia|].
      apply Permutation_map. by rewrite Hperm.
    - assert (Hlen : forall g, array_ok g -> lgConfigK g = lgConfigK h ->
                               length (slots g) = length (slots h)).
      { intros g Hg Hlg. pose proof (ok_length _ Hg). pose proof (ok_length _ Hok).
        rewrite Hlg in *. lia. }
      rewrite !lookup_ge_None_2; [done| |]; rewrite Hlen by done; lia. }
  split; [exact Hs|].
  assert (Hn : numAtCurMin h2 = numAtCurMin h1)
    by (by rewrite (ok_numAtCurMin _ Hok1), (ok_numAtCurMin _ Hok2), Hs).
  split; [exact Hn|].
  unfold isEmpty. by rewrite Hn, Hl1, Hl2, (ok_curMin _ Hok1), (ok_curMin _ Hok2).
Qed.

End Registers.

(** X13.  [couponUpdate] never raises the out-of-order flag: an HLL_6 or
    HLL_8 array made by the constructor and moved by [couponUpdate] only is
    in HLL mode with [curMin = 0], and its estimate is the HIP accumulator. *)
Theorem constructed_array_estimate_is_hip `{HllUtil} `{HllTables} lgK t coupons h :
  t <> HLL_4 ->
  couponUpdates (newHll lgK t) coupons = Done h ->
  getEstimate h = hipAccum h
  /\ oooFlag h = false /\ curMin h = 0 /\ curMode h = HLL
  /\ tgtHllType h = t /\ lgConfigK h = lgK.
Proof.
  intros _ Hrun. destruct (couponUpdates_frame _ _ _ Hrun) as (Hl & Ht & Hm & Hc & Ho).
  cbn [newHll lgConfigK tgtHllType curMode curMin oooFlag] in *.
  unfold getEstimate. by rewrite Ho.
Qed.

#[local] Existing Instance sample_util.

Lemma couponUpdate_keeps_larger_value_witness :
  exists h',
    couponUpdate (newHll 4 HLL_8) (3 * 2 ^ 26 + 5) = Done h'
    /\ slots h' = <[5%nat := 3]> (replicate 16 0)
    /\ numAtCurMin h' = 15.
Proof.
  assert (Hd : exists h', couponUpdate (newHll 4 HLL_8) (3 * 2 ^ 26 + 5) = Done h')
    by (eexists; vm_compute; reflexivity).
  destruct Hd as (h' & Hd). exists h'. split; [exact Hd|].
  destruct (couponUpdate_keeps_larger_value _ _ _ (newHll_ok 4 HLL_8 ltac:(lia)) Hd)
    as (Hs & Hn & _).
  split; [rewrite Hs|rewrite Hn]; vm_compute; reflexivity.
Defined.

Lemma couponUpdate_ignores_duplicates_witness :
  exists h',
    couponUpdate (newHll 4 HLL_8) (3 * 2 ^ 26 + 5) = Done h'
    /\ couponUpdate h' (3 * 2 ^ 26 + 5) = Done h'.
Proof.
  assert (Hd : exists h', couponUpdate (newHll 4 HLL_8) (3 * 2 ^ 26 + 5) = Done h')
    by (eexists; vm_compute; reflexivity).
  destruct Hd as (h' & Hd). exists h'. split; [exact Hd|].
  exact (proj1 (couponUpdate_ignores_duplicates _ _ _ (newHll_ok 4 HLL_8 ltac:(lia)) Hd)).
Defined.

Lemma registers_hold_maximum_witness :
  exists h',
    couponUpdates (newHll 4 HLL_8) [3 * 2 ^ 26 + 5; 7 * 2 ^ 26 + 5; 2 * 2 ^ 26 + 9] = Done h'
    /\ (5 < length (slots (newHll 4 HLL_8)))%nat
    /\ slots h' !! 5%nat = Some 7.
Proof.
  assert (Hd : exists h', couponUpdates (newHll 4 HLL_8)
                            [3 * 2 ^ 26 + 5; 7 * 2 ^ 26 + 5; 2 * 2 ^ 26 + 9] = Done h')
    by (eexists; vm_compute; reflexivity).
  destruct Hd as (h' & Hd). exists h'. split; [exact Hd|].
  assert (Hn : (5 < length (slots (newHll 4 HLL_8)))%nat) by (vm_compute; lia).
  split; [exact Hn|].
  destruct (registers_hold_maximum _ _ _ (newHll_ok 4 HLL_8 ltac:(lia)) Hd) as [_ Hr].
  rewrite (Hr 5%nat Hn). vm_compute. reflexivity.
Defined.

Lemma coupon_order_is_immaterial_witness :
  exists h1 h2,
    couponUpdates (newHll 4 HLL_8) [3 * 2 ^ 26 + 5; 7 * 2 ^ 26 + 5] = Done h1
    /\ couponUpdates (newHll 4 HLL_8) [7 * 2 ^ 26 + 5; 3 * 2 ^ 26 + 5] = Done h2
    /\ slots h2 = slots h1
    /\ numAtCurMin h2 = numAtCurMin h1.
Proof.
  assert (Hd : exists h1, couponUpdates (newHll 4 HLL_8)
                            [3 * 2 ^ 26 + 5; 7 * 2 ^ 26 + 5] = Done h1)
    by (eexists; vm_compute; reflexivity).
  destruct Hd as (h1 & Hd). exists h1.
  destruct (coupon_order_is_immaterial _ _ [7 * 2 ^ 26 + 5; 3 * 2 ^ 26 + 5] _
              (newHll_ok 4 HLL_8 ltac:(lia)) (perm_swap _ _ _) Hd)
    as (h2 & Hd2 & Hs & Hn & _).
  exists h2. done.
Defined.

Lemma constructed_array_estimate_is_hip_witness :
  exists h,
    couponUpdates (newHll 4 HLL_8) [3 * 2 ^ 26 + 5; 7 * 2 ^ 26 + 9] = Done h
    /\ getEstimate (H := sample_tables) h = hipAccum h.
Proof.
  assert (Hd : exists h, couponUpdates (newHll 4 HLL_8)
                           [3 * 2 ^ 26 + 5; 7 * 2 ^ 26 + 9] = Done h)
    by (eexists; vm_compute; reflexivity).
  destruct Hd as (h & Hd). exists h. split; [exact Hd|].
  exact (proj1 (constructed_array_estimate_is_hip (H0 := sample_tables) 4 HLL_8 _ h
                  ltac:(discriminate) Hd)).
Defined.

Section Count.
Context `{HllUtil}.

Lemma couponUpdates_app h cs cs' :
  couponUpdates h (cs ++ cs') =
  match couponUpdates h cs with
  | Done h' => couponUpdates h' cs'
  | Failed a => Failed a
  end.
Proof.
  revert h. induction cs as [|c cs IH]; intros h; cbn [app couponUpdates]; [done|].
  destruct (couponUpdate h c); [apply IH|done].
Qed.

Lemma values_for_zero h n coupons :
  Forall (fun c => 0 < getValue c) coupons ->
  foldr Z.max 0 (values_for h n coupons) = 0 <-> n ∉ slots_hit h coupons.
Proof.
  unfold values_for, slots_hit. rewrite elem_of_remove_dups.
  induction 1 as [|x xs Hx _ IH]; cbn [map foldr].
  - split; [intros _; apply not_elem_of_nil|done].
  - rewrite filter_cons, not_elem_of_cons.
    case_decide as Hc; cbn [map foldr].
    + split; [|intros [? _]; congruence].
      intros Hm. exfalso.
      assert (0 <= foldr Z.max 0
                (map getValue (filter (fun c => Z.to_nat (slot_of h c) = n) xs))); [|lia].
      clear. induction (filter _ xs) as [|y ys IHy]; cbn [map foldr]; lia.
    + rewrite IH. split; [intros ?; split; [congruence|done]|by intros [_ ?]].
Qed.

Lemma remove_dups_snoc_length (l : list nat) i :
  length (remove_dups (l ++ [i]))
  = (length (remove_dups l) + if decide (i ∈ l) then 0 else 1)%nat.
Proof.
  induction l as [|x l IH]; cbn [app remove_dups];
    repeat case_decide; cbn [length]; rewrite ?IH; repeat case_decide;
    first
      [ lia
      | exfalso;
        repeat match goal with
               | H : _ |- _ =>
                   first [rewrite elem_of_app in H | rewrite elem_of_cons in H
                         | rewrite elem_of_nil in H]
               end;
        intuition congruence ].
Qed.

Lemma slots_hit_snoc h cs c :
  length (slots_hit h (cs ++ [c])) =
  (length (slots_hit h cs)
   + if decide (Z.to_nat (slot_of h c) ∈ slots_hit h cs) then 0 else 1)%nat.
Proof.
  unfold slots_hit. rewrite map_app. cbn [map]. rewrite remove_dups_snoc_length.
  f_equal. repeat case_decide; try done; by rewrite elem_of_remove_dups in *.
Qed.

(** The count of registers at 0 after a run of updates on a new array. *)
Lemma couponUpdates_numAtCurMin lgK t coupons h :
  4 <= lgK <= 21 ->
  couponUpdates (newHll lgK t) coupons = Done h ->
  numAtCurMin h = 2 ^ lgK - Z.of_nat (length (slots_hit (newHll lgK t) coupons)).
Proof.
  intros Hk. revert h.
  induction coupons as [|c cs IH] using rev_ind; intros h Hrun.
  - injection Hrun as <-. cbn [newHll numAtCurMin]. rewrite shl1_pow by lia.
    cbn. lia.
  - rewrite couponUpdates_app in Hrun.
    destruct (couponUpdates (newHll lgK t) cs) as [h1|] eqn:Hcs; [|done].
    specialize (IH h1 eq_refl). cbn [couponUpdates] in Hrun.
    destruct (couponUpdate h1 c) as [h2|] eqn:Hd; [|done]. injection Hrun as ->.
    pose proof (newHll_ok lgK t Hk) as Hok0.
    destruct (couponUpdates_ok _ _ _ Hok0 Hcs) as (Hok1 & Hl1 & _).
    pose proof (couponUpdate_numAtCurMin h1 c h Hok1 Hd) as Hn.
    rewrite Hn, IH, slots_hit_snoc.
    assert (Hslot : slot_of h1 c = slot_of (newHll lgK t) c)
      by (unfold slot_of; by rewrite Hl1).
    rewrite Hslot. set (i := slot_of (newHll lgK t) c).
    pose proof (slot_of_lt (newHll lgK t) c Hok0) as Hi. fold i in Hi.
    assert (Hreg := couponUpdates_lookup _ _ _ (Z.to_nat i) Hok0 Hcs Hi).
    assert (Hzero : default 0 (slots (newHll lgK t) !! Z.to_nat i) = 0).
    { cbn [newHll slots] in Hi |- *. rewrite length_replicate in Hi.
      by rewrite lookup_replicate_2. }
    rewrite Hzero in Hreg.
    assert (Hget : getSlot h1 i = foldr Z.max 0 (values_for (newHll lgK t) (Z.to_nat i) cs))
      by (unfold getSlot; by rewrite Hreg).
    pose proof (values_for_zero (newHll lgK t) (Z.to_nat i) cs
                  (couponUpdates_positive _ _ _ Hcs)) as Hiff.
    rewrite <- Hget in Hiff.
    destruct (Z.eqb_spec (getSlot h1 i) 0) as [Hz|Hz]; case_decide as Hin; try lia.
    + by apply Hiff in Hz.
    + by apply Hiff in Hin.
Qed.

(** X14.  On an HLL_6 or HLL_8 array made by the constructor and moved by
    [couponUpdate] only, [numAtCurMin] is the number of registers that no
    coupon addressed: the number of registers less the number of distinct
    slots hit.  Such an array is empty only when no coupon was applied. *)
Theorem numAtCurMin_counts_untouched_slots lgK t coupons h :
  4 <= lgK <= 21 ->
  t <> HLL_4 ->
  couponUpdates (newHll lgK t) coupons = Done h ->
  numAtCurMin h = 2 ^ lgK - Z.of_nat (length (slots_hit (newHll lgK t) coupons))
  /\ (isEmpty h = true <-> coupons = []).
Proof.
  intros Hk _ Hrun.
  pose proof (couponUpdates_numAtCurMin lgK t coupons h Hk Hrun) as Hn.
  split; [exact Hn|].
  destruct (couponUpdates_frame _ _ _ Hrun) as (Hl & _ & _ & Hm & _).
  cbn [newHll lgConfigK curMin] in Hl, Hm.
  unfold isEmpty. rewrite Hm, Hl, Hn, shl1_pow by lia. cbn [Z.eqb andb].
  rewrite Z.eqb_eq.
  destruct coupons as [|c cs]; [split; [done|intros _; cbn; lia]|].
  split; [|done]. intros Hz.
  assert (Hin : Z.to_nat (slot_of (newHll lgK t) c) ∈ slots_hit (newHll lgK t) (c :: cs))
    by (unfold slots_hit; rewrite elem_of_remove_dups; cbn [map]; left).
  destruct (slots_hit (newHll lgK t) (c :: cs)); [by apply elem_of_nil in Hin|].
  cbn [length] in Hz. lia.
Qed.

End Count.

(** X15.  The lower bound of an array made by the constructor and moved by
    [couponUpdate] only is at least the number of distinct slots that the
    coupons addressed. *)
Theorem lower_bound_covers_slots_hit `{HllUtil} `{HllTables} lgK t coupons h numStdDev :
  4 <= lgK <= 21 ->
  couponUpdates (newHll lgK t) coupons = Done h ->
  checkNumStdDev numStdDev = true ->
  exists lb,
    getLowerBound h numStdDev = Some lb
    /\ (double_of_int (Z.of_nat (length (slots_hit (newHll lgK t) coupons))) <=? lb)%float
       = true.
Proof.
  intros Hk Hrun Hc.
  pose proof (couponUpdates_numAtCurMin lgK t coupons h Hk Hrun) as Hn.
  destruct (couponUpdates_frame _ _ _ Hrun) as (Hl & _ & _ & Hm & _).
  destruct (couponUpdates_ok _ _ _ (newHll_ok lgK t Hk) Hrun) as (Hok & _ & _).
  cbn [newHll lgConfigK curMin] in Hl, Hm.
  pose proof (zero_slots_bounds (slots h)) as Hz.
  rewrite <- (ok_numAtCurMin _ Hok) in Hz.
  assert (2 ^ lgK <= 2 ^ 21) by (apply Z.pow_le_mono_r; lia).
  unfold getLowerBound. rewrite Hc. cbn [negb].
  assert (Hnz : numNonZeros h
                = double_of_int (Z.of_nat (length (slots_hit (newHll lgK t) coupons)))).
  { unfold numNonZeros. rewrite Hm, Hl. cbn [Z.eqb]. rewrite shl1_pow by lia.
    f_equal. rewrite to_int_small by lia. lia. }
  rewrite <- Hnz.
  destruct (oooFlag h); (eexists; split; [reflexivity|]);
    apply fmax_ge_r, double_of_int_not_nan.
Qed.

Lemma numAtCurMin_counts_untouched_slots_witness :
  exists h,
    couponUpdates (newHll 4 HLL_8) [3 * 2 ^ 26 + 5; 7 * 2 ^ 26 + 5; 2 * 2 ^ 26 + 9] = Done h
    /\ numAtCurMin h = 14.
Proof.
  assert (Hd : exists h, couponUpdates (newHll 4 HLL_8)
                           [3 * 2 ^ 26 + 5; 7 * 2 ^ 26 + 5; 2 * 2 ^ 26 + 9] = Done h)
    by (eexists; vm_compute; reflexivity).
  destruct Hd as (h & Hd). exists h. split; [exact Hd|].
  destruct (numAtCurMin_counts_untouched_slots 4 HLL_8 _ h ltac:(lia) ltac:(discriminate) Hd)
    as [-> _].
  vm_compute. reflexivity.
Defined.

Lemma first_coupon_sets_hip_to_one_witness :
  exists h,
    couponUpdate (newHll 4 HLL_8) (3 * 2 ^ 26 + 5) = Done h
    /\ hipAccum h = 1%float /\ numAtCurMin h = 15.
Proof.
  assert (Hd : exists h, couponUpdate (newHll 4 HLL_8) (3 * 2 ^ 26 + 5) = Done h)
    by (eexists; vm_compute; reflexivity).
  destruct Hd as (h & Hd). exists h. split; [exact Hd|].
  destruct (first_coupon_sets_hip_to_one 4 HLL_8 _ h ltac:(lia) Hd) as (Ha & _ & Hn).
  split; [exact Ha|exact Hn].
Defined.

Lemma lower_bound_covers_slots_hit_witness :
  exists h lb,
    couponUpdates (newHll 4 HLL_8) [3 * 2 ^ 26 + 5; 7 * 2 ^ 26 + 5; 2 * 2 ^ 26 + 9] = Done h
    /\ getLowerBound (H := sample_tables) h 2 = Some lb
    /\ (2 <=? lb)%float = true.
Proof.
  assert (Hd : exists h, couponUpdates (newHll 4 HLL_8)
                           [3 * 2 ^ 26 + 5; 7 * 2 ^ 26 + 5; 2 * 2 ^ 26 + 9] = Done h)
    by (eexists; vm_compute; reflexivity).
  destruct Hd as (h & Hd).
  destruct (lower_bound_covers_slots_hit (H0 := sample_tables) 4 HLL_8 _ h 2
              ltac:(lia) Hd eq_refl) as (lb & Hlb & Hle).
  exists h, lb. split; [exact Hd|]. split; [exact Hlb|exact Hle].
Defined.

End HllRegisterFacts.

(** ** The eight bytes of a [double] *)

Module Binary64Facts.
Import Binary64.

Lemma digits2_pos_bounds m :
  2 ^ (Z.pos (digits2_pos m) - 1) <= Z.pos m < 2 ^ Z.pos (digits2_pos m).
Proof.
  induction m as [m IH|m IH|]; cbn [digits2_pos]; [| |by vm_compute].
  all: rewrite Pos2Z.inj_succ;
       replace (Z.succ (Z.pos (digits2_pos m)) - 1) with (Z.succ (Z.pos (digits2_pos m) - 1)) by lia;
       rewrite !Z.pow_succ_r by lia; lia.
Qed.

Lemma bits_of_double_range f : 0 <= bits_of_double f < 2 ^ 64.
Proof.
  unfold bits_of_double. pose proof (Prim2SF_valid f) as Hv.
  destruct (Prim2SF f) as [s|s| |s m e]; [destruct s; lia|destruct s; lia|lia|].
  unfold SpecFloat.valid_binary, bounded, canonical_mantissa, fexp, emin in Hv.
  apply andb_prop in Hv as [Hc He].
  apply Z.eqb_eq in Hc. apply Z.leb_le in He.
  change prec with 53 in *. change emax with 1024 in *.
  pose proof (digits2_pos_bounds m) as Hd.
  destruct (Z.ltb_spec (Z.pos m) (2 ^ 52)); [destruct s; lia|].
  assert (Z.pos (digits2_pos m) = 53).
  { destruct (Z.lt_trichotomy (Z.pos (digits2_pos m)) 53) as [Hlt|[?|Hgt]]; [|done|lia].
    assert (2 ^ Z.pos (digits2_pos m) <= 2 ^ 52) by (apply Z.pow_le_mono_r; lia). lia. }
  replace (Z.pos (digits2_pos m)) with 53 in *.
  change (2 ^ 53) with (2 * 2 ^ 52) in Hd. destruct s; nia.
Qed.

(** A [double] is the value of its bits. *)
Lemma double_of_bits_of_double f : double_of_bits (bits_of_double f) = f.
Proof.
  rewrite <- (SF2Prim_Prim2SF f) at 2.
  unfold double_of_bits, bits_of_double. f_equal.
  pose proof (Prim2SF_valid f) as Hv.
  destruct (Prim2SF f) as [s|s| |s m e].
  - by destruct s.
  - by destruct s.
  - done.
  - unfold SpecFloat.valid_binary, bounded, canonical_mantissa, fexp, emin in Hv.
    apply andb_prop in Hv as [Hc He].
    apply Z.eqb_eq in Hc. apply Z.leb_le in He.
    change prec with 53 in *. change emax with 1024 in *.
    pose proof (digits2_pos_bounds m) as Hd.
    set (sb := if s then 2 ^ 63 else 0).
    assert (Hsb : sb = (if s then 2 ^ 11 else 0) * 2 ^ 52) by (by destruct s).
    destruct (Z.ltb_spec (Z.pos m) (2 ^ 52)) as [Hsub|Hnorm].
    + assert (He' : e = -1074).
      { assert (Z.pos (digits2_pos m) <= 52); [|lia].
        destruct (Z.le_gt_cases (Z.pos (digits2_pos m)) 52) as [|Hgt]; [done|].
        assert (2 ^ 52 <= 2 ^ (Z.pos (digits2_pos m) - 1))
          by (apply Z.pow_le_mono_r; lia). lia. }
      subst e.
      assert (Hdiv : (sb + Z.pos m) / 2 ^ 52 = if s then 2 ^ 11 else 0).
      { rewrite Hsb, Z.add_comm, Z.div_add by lia. rewrite Z.div_small by lia. lia. }
      assert (Hmod : (sb + Z.pos m) mod 2 ^ 52 = Z.pos m).
      { rewrite Hsb, Z.add_comm, Z.mod_add by lia. apply Z.mod_small. lia. }
      rewrite Hdiv, Hmod.
      replace ((if s then 2 ^ 11 else 0) mod 2048 =? 0) with true by (by destruct s).
      replace (Z.pos m =? 0) with false by (symmetry; apply Z.eqb_neq; lia).
      rewrite Pos2Z.id. f_equal.
      destruct s; [apply Z.leb_le|apply Z.leb_gt]; subst sb; lia.
    + assert (Hd53 : Z.pos (digits2_pos m) = 53).
      { destruct (Z.lt_trichotomy (Z.pos (digits2_pos m)) 53) as [Hlt|[?|Hgt]]; [|done|lia].
        assert (2 ^ Z.pos (digits2_pos m) <= 2 ^ 52) by (apply Z.pow_le_mono_r; lia). lia. }
      rewrite Hd53 in *. change (2 ^ 53) with (2 * 2 ^ 52) in Hd.
      assert (Hfrac : 0 <= Z.pos m - 2 ^ 52 < 2 ^ 52) by lia.
      assert (Hexp : 1 <= e + 1075 <= 2046) by lia.
      replace (sb + ((e + 1075) * 2 ^ 52 + (Z.pos m - 2 ^ 52)))
        with ((Z.pos m - 2 ^ 52) + ((if s then 2 ^ 11 else 0) + (e + 1075)) * 2 ^ 52)
        by (rewrite Hsb; lia).
      rewrite Z.div_add, Z.mod_add by lia.
      rewrite (Z.div_small (Z.pos m - 2 ^ 52)), (Z.mod_small (Z.pos m - 2 ^ 52)) by lia.
      assert (Hem : (0 + ((if s then 2 ^ 11 else 0) + (e + 1075))) mod 2048 = e + 1075).
      { destruct s; [|apply Z.mod_small; lia].
        change (2 ^ 11) with (1 * 2048). rewrite Z.add_0_l, <- Z.add_comm, Z.mod_add by lia.
        apply Z.mod_small. lia. }
      rewrite Hem.
      replace (e + 1075 =? 0) with false by (symmetry; apply Z.eqb_neq; lia).
      replace (e + 1075 =? 2047) with false by (symmetry; apply Z.eqb_neq; lia).
      replace (Z.pos m - 2 ^ 52 + 2 ^ 52) with (Z.pos m) by lia.
      replace (e + 1075 - 1075) with e by lia.
      rewrite Pos2Z.id. f_equal.
      destruct s; [apply Z.leb_le|apply Z.leb_gt]; lia.
Qed.

End Binary64Facts.

(** ** Exact binary64 sums *)

Module DoubleValueFacts.
Import DoubleValue Binary64Facts.

Lemma digits2_pos_unique m k :
  2 ^ (k - 1) <= Z.pos m < 2 ^ k -> Z.pos (digits2_pos m) = k.
Proof.
  intros [Hl Hu]. pose proof (digits2_pos_bounds m) as [Bl Bu].
  assert (0 < k).
  { destruct (Z.lt_ge_cases 0 k) as [|Hk]; [done|].
    assert (2 ^ k <= 2 ^ 0) by (destruct (Z.eq_dec k 0) as [->|];
      [done|rewrite Z.pow_neg_r by lia; done]).
    change (2 ^ 0) with 1 in *. lia. }
  destruct (Z.lt_trichotomy (Z.pos (digits2_pos m)) k) as [Hlt|[Heq|Hgt]]; [|done|].
  - assert (2 ^ Z.pos (digits2_pos m) <= 2 ^ (k - 1)) by (apply Z.pow_le_mono_r; lia). lia.
  - assert (2 ^ k <= 2 ^ (Z.pos (digits2_pos m) - 1)) by (apply Z.pow_le_mono_r; lia). lia.
Qed.

Lemma iter_xO m p : Z.pos (Pos.iter xO m p) = Z.pos m * 2 ^ Z.pos p.
Proof.
  induction p as [|p IH] using Pos.peano_ind.
  - cbn [Pos.iter]. lia.
  - rewrite Pos.iter_succ, Pos2Z.inj_succ, Z.pow_succ_r by lia.
    rewrite Pos2Z.inj_xO, IH. lia.
Qed.

Lemma iter_pos_nat {A} (f : A -> A) p x :
  SpecFloat.iter_pos f p x = Nat.iter (Pos.to_nat p) f x.
Proof.
  revert x. induction p as [p IH|p IH|]; intros x; cbn [SpecFloat.iter_pos].
  - rewrite !IH, Pos2Nat.inj_xI.
    replace (S (2 * Pos.to_nat p)) with (Pos.to_nat p + S (Pos.to_nat p))%nat by lia.
    by rewrite Nat.iter_add, Nat.iter_succ_r.
  - rewrite !IH, Pos2Nat.inj_xO.
    replace (2 * Pos.to_nat p)%nat with (Pos.to_nat p + Pos.to_nat p)%nat by lia.
    by rewrite Nat.iter_add.
  - done.
Qed.

(** Shifting out zero bits leaves an exact location. *)
Lemma iter_shr_1_exact n m :
  0 < m -> (2 ^ Z.of_nat n | m) ->
  Nat.iter n shr_1 {| shr_m := m; shr_r := false; shr_s := false |}
  = {| shr_m := m / 2 ^ Z.of_nat n; shr_r := false; shr_s := false |}.
Proof.
  intros Hm. induction n as [|n IH]; intros Hd.
  - cbn. by rewrite Z.div_1_r.
  - rewrite Nat.iter_succ, IH.
    + rewrite Nat2Z.inj_succ, Z.pow_succ_r in * by lia.
      destruct Hd as [q ->].
      replace (q * (2 * 2 ^ Z.of_nat n)) with ((2 * q) * 2 ^ Z.of_nat n) by lia.
      assert (0 < 2 ^ Z.of_nat n) by (apply Z.pow_pos_nonneg; lia).
      rewrite Z.div_mul by lia.
      replace (2 * q * 2 ^ Z.of_nat n / (2 * 2 ^ Z.of_nat n)) with q
        by (replace (2 * q * 2 ^ Z.of_nat n) with (q * (2 * 2 ^ Z.of_nat n)) by lia;
            by rewrite Z.div_mul by lia).
      assert (0 < q) by nia.
      destruct q as [|q|q]; [lia| |lia]. done.
    + rewrite Nat2Z.inj_succ, Z.pow_succ_r in Hd by lia.
      destruct Hd as [q ->]. exists (q * 2). lia.
Qed.

Lemma fexp_eq e : fexp prec emax e = Z.max (e - 53) (-1074).
Proof. done. Qed.

(** [binary_round] of a number that binary64 holds is exact. *)
Lemma binary_round_exact s m e K g :
  -1074 <= e -> -1074 <= g <= 971 -> 0 < K < 2 ^ 53 ->
  Z.pos m * 2 ^ (e + 1074) = K * 2 ^ (g + 1074) ->
  exists m' e',
    binary_round prec emax s m e = S754_finite s m' e'
    /\ Z.pos m' * 2 ^ (e' + 1074) = Z.pos m * 2 ^ (e + 1074).
Proof.
  intros He Hg HK Hv.
  pose proof (digits2_pos_bounds m) as [Bl Bu].
  set (d := Z.pos (digits2_pos m)) in *.
  assert (Hd : 0 < d) by done.
  set (c := fexp prec emax (d + e)).
  assert (Hc : c = Z.max (d + e - 53) (-1074)) by apply fexp_eq.
  assert (Hcg : c <= g).
  { assert (2 ^ (d - 1 + (e + 1074)) < 2 ^ (53 + (g + 1074))).
    { rewrite (Z.pow_add_r 2 (d - 1)), (Z.pow_add_r 2 53) by lia.
      assert (0 < 2 ^ (e + 1074)) by (apply Z.pow_pos_nonneg; lia).
      assert (0 < 2 ^ (g + 1074)) by (apply Z.pow_pos_nonneg; lia).
      apply Z.le_lt_trans with (Z.pos m * 2 ^ (e + 1074));
        [apply Z.mul_le_mono_nonneg_r; lia|].
      rewrite Hv. apply Z.mul_lt_mono_pos_r; [done|apply HK]. }
    assert (d - 1 + (e + 1074) < 53 + (g + 1074)) by (apply (Z.pow_lt_mono_r_iff 2); lia).
    lia. }
  unfold binary_round. fold d c.
  assert (Hfin : forall mz,
            Z.pos (digits2_pos mz) + c = d + e ->
            binary_round_aux prec emax s (Z.pos mz) c loc_Exact = S754_finite s mz c).
  { intros mz Hmz. unfold binary_round_aux, shr_fexp. cbn [Zdigits2 shr_record_of_loc].
    rewrite Hmz. fold c. rewrite Z.sub_diag. cbn [shr shr_m loc_of_shr_record round_nearest_even].
    cbn [Zdigits2 shr_record_of_loc]. rewrite Hmz. fold c. rewrite Z.sub_diag.
    cbn [shr shr_m].
    replace (c <=? emax - prec) with true; [done|].
    symmetry. apply Z.leb_le. change (emax - prec) with 971. lia. }
  destruct (Z.compare_spec c e) as [Heq|Hlt|Hgt].
  - (* already at the canonical exponent *)
    unfold shl_align. rewrite Heq, Z.sub_diag. rewrite <- Heq.
    exists m, c. split; [apply Hfin; fold d; lia|]. by rewrite Heq.
  - (* shifted to the left *)
    unfold shl_align. destruct (c - e) as [|p|p] eqn:Hp; [lia|lia|].
    assert (Hpe : Z.pos p = e - c) by lia.
    exists (Pos.iter xO m p), c. split.
    + apply Hfin. rewrite (digits2_pos_unique _ (d + Z.pos p)); [lia|].
      rewrite iter_xO. replace (d + Z.pos p - 1) with (d - 1 + Z.pos p) by lia.
      rewrite !Z.pow_add_r by lia.
      assert (0 < 2 ^ Z.pos p) by (apply Z.pow_pos_nonneg; lia). nia.
    + rewrite iter_xO. replace (e + 1074) with (Z.pos p + (c + 1074)) by lia.
      rewrite (Z.pow_add_r 2 (Z.pos p)) by lia. ring.
  - (* shifted to the right: the bits that leave are zero *)
    unfold shl_align. destruct (c - e) as [|p|p] eqn:Hp; [lia| |lia].
    assert (Hpe : Z.pos p = c - e) by lia.
    assert (Hm : Z.pos m = K * 2 ^ (g - c) * 2 ^ Z.pos p).
    { rewrite <- Z.mul_assoc, <- Z.pow_add_r by lia.
      replace (g + 1074) with (g - c + Z.pos p + (e + 1074)) in Hv by lia.
      rewrite (Z.pow_add_r 2 (g - c + Z.pos p) (e + 1074)) in Hv by lia.
      assert (0 < 2 ^ (e + 1074)) by (apply Z.pow_pos_nonneg; lia).
      nia. }
    assert (Hq : 0 < K * 2 ^ (g - c))
      by (assert (0 < 2 ^ (g - c)) by (apply Z.pow_pos_nonneg; lia); nia).
    destruct (K * 2 ^ (g - c)) as [|q|q] eqn:Eq; [lia| |lia].
    exists q, c. split.
    + unfold binary_round_aux, shr_fexp. cbn [Zdigits2 shr_record_of_loc].
      fold d c. rewrite Hp. cbn [shr].
      rewrite iter_pos_nat, iter_shr_1_exact; [|done|].
      2:{ rewrite positive_nat_Z. exists (Z.pos q). exact Hm. }
      rewrite positive_nat_Z, Hm, Z.div_mul
        by (apply Z.pow_nonzero; lia).
      cbn [shr_m loc_of_shr_record round_nearest_even].
      replace (e + Z.pos p) with c by lia.
      assert (Hdq : Z.pos (digits2_pos q) + c = d + e).
      { rewrite (digits2_pos_unique q (d - Z.pos p)); [lia|].
        assert (0 < 2 ^ Z.pos p) by (apply Z.pow_pos_nonneg; lia).
        assert (Hlow : 2 ^ (d - 1) = 2 ^ (d - Z.pos p - 1) * 2 ^ Z.pos p).
        { rewrite <- Z.pow_add_r; [f_equal; lia| |lia].
          assert (2 ^ Z.pos p <= Z.pos m) by nia.
          assert (Z.pos p < d); [|lia].
          apply (Z.pow_lt_mono_r_iff 2); lia. }
        assert (Hhigh : 2 ^ d = 2 ^ (d - Z.pos p) * 2 ^ Z.pos p).
        { rewrite <- Z.pow_add_r; [f_equal; lia| |lia].
          assert (2 ^ Z.pos p <= Z.pos m) by nia.
          assert (Z.pos p < d); [|lia].
          apply (Z.pow_lt_mono_r_iff 2); lia. }
        nia. }
      cbn [Zdigits2 shr_record_of_loc]. rewrite Hdq. fold c. rewrite Z.sub_diag.
      cbn [shr shr_m].
      replace (c <=? emax - prec) with true; [done|].
      symmetry. apply Z.leb_le. change (emax - prec) with 971. lia.
    + rewrite Hm. replace (c + 1074) with (Z.pos p + (e + 1074)) by lia.
      rewrite (Z.pow_add_r 2 (Z.pos p)) by lia. ring.
Qed.

Lemma valid_finite s m e :
  valid_binary (S754_finite s m e) = true ->
  -1074 <= e <= 971 /\ Z.pos m < 2 ^ 53.
Proof.
  unfold valid_binary, SpecFloat.valid_binary, bounded, canonical_mantissa.
  rewrite fexp_eq.
  intros [Hc He]%andb_prop. apply Z.eqb_eq in Hc. apply Z.leb_le in He.
  change (emax - prec) with 971 in He.
  pose proof (digits2_pos_bounds m) as [_ Bu].
  assert (2 ^ Z.pos (digits2_pos m) <= 2 ^ 53) by (apply Z.pow_le_mono_r; lia).
  lia.
Qed.

Lemma binary_normalize_exact M e g :
  -1074 <= e -> 0 <= g <= 2045 ->
  (2 ^ g | M * 2 ^ (e + 1074)) ->
  Z.abs (M * 2 ^ (e + 1074)) < 2 ^ (g + 53) ->
  scaled_sf (binary_normalize prec emax M e false) = Some (M * 2 ^ (e + 1074)).
Proof.
  intros He Hg [K HK] Hb.
  assert (0 < 2 ^ (e + 1074)) by (apply Z.pow_pos_nonneg; lia).
  assert (0 < 2 ^ g) by (apply Z.pow_pos_nonneg; lia).
  rewrite (Z.pow_add_r 2 g 53) in Hb by lia.
  destruct M as [|m|m]; cbn [binary_normalize]; [done| |].
  - destruct (binary_round_exact false m e K (g - 1074)) as (m' & e' & -> & Hv);
      [lia|lia| |replace (g - 1074 + 1074) with g by lia; exact HK|].
    + rewrite HK in Hb. split; nia.
    + cbn [scaled_sf cond_Zopp]. by rewrite Hv.
  - destruct (binary_round_exact true m e (- K) (g - 1074)) as (m' & e' & -> & Hv);
      [lia|lia| |replace (g - 1074 + 1074) with g by lia;
                 rewrite Z.mul_opp_l, <- HK; change (Z.neg m) with (- Z.pos m); ring|].
    + rewrite HK in Hb. split; nia.
    + cbn [scaled_sf cond_Zopp]. rewrite Z.mul_opp_l, Hv. f_equal.
      change (Z.neg m) with (- Z.pos m). ring.
Qed.

Lemma shl_align_fst mx ex ez :
  ez <= ex -> Z.pos (fst (shl_align mx ex ez)) = Z.pos mx * 2 ^ (ex - ez).
Proof.
  intros Hle. unfold shl_align. destruct (ez - ex) as [|p|p] eqn:Hp; [|lia|].
  - replace (ex - ez) with 0 by lia. cbn [fst]. lia.
  - cbn [fst]. rewrite iter_xO. f_equal. f_equal. lia.
Qed.

Lemma aligned_value s m ex ez :
  -1074 <= ez <= ex ->
  cond_Zopp s (Z.pos (fst (shl_align m ex ez))) * 2 ^ (ez + 1074)
  = cond_Zopp s (Z.pos m) * 2 ^ (ex + 1074).
Proof.
  intros H. rewrite shl_align_fst by lia.
  replace (ex + 1074) with (ex - ez + (ez + 1074)) by lia.
  rewrite (Z.pow_add_r 2 (ex - ez)) by lia. destruct s; cbn [cond_Zopp]; ring.
Qed.

(** An addition whose result binary64 holds is exact. *)
Lemma SFadd_exact x y a b g :
  valid_binary x = true -> valid_binary y = true ->
  scaled_sf x = Some a -> scaled_sf y = Some b ->
  0 <= g <= 2045 -> (2 ^ g | a) -> (2 ^ g | b) -> Z.abs (a + b) < 2 ^ (g + 53) ->
  scaled_sf (SFadd prec emax x y) = Some (a + b).
Proof.
  intros Vx Vy Hx Hy Hg Da Db Hb.
  destruct x as [sx|sx| |sx mx ex], y as [sy|sy| |sy my ey]; try done;
    cbn [scaled_sf] in Hx, Hy; injection Hx as <-; injection Hy as <-.
  - by destruct sx, sy.
  - cbn [SFadd scaled_sf]. by rewrite Z.add_0_l.
  - cbn [SFadd scaled_sf]. by rewrite Z.add_0_r.
  - destruct (valid_finite _ _ _ Vx) as [Ex _], (valid_finite _ _ _ Vy) as [Ey _].
    cbn [SFadd]. set (ez := Z.min ex ey).
    assert (Hv : (cond_Zopp sx (Z.pos (fst (shl_align mx ex ez)))
                  + cond_Zopp sy (Z.pos (fst (shl_align my ey ez)))) * 2 ^ (ez + 1074)
                 = cond_Zopp sx (Z.pos mx) * 2 ^ (ex + 1074)
                   + cond_Zopp sy (Z.pos my) * 2 ^ (ey + 1074)).
    { rewrite Z.mul_add_distr_r, !aligned_value by lia. done. }
    rewrite <- Hv in *. apply (binary_normalize_exact _ _ g); [lia|done| |done].
    rewrite Hv. by apply Z.divide_add_r.
Qed.

(** A subtraction whose result binary64 holds is exact. *)
Lemma SFsub_exact x y a b g :
  valid_binary x = true -> valid_binary y = true ->
  scaled_sf x = Some a -> scaled_sf y = Some b ->
  0 <= g <= 2045 -> (2 ^ g | a) -> (2 ^ g | b) -> Z.abs (a - b) < 2 ^ (g + 53) ->
  scaled_sf (SFsub prec emax x y) = Some (a - b).
Proof.
  intros Vx Vy Hx Hy Hg Da Db Hb.
  destruct x as [sx|sx| |sx mx ex], y as [sy|sy| |sy my ey]; try done;
    cbn [scaled_sf] in Hx, Hy; injection Hx as <-; injection Hy as <-.
  - by destruct sx, sy.
  - cbn [SFsub scaled_sf]. f_equal. destruct sy; cbn [negb cond_Zopp]; ring.
  - cbn [SFsub scaled_sf]. by rewrite Z.sub_0_r.
  - destruct (valid_finite _ _ _ Vx) as [Ex _], (valid_finite _ _ _ Vy) as [Ey _].
    cbn [SFsub]. set (ez := Z.min ex ey).
    assert (Hv : (cond_Zopp sx (Z.pos (fst (shl_align mx ex ez)))
                  - cond_Zopp sy (Z.pos (fst (shl_align my ey ez)))) * 2 ^ (ez + 1074)
                 = cond_Zopp sx (Z.pos mx) * 2 ^ (ex + 1074)
                   - cond_Zopp sy (Z.pos my) * 2 ^ (ey + 1074)).
    { rewrite Z.mul_sub_distr_r, !aligned_value by lia. done. }
    rewrite <- Hv in *. apply (binary_normalize_exact _ _ g); [lia|done| |done].
    rewrite Hv. by apply Z.divide_sub_r.
Qed.

Lemma add_exact (x y : float) a b g :
  scaled x = Some a -> scaled y = Some b ->
  0 <= g <= 2045 -> (2 ^ g | a) -> (2 ^ g | b) -> Z.abs (a + b) < 2 ^ (g + 53) ->
  scaled (x + y)%float = Some (a + b).
Proof.
  intros Hx Hy Hg Da Db Hb. unfold scaled. rewrite FloatAxioms.add_spec.
  by apply (SFadd_exact _ _ a b g); try apply Prim2SF_valid.
Qed.

Lemma sub_exact (x y : float) a b g :
  scaled x = Some a -> scaled y = Some b ->
  0 <= g <= 2045 -> (2 ^ g | a) -> (2 ^ g | b) -> Z.abs (a - b) < 2 ^ (g + 53) ->
  scaled (x - y)%float = Some (a - b).
Proof.
  intros Hx Hy Hg Da Db Hb. unfold scaled. rewrite FloatAxioms.sub_spec.
  by apply (SFsub_exact _ _ a b g); try apply Prim2SF_valid.
Qed.

End DoubleValueFacts.

(** ** HllArray: [kxq0] and [kxq1] *)

Module HllSumsFacts.
Import Bytes Hll FloatFacts HllFacts HllRegisters HllRegisterFacts DoubleValue HllSums
  DoubleValueFacts.

Lemma kxq_sum_insert keep l i o n :
  l !! i = Some o ->
  kxq_sum keep (<[i := n]> l)
  = kxq_sum keep l - (if keep o then 2 ^ (63 - o) else 0) + (if keep n then 2 ^ (63 - n) else 0).
Proof.
  unfold kxq_sum. revert i. induction l as [|v l IH]; intros [|i] Hl; try done.
  - injection Hl as ->. cbn [insert list_insert map foldr]. lia.
  - change (<[S i := n]> (v :: l)) with (v :: <[i := n]> l).
    cbn [map foldr]. rewrite (IH i Hl). lia.
Qed.

Lemma kxq_sum_low l :
  Forall (fun v => 0 <= v <= 63) l ->
  (2 ^ 32 | kxq_sum below_32 l) /\ 0 <= kxq_sum below_32 l <= Z.of_nat (length l) * 2 ^ 63.
Proof.
  unfold kxq_sum. induction 1 as [|v l Hv _ IH]; cbn [map foldr length].
  - split; [apply Z.divide_0_r|lia].
  - destruct IH as [Hd Hb]. rewrite Nat2Z.inj_succ, Z.mul_succ_l.
    destruct (below_32 v) eqn:Hlow; unfold below_32 in Hlow.
    + apply Z.ltb_lt in Hlow.
      assert (2 ^ (63 - v) = 2 ^ (31 - v) * 2 ^ 32)
        by (rewrite <- Z.pow_add_r by lia; f_equal; lia).
      assert (0 < 2 ^ (63 - v) <= 2 ^ 63)
        by (split; [apply Z.pow_pos_nonneg; lia|apply Z.pow_le_mono_r; lia]).
      split; [apply Z.divide_add_r; [by exists (2 ^ (31 - v))|done]|lia].
    + split; [by rewrite Z.add_0_l|lia].
Qed.

Lemma kxq_sum_high l :
  Forall (fun v => 0 <= v <= 63) l ->
  0 <= kxq_sum from_32 l <= Z.of_nat (length l) * 2 ^ 31.
Proof.
  unfold kxq_sum. induction 1 as [|v l Hv _ IH]; cbn [map foldr length]; [lia|].
  rewrite Nat2Z.inj_succ, Z.mul_succ_l.
  destruct (from_32 v) eqn:Hhigh; unfold from_32 in Hhigh; [|lia].
  apply negb_true_iff, Z.ltb_ge in Hhigh.
  assert (0 < 2 ^ (63 - v) <= 2 ^ 31)
    by (split; [apply Z.pow_pos_nonneg; lia|apply Z.pow_le_mono_r; lia]).
  lia.
Qed.

Lemma kxq_sum_replicate keep n v :
  kxq_sum keep (replicate n v) = Z.of_nat n * (if keep v then 2 ^ (63 - v) else 0).
Proof.
  unfold kxq_sum. induction n as [|n IH]; [done|].
  cbn [replicate map foldr]. rewrite IH. lia.
Qed.

Lemma scaled_double_of_int_pow2 lgK :
  4 <= lgK <= 21 -> scaled (double_of_int (shl1 lgK)) = Some (2 ^ (1074 + lgK)).
Proof.
  intros Hk. replace lgK with (4 + Z.of_nat (Z.to_nat (lgK - 4))) by lia.
  assert (Hn : (Z.to_nat (lgK - 4) < 18)%nat) by lia.
  revert Hn. generalize (Z.to_nat (lgK - 4)). intros n Hn.
  do 18 (destruct n as [|n]; [vm_compute; reflexivity|]). lia.
Qed.

Section Sums.
Context `{HllUtil}.

Lemma newHll_kxq_ok lgK t : 4 <= lgK <= 21 -> kxq_ok (newHll lgK t).
Proof.
  intros Hk. constructor; cbn [newHll slots kxq0 kxq1].
  - apply Forall_replicate. lia.
  - rewrite scaled_double_of_int_pow2, kxq_sum_replicate by done.
    unfold below_32. cbn [Z.ltb Z.compare]. rewrite shl1_pow by lia.
    assert (0 < 2 ^ lgK) by (apply Z.pow_pos_nonneg; lia).
    rewrite Z2Nat.id by lia. f_equal.
    replace (1074 + lgK) with (1011 + (lgK + 63)) by lia.
    rewrite !Z.pow_add_r by lia. change (63 - 0) with 63. ring.
  - rewrite kxq_sum_replicate. unfold from_32. cbn [Z.ltb Z.compare negb].
    by rewrite Z.mul_0_r.
Qed.

Lemma scaled_sub_pow x S v grain :
  exact_powers ->
  scaled x = Some (2 ^ 1011 * S) ->
  0 <= v <= 63 -> 0 <= grain <= 63 - v -> (2 ^ grain | S) ->
  2 ^ (63 - v) <= S < 2 ^ (grain + 53) ->
  scaled (x - invPow2 v)%float = Some (2 ^ 1011 * (S - 2 ^ (63 - v))).
Proof.
  intros Hp Hx Hv Hg [q ->] Hb.
  assert (Hw : 2 ^ (1074 - v) = 2 ^ 1011 * 2 ^ (63 - v))
    by (rewrite <- Z.pow_add_r by lia; f_equal; lia).
  assert (Hw' : 2 ^ (63 - v) = 2 ^ (63 - v - grain) * 2 ^ grain)
    by (rewrite <- Z.pow_add_r by lia; f_equal; lia).
  assert (0 < 2 ^ grain) by (apply Z.pow_pos_nonneg; lia).
  assert (0 < 2 ^ (63 - v - grain)) by (apply Z.pow_pos_nonneg; lia).
  rewrite Z.mul_sub_distr_l, <- Hw.
  apply (sub_exact _ _ _ _ (1011 + grain)); [done|by apply Hp|lia| | |].
  - exists q. rewrite Z.pow_add_r by lia. ring.
  - exists (2 ^ (63 - v - grain)). rewrite Hw, Hw', Z.pow_add_r by lia. ring.
  - rewrite Hw, <- Z.mul_sub_distr_l.
    replace (1011 + grain + 53) with (1011 + (grain + 53)) by lia.
    rewrite (Z.pow_add_r 2 1011) by lia.
    rewrite Z.abs_eq by (apply Z.mul_nonneg_nonneg; lia).
    apply Z.mul_lt_mono_pos_l; [done|lia].
Qed.

Lemma scaled_add_pow x S v grain :
  exact_powers ->
  scaled x = Some (2 ^ 1011 * S) ->
  0 <= v <= 63 -> 0 <= grain <= 63 - v -> (2 ^ grain | S) ->
  0 <= S -> S + 2 ^ (63 - v) < 2 ^ (grain + 53) ->
  scaled (x + invPow2 v)%float = Some (2 ^ 1011 * (S + 2 ^ (63 - v))).
Proof.
  intros Hp Hx Hv Hg [q ->] H0 Hb.
  assert (Hw : 2 ^ (1074 - v) = 2 ^ 1011 * 2 ^ (63 - v))
    by (rewrite <- Z.pow_add_r by lia; f_equal; lia).
  assert (Hw' : 2 ^ (63 - v) = 2 ^ (63 - v - grain) * 2 ^ grain)
    by (rewrite <- Z.pow_add_r by lia; f_equal; lia).
  assert (0 < 2 ^ grain) by (apply Z.pow_pos_nonneg; lia).
  assert (0 < 2 ^ (63 - v - grain)) by (apply Z.pow_pos_nonneg; lia).
  assert (0 < 2 ^ (63 - v)) by (apply Z.pow_pos_nonneg; lia).
  rewrite Z.mul_add_distr_l, <- Hw.
  apply (add_exact _ _ _ _ (1011 + grain)); [done|by apply Hp|lia| | |].
  - exists q. rewrite Z.pow_add_r by lia. ring.
  - exists (2 ^ (63 - v - grain)). rewrite Hw, Hw', Z.pow_add_r by lia. ring.
  - rewrite Hw, <- Z.mul_add_distr_l.
    replace (1011 + grain + 53) with (1011 + (grain + 53)) by lia.
    rewrite (Z.pow_add_r 2 1011) by lia.
    rewrite Z.abs_eq by (apply Z.mul_nonneg_nonneg; lia).
    apply Z.mul_lt_mono_pos_l; [done|lia].
Qed.

(** What [hipAndKxQIncrementalUpdate] leaves in [kxq0] and [kxq1]. *)
Lemma hipAndKxQIncrementalUpdate_kxq host o n host' :
  hipAndKxQIncrementalUpdate host o n = Done host' ->
  slots host' = slots host
  /\ kxq0 host'
     = (let k := if (o <? 32)%Z then kxq0 host - invPow2 o else kxq0 host in
        if (n <? 32)%Z then k + invPow2 n else k)%float
  /\ kxq1 host'
     = (let k := if (o <? 32)%Z then kxq1 host else kxq1 host - invPow2 o in
        if (n <? 32)%Z then k else k + invPow2 n)%float.
Proof.
  unfold hipAndKxQIncrementalUpdate. destruct (negb (o <? n)); [done|].
  destruct (o <? 32), (n <? 32); intros [= <-]; done.
Qed.

Lemma couponUpdate_kxq_ok h coupon h' :
  exact_powers ->
  array_ok h -> kxq_ok h ->
  getValue coupon <= 63 ->
  couponUpdate h coupon = Done h' ->
  kxq_ok h'.
Proof.
  intros Hp Hok [Hvals H0 H1] H63 Hd.
  pose proof (couponUpdate_positive _ _ _ Hd) as Hpos.
  pose proof (slot_of_lt h coupon Hok) as Hi.
  pose proof (getSlot_lookup h _ Hi) as Hcur.
  unfold couponUpdate in Hd. fold (slot_of h coupon) in Hd.
  set (i := slot_of h coupon) in *. set (o := getSlot h i) in *.
  set (n := getValue coupon) in *.
  replace (0 <? n) with true in Hd by (symmetry; by apply Z.ltb_lt).
  cbn [negb] in Hd.
  destruct (Z.ltb_spec o n) as [Hlt|Hge]; [|by injection Hd as <-].
  destruct (hipAndKxQIncrementalUpdate (putSlot h i n) o n) as [h1|] eqn:Hh; [|done].
  destruct (hipAndKxQIncrementalUpdate_kxq _ _ _ _ Hh) as (Hs & Hk0 & Hk1).
  cbn [putSlot with_slots slots kxq0 kxq1] in Hs, Hk0, Hk1.
  assert (Hfields : slots h' = slots h1 /\ kxq0 h' = kxq0 h1 /\ kxq1 h' = kxq1 h1).
  { destruct (o =? 0); [destruct (negb _) in Hd; [done|]|]; by injection Hd as <-. }
  destruct Hfields as (E1 & E2 & E3). rewrite Hs in E1. rewrite Hk0 in E2.
  rewrite Hk1 in E3. clear Hd Hh Hs Hk0 Hk1.
  assert (Ho : 0 <= o <= 63) by (apply (Forall_lookup_1 _ _ _ _ Hvals Hcur)).
  assert (Hins : forall v, 0 <= v <= 63 ->
                   Forall (fun v => 0 <= v <= 63) (<[Z.to_nat i := v]> (slots h)))
    by (intros v Hv; by apply Forall_insert).
  assert (Hlen : Z.of_nat (length (slots h)) <= 2 ^ 21).
  { rewrite (ok_length _ Hok). apply Z.pow_le_mono_r; [lia|]. apply (ok_lgConfigK _ Hok). }
  assert (Hlow : forall v, 0 <= v <= 63 ->
            (2 ^ 32 | kxq_sum below_32 (<[Z.to_nat i := v]> (slots h)))
            /\ 0 <= kxq_sum below_32 (<[Z.to_nat i := v]> (slots h)) < 2 ^ (32 + 53)).
  { intros v Hv. destruct (kxq_sum_low _ (Hins v Hv)) as [Hdv Hb].
    rewrite length_insert in Hb. split; [done|].
    change (2 ^ (32 + 53)) with (2 ^ 22 * 2 ^ 63). change (2 ^ 21) with 2097152 in Hlen.
    change (2 ^ 22) with 4194304. set (P := 2 ^ 63) in *.
    assert (0 < P) by done. nia. }
  assert (Hhigh : forall v, 0 <= v <= 63 ->
            0 <= kxq_sum from_32 (<[Z.to_nat i := v]> (slots h)) < 2 ^ (0 + 53)).
  { intros v Hv. pose proof (kxq_sum_high _ (Hins v Hv)) as Hb.
    rewrite length_insert in Hb.
    change (2 ^ (0 + 53)) with (2 ^ 22 * 2 ^ 31). change (2 ^ 21) with 2097152 in Hlen.
    change (2 ^ 22) with 4194304. set (P := 2 ^ 31) in *.
    assert (0 < P) by done. nia. }
  assert (Hid : <[Z.to_nat i := o]> (slots h) = slots h) by (by apply list_insert_id).
  destruct (Hlow o Ho) as [DL BL]. pose proof (Hhigh o Ho) as BH. rewrite Hid in DL, BL, BH.
  pose proof (fun v => kxq_sum_insert below_32 _ _ _ v Hcur) as Il.
  pose proof (fun v => kxq_sum_insert from_32 _ _ _ v Hcur) as Ih.
  constructor; rewrite ?E1, ?E2, ?E3; [apply Hins; lia| |]; cbv zeta.
  - (* kxq0 *)
    destruct (Hlow 63 ltac:(lia)) as [D63 B63]. destruct (Hlow n ltac:(lia)) as [Dn Bn].
    rewrite Il in *. unfold below_32 in *. change (63 <? 32) with false in *.
    destruct (Z.ltb_spec o 32) as [Ho32|Ho32], (Z.ltb_spec n 32) as [Hn32|Hn32];
      rewrite ?Z.add_0_r, ?Z.sub_0_r in *; [| |lia|done].
    + apply (scaled_add_pow _ _ _ 32); [done| |lia|lia|done|lia|lia].
      apply (scaled_sub_pow _ _ _ 32); [done|done|lia|lia|done|lia].
    + apply (scaled_sub_pow _ _ _ 32); [done|done|lia|lia|done|lia].
  - (* kxq1 *)
    pose proof (Hhigh 0 ltac:(lia)) as B0. pose proof (Hhigh n ltac:(lia)) as Bn.
    rewrite Ih in *. unfold from_32 in *. change (0 <? 32) with true in *.
    destruct (Z.ltb_spec o 32) as [Ho32|Ho32], (Z.ltb_spec n 32) as [Hn32|Hn32];
      cbn [negb] in *; rewrite ?Z.add_0_r, ?Z.sub_0_r in *; [done| |lia|].
    + apply (scaled_add_pow _ _ _ 0); [done|done|lia|lia|apply Z.divide_1_l|lia|lia].
    + apply (scaled_add_pow _ _ _ 0); [done| |lia|lia|apply Z.divide_1_l|lia|lia].
      apply (scaled_sub_pow _ _ _ 0); [done|done|lia|lia|apply Z.divide_1_l|lia].
Qed.

(** The two running sums of an array made by the constructor and moved by
    [couponUpdate] only. *)
Lemma couponUpdates_kxq_ok h coupons h' :
  exact_powers ->
  array_ok h -> kxq_ok h ->
  Forall (fun c => getValue c <= 63) coupons ->
  couponUpdates h coupons = Done h' ->
  kxq_ok h'.
Proof.
  intros Hp Hok Hk Hall. revert h Hok Hk.
  induction Hall as [|c cs Hc _ IH]; intros h Hok Hk Hrun; cbn [couponUpdates] in Hrun.
  - by injection Hrun as <-.
  - destruct (couponUpdate h c) as [h1|] eqn:Hd; [|done].
    pose proof (couponUpdate_positive _ _ _ Hd) as Hpos.
    destruct (couponUpdate_effect h c Hok Hpos) as (h2 & Hd2 & Hok1 & _).
    assert (h2 = h1) as -> by congruence.
    apply (IH h1 Hok1); [|done]. by apply (couponUpdate_kxq_ok h c).
Qed.

(** X16.  [kxq0] and [kxq1] carry no rounding error: on an array made by the
    constructor and moved by [couponUpdate] only, with register values up to
    63 and [invPow2(v)] equal to [2^(-v)], [kxq0] is the sum of [2^(-v)] over
    the registers [v] below 32 and [kxq1] the sum over the registers from 32
    on. *)
Theorem kxq_sums_are_exact lgK t coupons h :
  4 <= lgK <= 21 ->
  exact_powers ->
  Forall (fun c => getValue c <= 63) coupons ->
  couponUpdates (newHll lgK t) coupons = Done h ->
  scaled (kxq0 h) = Some (2 ^ 1011 * kxq_sum below_32 (slots h))
  /\ scaled (kxq1 h) = Some (2 ^ 1011 * kxq_sum from_32 (slots h)).
Proof.
  intros Hk Hp Hall Hrun.
  destruct (couponUpdates_kxq_ok _ _ _ Hp (newHll_ok lgK t Hk) (newHll_kxq_ok lgK t Hk)
              Hall Hrun) as [_ H0 H1].
  by split.
Qed.

End Sums.

Lemma inv_pow2_exact : exact_powers (H := sample_util).
Proof.
  intros v Hv. cbn [invPow2 sample_util].
  replace v with (Z.of_nat (Z.to_nat v)) by lia.
  assert (Hn : (Z.to_nat v < 64)%nat) by lia.
  revert Hn. generalize (Z.to_nat v). intros n Hn.
  do 64 (destruct n as [|n]; [vm_compute; reflexivity|]). lia.
Qed.

#[local] Existing Instance sample_util.

Lemma kxq_sums_are_exact_witness :
  exists h,
    couponUpdates (newHll 4 HLL_8) [3 * 2 ^ 26 + 5; 7 * 2 ^ 26 + 5; 40 * 2 ^ 26 + 9] = Done h
    /\ scaled (kxq0 h) = Some (2 ^ 1011 * (14 * 2 ^ 63 + 2 ^ 56))
    /\ scaled (kxq1 h) = Some (2 ^ 1011 * 2 ^ 23).
Proof.
  assert (Hd : exists h,
            couponUpdates (newHll 4 HLL_8) [3 * 2 ^ 26 + 5; 7 * 2 ^ 26 + 5; 40 * 2 ^ 26 + 9]
            = Done h
            /\ slots h = [0; 0; 0; 0; 0; 7; 0; 0; 0; 40; 0; 0; 0; 0; 0; 0])
    by (eexists; split; vm_compute; reflexivity).
  destruct Hd as (h & Hd & Hs). exists h. split; [exact Hd|].
  assert (Hall : Forall (fun c => getValue c <= 63)
                   [3 * 2 ^ 26 + 5; 7 * 2 ^ 26 + 5; 40 * 2 ^ 26 + 9])
    by (repeat constructor; vm_compute; discriminate).
  destruct (kxq_sums_are_exact 4 HLL_8 _ h ltac:(lia) inv_pow2_exact Hall Hd) as [H0 H1].
  rewrite Hs in H0, H1. split; [exact H0|exact H1].
Defined.

End HllSumsFacts.

(** ** HLL register array: the serialized image *)

Module HllImageFacts.
Import Bytes BytesFacts Hll HllFacts Binary64 Binary64Facts HllImage.

Lemma land_uint8 x m : 0 <= m < 256 -> Z.land (uint8 x) m = Z.land x m.
Proof.
  intros Hm. unfold uint8. rewrite <- Z.land_ones by lia.
  rewrite <- Z.land_assoc. f_equal.
  rewrite Z.land_comm, Z.land_ones by lia. apply Z.mod_small.
  change (2 ^ 8) with 256. lia.
Qed.

Lemma uint8_idem x : uint8 x mod 256 = uint8 x.
Proof. unfold uint8. change (2 ^ 8) with 256. apply Z.mod_mod. lia. Qed.

Lemma extract_makeModeByte h :
  extractCurMode (makeModeByte h) = Some (curMode h)
  /\ extractTgtHllType (makeModeByte h) = Some (tgtHllType h).
Proof. unfold makeModeByte. by destruct (curMode h), (tgtHllType h). Qed.

Lemma to_int_mod n : - 2 ^ 31 <= n < 2 ^ 31 -> to_int (n mod 256 ^ Z.of_nat 4) = n.
Proof.
  intros Hn. unfold to_int. change (256 ^ Z.of_nat 4) with (2 ^ 32).
  rewrite Zplus_mod_idemp_l, Z.mod_small by lia. lia.
Qed.

(** X17.  The mode byte gives back the mode and the type it was made from; the
    two extractors read the low four bits only, and throw exactly on the bit
    pair 11. *)
Theorem mode_byte_round_trip :
  (forall h, extractCurMode (makeModeByte h) = Some (curMode h)
             /\ extractTgtHllType (makeModeByte h) = Some (tgtHllType h)
             /\ makeModeByte h = 4 * (match tgtHllType h with HLL_4 => 0 | HLL_6 => 1 | HLL_8 => 2 end)
                                 + (match curMode h with LIST => 0 | SET => 1 | HLL => 2 end))
  /\ (forall b, extractCurMode b = None <-> b mod 4 = 3)
  /\ (forall b, extractTgtHllType b = None <-> b / 4 mod 4 = 3)
  /\ (forall b, extractCurMode (b mod 16) = extractCurMode b
                /\ extractTgtHllType (b mod 16) = extractTgtHllType b).
Proof.
  assert (Hland : forall b, Z.land b 3 = b mod 4)
    by (intros b; apply (Z.land_ones b 2); lia).
  assert (Hshr : forall b, Z.shiftr b 2 = b / 4)
    by (intros b; apply (Z.shiftr_div_pow2 b 2); lia).
  split; [|split; [|split]].
  - intros h. unfold makeModeByte. by destruct (curMode h), (tgtHllType h).
  - intros b. unfold extractCurMode. rewrite Hland.
    pose proof (Z.mod_pos_bound b 4 ltac:(lia)) as Hb.
    assert (Hc : b mod 4 = 0 \/ b mod 4 = 1 \/ b mod 4 = 2 \/ b mod 4 = 3) by lia.
    destruct Hc as [Hc|[Hc|[Hc|Hc]]]; rewrite Hc; split; (done || lia).
  - intros b. unfold extractTgtHllType. rewrite Hshr, Hland.
    pose proof (Z.mod_pos_bound (b / 4) 4 ltac:(lia)) as Hb.
    assert (Hc : b / 4 mod 4 = 0 \/ b / 4 mod 4 = 1 \/ b / 4 mod 4 = 2 \/ b / 4 mod 4 = 3)
      by lia.
    destruct Hc as [Hc|[Hc|[Hc|Hc]]]; rewrite Hc; split; (done || lia).
  - intros b. unfold extractCurMode, extractTgtHllType. rewrite !Hshr, !Hland.
    change 16 with (4 * 4).
    rewrite (Z.rem_mul_r b 4 4) by lia.
    split.
    + replace ((b mod 4 + 4 * (b / 4 mod 4)) mod 4) with (b mod 4); [done|].
      clear. Z.div_mod_to_equations. lia.
    + replace ((b mod 4 + 4 * (b / 4 mod 4)) / 4 mod 4) with (b / 4 mod 4); [done|].
      clear. Z.div_mod_to_equations. lia.
Qed.

Section ImageFacts.
Context `{HllConstants} `{HllLayout}.

Lemma makeFlagsByte_ooo h compact :
  constants_ok ->
  Z.land (makeFlagsByte h compact) OUT_OF_ORDER_FLAG_MASK
  = if oooFlag h then OUT_OF_ORDER_FLAG_MASK else 0.
Proof.
  intros [_ _ _ Ho He Hc]. unfold makeFlagsByte.
  rewrite land_uint8, Z.land_lor_distr_l by lia.
  rewrite land_uint8, Z.land_lor_distr_l by lia.
  rewrite land_uint8, Z.land_lor_distr_l by lia.
  rewrite Z.land_0_l, Z.lor_0_l.
  replace (Z.land (if isEmpty h then EMPTY_FLAG_MASK else 0) OUT_OF_ORDER_FLAG_MASK)
    with 0 by (destruct (isEmpty h); [done|by rewrite Z.land_0_l]).
  replace (Z.land (if compact then COMPACT_FLAG_MASK else 0) OUT_OF_ORDER_FLAG_MASK)
    with 0 by (destruct compact; [done|by rewrite Z.land_0_l]).
  rewrite !Z.lor_0_l. destruct (oooFlag h); [apply Z.land_diag|apply Z.land_0_l].
Qed.

Lemma read_8 x0 x1 x2 x3 x4 x5 x6 x7 (s : list Z) :
  read 8 (x0 :: x1 :: x2 :: x3 :: x4 :: x5 :: x6 :: x7 :: s)
  = Some ([x0; x1; x2; x3; x4; x5; x6; x7], s).
Proof. unfold read. rewrite decide_True by (cbn [length]; lia). done. Qed.

Lemma serialize_eq h compact :
  layout_ok h ->
  serialize h compact =
  [ HLL_PREINTS mod 256; SER_VER mod 256; FAMILY_ID mod 256; lgConfigK h mod 256; 0;
    makeFlagsByte h compact; curMin h mod 256; makeModeByte h ]
  ++ le_bytes 8 (bits_of_double (hipAccum h))
  ++ le_bytes 8 (bits_of_double (kxq0 h))
  ++ le_bytes 8 (bits_of_double (kxq1 h))
  ++ le_bytes 4 (numAtCurMin h)
  ++ le_bytes 4 0
  ++ hllByteArr h
  ++ aux_padding h compact.
Proof.
  intros [Hlen _ _]. unfold serialize, aux_padding, getPreInts.
  rewrite <- Hlen, Nat2Z.id, firstn_all.
  cbn [le_bytes app].
  assert (Hf : makeFlagsByte h compact mod 256 = makeFlagsByte h compact)
    by apply uint8_idem.
  assert (Hm : makeModeByte h mod 256 = makeModeByte h)
    by (unfold makeModeByte; destruct (tgtHllType h); apply uint8_idem).
  by rewrite Hf, Hm.
Qed.

Lemma newHll_stream_image h compact rest :
  constants_ok -> layout_ok h -> members_fit h ->
  newHll_stream (serialize h compact ++ rest)
  = Array_read h (aux_padding h compact ++ rest).
Proof.
  intros Hc Hl Hm. rewrite serialize_eq by done. cbn [app].
  unfold newHll_stream. rewrite read_8.
  cbn [lookup list_lookup default from_option id].
  destruct Hc as [Hp Hv Hf Ho He Hcm]. destruct Hm as [Hmode Hlg Hmin Hnum].
  rewrite !Z.mod_small by lia. rewrite !Z.eqb_refl. cbn [negb].
  destruct (extract_makeModeByte h) as [-> ->]. rewrite Hmode.
  rewrite (makeFlagsByte_ooo h compact) by (by constructor).
  set (ooo := negb ((if oooFlag h then OUT_OF_ORDER_FLAG_MASK else 0) =? 0)).
  assert (Hooo : ooo = oooFlag h).
  { subst ooo. destruct (oooFlag h); [|done].
    by replace (OUT_OF_ORDER_FLAG_MASK =? 0) with false
      by (symmetry; apply Z.eqb_neq; lia). }
  rewrite Hooo. clear ooo Hooo.
  set (sketch := putOutOfOrderFlag _ _).
  unfold read_array_data. rewrite <- !app_assoc.
  repeat (rewrite read_uint_le_bytes; cbn [mbind option_bind]).
  set (sketch' := putNumAtCurMin _ _).
  rewrite (lo_size _ Hl sketch') by done.
  rewrite <- (lo_length _ Hl), Nat2Z.id, read_app. cbn [mbind option_bind].
  rewrite (lo_put _ Hl sketch') by done.
  change (0 mod 256 ^ Z.of_nat 4) with 0. change (0 <? to_int 0) with false. cbv iota.
  f_equal. subst sketch' sketch. destruct h. cbn in *.
  change (256 ^ Z.of_nat 8) with (2 ^ 64).
  rewrite !Z.mod_small by apply bits_of_double_range.
  rewrite !double_of_bits_of_double, to_int_mod by lia. by subst.
Qed.

(** X18.  [newHll(std::istream&)], and [HllSketchImpl::deserialize] that hands
    over to it, read back the array that [serialize] wrote, compact or not,
    with every member and the three doubles bit for bit, and leave in the
    stream what followed the image and, for an updatable HLL_4 image, its
    zeroed auxiliary area. *)
Theorem serialize_newHll_round_trip h compact rest :
  constants_ok -> layout_ok h -> members_fit h ->
  newHll_stream (serialize h compact ++ rest)
  = Array_read h (aux_padding h compact ++ rest)
  /\ deserialize (serialize h compact ++ rest)
     = Array_read h (aux_padding h compact ++ rest).
Proof.
  intros Hc Hl Hm. pose proof (newHll_stream_image h compact rest Hc Hl Hm) as Hr.
  split; [exact Hr|]. unfold deserialize. rewrite <- Hr.
  rewrite serialize_eq by done. cbn [app].
  rewrite Z.mod_small by (destruct Hc; lia). by rewrite Z.eqb_refl.
Qed.


(** X20.  [newHll(std::istream&)] does not compare [numAtCurMin] with the
    registers it reads: an array whose count is not positive is read back as
    it is, and on it a [couponUpdate] that finds a register at 0 fails
    [assert(getNumAtCurMin() >= 0)]. *)
Theorem unchecked_numAtCurMin_fails_assertion `{HllUtil} h compact rest coupon :
  constants_ok -> layout_ok h -> members_fit h ->
  - 2 ^ 31 < numAtCurMin h <= 0 ->
  0 < getValue coupon ->
  getSlot h (slot_of h coupon) = 0 ->
  exists g rest',
    newHll_stream (serialize h compact ++ rest) = Array_read g rest'
    /\ numAtCurMin g = numAtCurMin h
    /\ couponUpdate g coupon = Failed Assert_numAtCurMin_nonneg.
Proof.
  intros Hc Hl Hm Hn Hv Hs. exists h, (aux_padding h compact ++ rest).
  split; [by apply newHll_stream_image|]. split; [done|].
  unfold couponUpdate. fold (slot_of h coupon). rewrite Hs.
  replace (0 <? getValue coupon) with true by (symmetry; by apply Z.ltb_lt).
  cbn [negb].
  destruct (hipAndKxQIncrementalUpdate_frame
              (putSlot h (slot_of h coupon) (getValue coupon)) 0 (getValue coupon) Hv)
    as (h1 & -> & _ & _ & Hn1 & _).
  cbn [putSlot with_slots numAtCurMin] in Hn1.
  cbn [Z.eqb decNumAtCurMin numAtCurMin]. rewrite Hn1, to_int_small by lia.
  by replace (0 <=? numAtCurMin h - 1) with false by (symmetry; apply Z.leb_gt; lia).
Qed.

(** X21.  The register bytes start at byte 40 of an image, after the eight
    header bytes, the three doubles and the two counts; the image of an HLL_6
    or HLL_8 array ends with them, [getUpdatableSerializationBytes] is its
    length when [HLL_BYTE_ARR_START] is 40, and its compact and updatable
    forms differ in the flags byte at most. *)
Theorem register_bytes_start_at_40 h compact :
  layout_ok h ->
  drop 40 (serialize h compact) = hllByteArr h ++ aux_padding h compact
  /\ (tgtHllType h <> HLL_4 ->
      Z.of_nat (length (serialize h compact)) = 40 + getHllByteArrBytes h
      /\ (HLL_BYTE_ARR_START = 40 -> getHllByteArrBytes h < 2 ^ 31 - 40 ->
          getUpdatableSerializationBytes h = Z.of_nat (length (serialize h compact)))
      /\ (forall i, i <> 5%nat -> serialize h true !! i = serialize h false !! i)).
Proof.
  intros Hl.
  assert (Hsame : tgtHllType h <> HLL_4 ->
            forall i, i <> 5%nat -> serialize h true !! i = serialize h false !! i).
  { intros Ht i Hi. rewrite !serialize_eq by done.
    assert (Hpad : forall c, aux_padding h c = [])
      by (intros c; unfold aux_padding; by destruct (tgtHllType h)).
    rewrite !Hpad. cbn [app].
    by destruct i as [|[|[|[|[|[|i]]]]]]. }
  rewrite serialize_eq by done. split; [done|].
  intros Ht.
  assert (Hpad : aux_padding h compact = [])
    by (unfold aux_padding; by destruct (tgtHllType h)).
  split; [|split; [|by apply Hsame]].
  - rewrite Hpad, app_nil_r. cbn [app length]. rewrite !length_app, !le_bytes_length.
    pose proof (lo_length _ Hl) as Hlen. lia.
  - rewrite Hpad, app_nil_r. cbn [app length]. rewrite !length_app, !le_bytes_length.
    pose proof (lo_length _ Hl) as Hlen.
    intros Hs Hb. unfold getUpdatableSerializationBytes. rewrite Hs.
    rewrite to_int_small by lia. lia.
Qed.

End ImageFacts.

#[local] Existing Instance sample_constants.
#[local] Existing Instance byte_layout.
#[local] Existing Instance sample_util.

Lemma sample_constants_ok : constants_ok.
Proof. constructor; cbn; (lia || reflexivity). Qed.

Lemma byte_layout_ok h :
  Z.of_nat (length (slots h)) = hll8ArrBytes (lgConfigK h) -> layout_ok h.
Proof.
  intros Hlen. constructor; [exact Hlen| |done].
  intros g Hl _. cbn. by rewrite Hl.
Qed.

Lemma sample_array_fits : members_fit sample_array.
Proof. constructor; vm_compute; (reflexivity || (split; congruence)). Qed.

Lemma serialize_newHll_round_trip_witness :
  newHll_stream (serialize sample_array false ++ [9]) = Array_read sample_array [9]
  /\ length (serialize sample_array false) = 56%nat.
Proof.
  split; [|vm_compute; reflexivity].
  exact (proj1 (serialize_newHll_round_trip sample_array false [9] sample_constants_ok
                  (byte_layout_ok sample_array eq_refl) sample_array_fits)).
Defined.

Lemma unchecked_numAtCurMin_fails_assertion_witness :
  let h := putNumAtCurMin (newHll 4 HLL_8) 0 in
  exists g rest',
    newHll_stream (serialize h true) = Array_read g rest'
    /\ couponUpdate g (3 * 2 ^ 26 + 5) = Failed Assert_numAtCurMin_nonneg.
Proof.
  intros h.
  assert (Hfit : members_fit h) by (constructor; vm_compute; (reflexivity || (split; congruence))).
  destruct (unchecked_numAtCurMin_fails_assertion h true [] (3 * 2 ^ 26 + 5)
              sample_constants_ok (byte_layout_ok h eq_refl) Hfit
              ltac:(vm_compute; split; congruence) ltac:(vm_compute; reflexivity)
              ltac:(vm_compute; reflexivity))
    as (g & rest' & Hr & _ & Hf).
  rewrite app_nil_r in Hr. by exists g, rest'.
Defined.


Lemma register_bytes_start_at_40_witness :
  drop 40 (serialize sample_array false) = slots sample_array
  /\ getUpdatableSerializationBytes sample_array = 56.
Proof.
  destruct (register_bytes_start_at_40 sample_array false
              (byte_layout_ok sample_array eq_refl)) as (Hd & Hlen).
  split.
  - rewrite Hd. apply app_nil_r.
  - destruct (Hlen ltac:(discriminate)) as (_ & Hu & _).
    rewrite (Hu eq_refl ltac:(vm_compute; reflexivity)). vm_compute. reflexivity.
Defined.

End HllImageFacts.

(** ** KLL sketch: string items *)

Module KllItemsFacts.
Import Bytes BytesFacts KllItems.

Lemma serialize_items_app os items :
  serialize_items os items =
  match serialize_items [] items with
  | Returned out => Returned (os ++ out)
  | Invalid_argument out => Invalid_argument (os ++ out)
  end.
Proof.
  revert os. induction items as [|item items IH]; intros os; cbn [serialize_items].
  - by rewrite app_nil_r.
  - destruct (255 <? Z.of_nat (length item)); cbv iota; [by rewrite app_nil_r|].
    rewrite IH, (IH ([] ++ _)). cbn [app].
    destruct (serialize_items [] items); by rewrite !app_assoc.
Qed.

(** X22.  Strings of at most 255 bytes come back from the stream as they went
    in, whatever bytes they hold and whatever follows them, and their image
    takes one byte more than each string. *)
Theorem string_items_round_trip items rest :
  Forall (fun item => (length item <= 255)%nat) items ->
  exists os,
    serialize_items [] items = Returned os
    /\ deserialize_items (os ++ rest) (length items) = Some (items, rest)
    /\ length os = (length items + length (concat items))%nat.
Proof.
  induction 1 as [|item items Hi _ IH]; cbn [serialize_items].
  - by exists [].
  - replace (255 <? Z.of_nat (length item)) with false
      by (symmetry; apply Z.ltb_ge; lia).
    destruct IH as (os & Hs & Hd & Hl).
    rewrite serialize_items_app, Hs. eexists. split; [reflexivity|].
    cbn [app length deserialize_items concat].
    rewrite <- !app_assoc, read_uint_le_bytes. cbn [mbind option_bind].
    rewrite Z.mod_small by (change (256 ^ Z.of_nat 1) with 256; lia).
    rewrite Nat2Z.id, read_app. cbn [mbind option_bind]. rewrite Hd.
    split; [done|].
    rewrite !length_app, le_bytes_length, Hl. lia.
Qed.

(** X23.  [serialize_items] throws when it comes to a string longer than 255
    bytes, and by then it has written the images of the strings before it. *)
Theorem string_items_too_long before item after :
  Forall (fun item => (length item <= 255)%nat) before ->
  (255 < length item)%nat ->
  exists os,
    serialize_items [] before = Returned os
    /\ serialize_items [] (before ++ item :: after) = Invalid_argument os.
Proof.
  intros Hb Hi. induction Hb as [|x xs Hx _ IH]; cbn [app serialize_items].
  - exists []. split; [done|].
    by replace (255 <? Z.of_nat (length item)) with true by (symmetry; apply Z.ltb_lt; lia).
  - destruct IH as (os & Hs & Ht).
    replace (255 <? Z.of_nat (length x)) with false by (symmetry; apply Z.ltb_ge; lia).
    rewrite serialize_items_app, Hs, (serialize_items_app _ (xs ++ _)), Ht.
    eexists. split; reflexivity.
Qed.

Lemma string_items_round_trip_witness :
  exists os,
    serialize_items [] [[104; 105]; []; [33]] = Returned os
    /\ deserialize_items (os ++ [7]) 3 = Some ([[104; 105]; []; [33]], [7])
    /\ os = [2; 104; 105; 0; 1; 33].
Proof.
  destruct (string_items_round_trip [[104; 105]; []; [33]] [7]
              ltac:(repeat constructor; cbn; lia)) as (os & Hs & Hd & _).
  exists os. split; [exact Hs|]. split; [exact Hd|].
  vm_compute in Hs. by injection Hs as <-.
Defined.

Lemma string_items_too_long_witness :
  serialize_items [] [[104; 105]; replicate 256 0; [33]] = Invalid_argument [2; 104; 105].
Proof.
  destruct (string_items_too_long [[104; 105]] (replicate 256 0) [[33]]
              ltac:(repeat constructor; cbn; lia) ltac:(vm_compute; lia)) as (os & Hs & Ht).
  vm_compute in Hs. injection Hs as <-. exact Ht.
Defined.

End KllItemsFacts.
